(** * bsqlparse: the statement splitter, the token tree and the grouping engine

    A shallow embedding of [sqlparse/engine/statement_splitter.py],
    [bsqlparse/sql.py] and [sqlparse/engine/grouping_class.py].

    Python objects live in a heap of nodes addressed by natural numbers, so
    that in-place mutation, aliasing and [parent] back-references are
    modelled as the source has them.  Code that may raise returns in an
    error monad whose exceptions are the Python exception classes. *)

From Stdlib Require Import String Ascii ZArith List Bool Lia PeanoNat.
Import ListNotations.
Open Scope string_scope.
Open Scope list_scope.
Open Scope Z_scope.
Set Warnings "-register-all".

(** ** Strings *)

Notation "a =s? b" := (String.eqb a b) (at level 70).

(** [str.upper()], on the ASCII range. *)
Definition upper_ascii (c : ascii) : ascii :=
  let n := nat_of_ascii c in
  if ((97 <=? n)%nat && (n <=? 122)%nat)%bool then ascii_of_nat (n - 32) else c.

Fixpoint upper (s : string) : string :=
  match s with
  | EmptyString => EmptyString
  | String c r => String (upper_ascii c) (upper r)
  end.

(** [s.startswith(p)] *)
Definition startswith (s p : string) : bool := String.prefix p s.

(** [v in values] for a tuple of strings. *)
Definition str_in (v : string) (values : list string) : bool :=
  existsb (fun x => x =s? v) values.

(** ** The token-type lattice *)

(** A token type is the path of its names from the root, as the tuple
    subclass [_TokenType] has it; [None] is the type of a group. *)
Definition ttype := list string.

Fixpoint ttype_eqb (a b : ttype) : bool :=
  match a, b with
  | [], [] => true
  | x :: a', y :: b' => (x =s? y) && ttype_eqb a' b'
  | _, _ => false
  end.

Fixpoint ttype_prefix (p t : ttype) : bool :=
  match p, t with
  | [], _ => true
  | x :: p', y :: t' => (x =s? y) && ttype_prefix p' t'
  | _ :: _, [] => false
  end.

(** [item in parent]: [item is not None and (self is item or
    item[:len(self)] == self)]. *)
Definition ttype_in (item : option ttype) (parent : ttype) : bool :=
  match item with
  | None => false
  | Some t => ttype_prefix parent t
  end.

(** [a is b] / [a == b] on possibly-[None] token types. *)
Definition ttype_is (a : option ttype) (b : ttype) : bool :=
  match a with
  | None => false
  | Some t => ttype_eqb t b
  end.

(** Modelled from the spec: the token types of [tokens.py], which is not
    among the sources; the names and their nesting are those the spec lists
    for the lexer's contract. *)
Module T.
Definition Keyword : ttype := ["Keyword"].
Definition Keyword_DML : ttype := ["Keyword"; "DML"].
Definition Keyword_DDL : ttype := ["Keyword"; "DDL"].
Definition Keyword_CTE : ttype := ["Keyword"; "CTE"].
Definition Keyword_Order : ttype := ["Keyword"; "Order"].
Definition DML : ttype := Keyword_DML.
Definition DDL : ttype := Keyword_DDL.
Definition Punctuation : ttype := ["Punctuation"].
Definition Whitespace : ttype := ["Text"; "Whitespace"].
Definition Newline : ttype := ["Text"; "Whitespace"; "Newline"].
Definition Comment : ttype := ["Comment"].
Definition Comment_Single : ttype := ["Comment"; "Single"].
Definition Comment_Multiline : ttype := ["Comment"; "Multiline"].
Definition Name : ttype := ["Name"].
Definition Name_Placeholder : ttype := ["Name"; "Placeholder"].
Definition Name_Builtin : ttype := ["Name"; "Builtin"].
Definition Literal : ttype := ["Literal"].
Definition String_ : ttype := ["Literal"; "String"].
Definition String_Single : ttype := ["Literal"; "String"; "Single"].
Definition String_Symbol : ttype := ["Literal"; "String"; "Symbol"].
Definition Number : ttype := ["Literal"; "Number"].
Definition Number_Integer : ttype := ["Literal"; "Number"; "Integer"].
Definition Number_Float : ttype := ["Literal"; "Number"; "Float"].
Definition Operator : ttype := ["Operator"].
Definition Operator_Comparison : ttype := ["Operator"; "Comparison"].
Definition Comparison : ttype := Operator_Comparison.
Definition Wildcard : ttype := ["Wildcard"].
Definition Assignment : ttype := ["Assignment"].
Definition ForIn : ttype := ["ForIn"].
End T.

(** ** Python values of the model *)

(** The exceptions the modelled code can raise; [RecursionError] is the
    interpreter's, for calls nested deeper than it allows; [OutOfFuel] is
    the model's own, for a loop that did not finish within the fuel given. *)
Inductive exn :=
| TypeError | AttributeError | IndexError | ValueError | RecursionError
| OutOfFuel.

Inductive res (A : Type) :=
| Ok (a : A)
| Raise (e : exn).
Arguments Ok {A} a.
Arguments Raise {A} e.


(** A Python value held in a list: an object (its address) or a raw
    Python list, as the splitter nests them. *)
Inductive pyval :=
| Obj (i : nat)
| PyList (l : list pyval).

(** ** Python lists *)

Section PyList.
Context {A : Type}.

Definition len (l : list A) : Z := Z.of_nat (length l).

(** [l[i]] for an integer [i]: negative indices count from the end, an
    index out of range raises [IndexError]. *)
Definition py_index (l : list A) (i : Z) : res A :=
  let j := if i <? 0 then i + len l else i in
  if (j <? 0) || (len l <=? j) then Raise IndexError
  else match nth_error l (Z.to_nat j) with
       | Some x => Ok x
       | None => Raise IndexError
       end.

(** The bound of a slice: [None] is the default, a negative bound counts
    from the end, and the result is clamped to [0, len]. *)
Definition slice_bound (n : Z) (dflt : Z) (b : option Z) : Z :=
  match b with
  | None => dflt
  | Some i =>
      let j := if i <? 0 then i + n else i in
      if j <? 0 then 0 else if n <? j then n else j
  end.

(** The pair [(lo, hi)], [lo <= hi], that [l[start:end]] denotes. *)
Definition slice_range (l : list A) (start stop : option Z) : nat * nat :=
  let n := len l in
  let lo := slice_bound n 0 start in
  let hi := slice_bound n n stop in
  (Z.to_nat lo, Z.to_nat (Z.max lo hi)).

(** [l[start:end]] *)
Definition py_slice (l : list A) (start stop : option Z) : list A :=
  let '(lo, hi) := slice_range l start stop in
  firstn (hi - lo) (skipn lo l).

(** [l[start:end] = xs] *)
Definition py_slice_assign (l : list A) (start stop : option Z) (xs : list A)
  : list A :=
  let '(lo, hi) := slice_range l start stop in
  firstn lo l ++ xs ++ skipn hi l.

(** [del l[start:end]] *)
Definition py_slice_del (l : list A) (start stop : option Z) : list A :=
  py_slice_assign l start stop [].

(** [l.insert(i, x)] *)
Definition py_insert (l : list A) (i : Z) (x : A) : list A :=
  let n := len l in
  let j := slice_bound n 0 (Some i) in
  firstn (Z.to_nat j) l ++ x :: skipn (Z.to_nat j) l.

(** [l.pop(i)]: the element and the remaining list. *)
Definition py_pop (l : list A) (i : Z) : res (A * list A) :=
  let j := if i <? 0 then i + len l else i in
  if (j <? 0) || (len l <=? j) then Raise IndexError
  else match nth_error l (Z.to_nat j) with
       | Some x => Ok (x, firstn (Z.to_nat j) l ++ skipn (S (Z.to_nat j)) l)
       | None => Raise IndexError
       end.

(** [enumerate(l, start=s)] *)
Fixpoint enumerate_from (s : Z) (l : list A) : list (Z * A) :=
  match l with
  | [] => []
  | x :: r => (s, x) :: enumerate_from (s + 1) r
  end.

(** Replace the element at position [i]. *)
Fixpoint list_set (l : list A) (i : nat) (x : A) : list A :=
  match l, i with
  | [], _ => []
  | _ :: r, O => x :: r
  | y :: r, S j => y :: list_set r j x
  end.

End PyList.

(** [range(a, b)] for [a <= b], and [range(a, -1, -1)]. *)
Definition range_up (a b : Z) : list Z :=
  map (fun k => a + Z.of_nat k) (seq 0 (Z.to_nat (b - a))).
Definition range_down (a : Z) : list Z :=
  map (fun k => a - Z.of_nat k) (seq 0 (Z.to_nat (a + 1))).

(** * [bsqlparse/sql.py] *)

Module sql.

(** The classes of the module; [Token] is the class of a leaf. *)
Inductive cls :=
| Token | TokenList | Statement | Identifier | IdentifierList | Parenthesis
| OpenLoopTag | SquareBrackets | Assignment | If | Select | DML_Operation
| Package | PackageHeading | FunctionHeading | ProcedureHeading
| FunctionParam | DeclareSection | DataType | For | Comparison | Comment
| Block | FunctionBlock | ProcedureBlock | Where | Union | Case | Function
| Begin | Transaction | Operation | ReturnType | CursorDef | Exceptions
| Exit | Condition | Open | NotFound.

Scheme Equality for cls.

(** [issubclass(c, d)] *)
Definition issubclass (c d : cls) : bool :=
  match d with
  | Token => true
  | TokenList => negb (cls_beq c Token)
  | Block => cls_beq c Block || cls_beq c FunctionBlock || cls_beq c ProcedureBlock
  | _ => cls_beq c d
  end.

(** An object of class [Token] or of a subclass: the slots of [Token] and,
    for a group, the slot [tokens] of [TokenList]. *)
Record node := mkNode {
  class_ : cls;
  value : string;
  ttype_ : option ttype;
  parent : option nat;
  normalized : string;
  is_keyword : bool;
  is_group : bool;
  is_whitespace : bool;
  tokens : list nat
}.

Definition heap := list node.

Definition dummy : node :=
  mkNode Token "" None None "" false false false [].

(** The object at an address. *)
Definition deref (h : heap) (i : nat) : node := nth i h dummy.

(** Computations over the heap that may raise. *)
Definition M (A : Type) := heap -> res (A * heap).

Definition ret {A} (a : A) : M A := fun h => Ok (a, h).
Definition bind {A B} (m : M A) (k : A -> M B) : M B :=
  fun h => match m h with
           | Ok (a, h') => k a h'
           | Raise e => Raise e
           end.
Definition raise {A} (e : exn) : M A := fun _ => Raise e.
Definition lift {A} (r : res A) : M A :=
  fun h => match r with Ok a => Ok (a, h) | Raise e => Raise e end.
Definition get (i : nat) : M node := fun h => Ok (deref h i, h).
Definition put (i : nat) (n : node) : M unit :=
  fun h => Ok (tt, list_set h i n).
Definition alloc (n : node) : M nat :=
  fun h => Ok (length h, h ++ [n]).
Definition heap_size : M nat := fun h => Ok (length h, h).

Declare Scope py_scope.
Delimit Scope py_scope with py.
Notation "x <- c ;; k" := (bind c (fun x => k))
  (at level 61, c at next level, right associativity) : py_scope.
Notation "' p <- c ;; k" := (bind c (fun x => let p := x in k))
  (at level 61, p pattern, c at next level, right associativity) : py_scope.
Notation "c ;;; k" := (bind c (fun _ => k))
  (at level 61, right associativity) : py_scope.
Open Scope py_scope.

(** [for x in l: body(x)], over a list fixed when the loop starts. *)
Fixpoint for_each {A} (l : list A) (body : A -> M unit) : M unit :=
  match l with
  | [] => ret tt
  | x :: r => body x ;;; for_each r body
  end.

Definition set_parent (n : node) (p : option nat) : node :=
  mkNode (class_ n) (value n) (ttype_ n) p (normalized n) (is_keyword n)
         (is_group n) (is_whitespace n) (tokens n).
Definition set_tokens (n : node) (l : list nat) : node :=
  mkNode (class_ n) (value n) (ttype_ n) (parent n) (normalized n)
         (is_keyword n) (is_group n) (is_whitespace n) l.
Definition set_value (n : node) (v : string) : node :=
  mkNode (class_ n) v (ttype_ n) (parent n) (normalized n) (is_keyword n)
         (is_group n) (is_whitespace n) (tokens n).
Definition set_ttype (n : node) (t : option ttype) : node :=
  mkNode (class_ n) (value n) t (parent n) (normalized n) (is_keyword n)
         (is_group n) (is_whitespace n) (tokens n).

(** [obj.attr = v] *)
Definition setattr (i : nat) (f : node -> node) : M unit :=
  n <- get i ;; put i (f n).

(** [Token.__init__(self, ttype, value)], run on the slots of [self]. *)
Definition Token__init__ (self : node) (tt : option ttype) (v : string) : node :=
  let kw := ttype_in tt T.Keyword in
  mkNode (class_ self) v tt None (if kw then upper v else v) kw false
         (ttype_in tt T.Whitespace) (tokens self).

(** [Token(ttype, value)] *)
Definition new_Token (tt : ttype) (v : string) : M nat :=
  alloc (Token__init__ dummy (Some tt) v).

(** [for x in l: for y in f(x): yield y], where [f] may raise. *)
Fixpoint concat_res {A B} (f : A -> res (list B)) (l : list A) : res (list B) :=
  match l with
  | [] => Ok []
  | t :: r =>
      match f t with
      | Raise e => Raise e
      | Ok xs => match concat_res f r with
                 | Raise e => Raise e
                 | Ok ys => Ok (xs ++ ys)
                 end
      end
  end.

(** [sys.getrecursionlimit()]: the depth of nested calls the interpreter
    allows, 1000 unless the caller changes it. *)
Definition recursion_limit : nat := 1000.
Arguments recursion_limit : simpl never.

(** [TokenList.flatten]: the leaves below a group, in order.  The generator
    recurses through [is_group] children, one frame for each level of
    groups; [fuel] is the number of frames it may nest, and the interpreter
    raises [RecursionError] beyond it. *)
Fixpoint flatten (fuel : nat) (h : heap) (i : nat) : res (list nat) :=
  match fuel with
  | O => Raise RecursionError
  | S fuel' =>
      concat_res (fun t => if is_group (deref h t) then flatten fuel' h t
                           else Ok [t])
                 (tokens (deref h i))
  end.

(** [u''.join(token.value for token in ...)] *)
Definition join_values (h : heap) (l : list nat) : string :=
  fold_right (fun t acc => value (deref h t) ++ acc)%string "" l.

(** [TokenList.__str__]: the generator runs under the interpreter's
    recursion limit (the frames of the callers are not counted), so a
    group nested deeper than the limit raises [RecursionError]. *)
Definition __str__ (self : nat) : M string :=
  fun h => match flatten recursion_limit h self with
           | Ok l => Ok (join_values h l, h)
           | Raise e => Raise e
           end.

(** [text_type(tok)]: [Token.__str__] is the value, a group joins its
    leaves (the method is chosen by the class). *)
Definition text_type (i : nat) : M string :=
  n <- get i ;;
  if cls_beq (class_ n) Token then ret (value n) else __str__ i.

(** [[setattr(token, 'parent', self) for token in tokens]]: a raw list
    among the tokens has no attribute [parent]. *)
Fixpoint set_parents (self : nat) (l : list pyval) : M (list nat) :=
  match l with
  | [] => ret []
  | Obj i :: r =>
      setattr i (fun n => set_parent n (Some self)) ;;;
      ids <- set_parents self r ;; ret (i :: ids)
  | PyList _ :: _ => raise AttributeError
  end.

(** [TokenList.__init__(self, tokens=None)] for a fresh object of class [c]:
    [self.tokens = tokens or []], then the comprehension that sets every
    child's [parent] iterates the ARGUMENT [tokens], so [None] raises
    [TypeError] and a raw list among the children raises [AttributeError];
    then [Token.__init__(None, text_type(self))] and [is_group = True]. *)
Definition TokenList__init__ (c : cls) (toks : option (list pyval)) : M nat :=
  self <- alloc (mkNode c "" None None "" false false false []) ;;
  match toks with
  | None => raise TypeError
  | Some l =>
      ids <- set_parents self l ;;
      setattr self (fun n => set_tokens n ids) ;;;
      v <- text_type self ;;
      n <- get self ;;
      put self (let n' := Token__init__ n None v in
                mkNode (class_ n') (value n') (ttype_ n') (parent n')
                       (normalized n') (is_keyword n') true (is_whitespace n')
                       (tokens n')) ;;;
      ret self
  end.

(** [grp_cls(subtokens)] for a list of objects. *)
Definition new_group (c : cls) (ids : list nat) : M nat :=
  TokenList__init__ c (Some (map Obj ids)).

(** *** Matching *)

Definition is_space (c : ascii) : bool :=
  let n := nat_of_ascii c in
  ((n =? 32) || ((9 <=? n) && (n <=? 13)))%nat.
Definition is_word (c : ascii) : bool :=
  let n := nat_of_ascii c in
  (((48 <=? n) && (n <=? 57)) || ((65 <=? n) && (n <=? 90))
   || ((97 <=? n) && (n <=? 122)) || (n =? 95))%nat.

Fixpoint drop_while (p : ascii -> bool) (s : string) : string :=
  match s with
  | String c r => if p c then drop_while p r else s
  | EmptyString => s
  end.

(** One or more characters of a class, then the rest. *)
Definition plus (p : ascii -> bool) (s : string) : option string :=
  match s with
  | String c r => if p c then Some (drop_while p r) else None
  | EmptyString => None
  end.

(** A literal, compared case-insensitively under [re.IGNORECASE]. *)
Definition lit (icase : bool) (l s : string) : option string :=
  let n := String.length l in
  let hd := substring 0 n s in
  if (if icase then upper hd =s? upper l else hd =s? l)
  then Some (substring n (String.length s - n) s) else None.

(** The pattern [FOR\s+\w+\s+IN\b] anchored at the head of [s]; the
    character classes are disjoint, so the greedy match is the only one. *)
Definition for_in_at (icase : bool) (s : string) : bool :=
  match lit icase "FOR" s with
  | None => false
  | Some s1 =>
    match plus is_space s1 with
    | None => false
    | Some s2 =>
      match plus is_word s2 with
      | None => false
      | Some s3 =>
        match plus is_space s3 with
        | None => false
        | Some s4 =>
          match lit icase "IN" s4 with
          | None => false
          | Some s5 => match s5 with
                       | EmptyString => true
                       | String c _ => negb (is_word c)
                       end
          end
        end
      end
    end
  end.

Fixpoint search_at (f : string -> bool) (s : string) : bool :=
  f s || match s with
         | EmptyString => false
         | String _ r => search_at f r
         end.

(** [re.compile(v, flag).search(text)]: the one pattern the classes use is
    [FOR\s+\w+\s+IN\b]; any other value is searched as a literal. *)
Definition re_search (v : string) (icase : bool) (text : string) : bool :=
  if v =s? "FOR\s+\w+\s+IN\b" then search_at (for_in_at icase) text
  else search_at (fun s => match lit icase v s with Some _ => true | None => false end) text.

(** [Token.match(self, ttype, values, regex=False, ignorecase=False)];
    a single string for [values] is the one-element tuple. *)
Definition match_ (tk : node) (tt : ttype) (values : option (list string))
           (regex ignorecase : bool) : bool :=
  let type_matched := ttype_is (ttype_ tk) tt in
  match values with
  | None => type_matched
  | Some values =>
      if negb type_matched then type_matched
      else if regex then
        existsb (fun v => re_search v (is_keyword tk || ignorecase) (normalized tk)) values
      else
        let values := if is_keyword tk then map upper values else values in
        str_in (normalized tk) values
  end.

(** The arguments of a [match] call, as the [M_OPEN]/[M_CLOSE] tuples
    hold them. *)
Record mspec := mkM {
  m_ttype : ttype;
  m_values : list string;
  m_regex : bool;
  m_ignorecase : bool
}.

Definition m2 (tt : ttype) (values : list string) : mspec := mkM tt values false false.

(** [token.match] applied to the tuple [spec] *)
Definition match_spec (tk : node) (p : mspec) : bool :=
  match_ tk (m_ttype p) (Some (m_values p)) (m_regex p) (m_ignorecase p).

(** [isinstance(token, classes)] *)
Definition isinstance (tk : node) (classes : list cls) : bool :=
  existsb (issubclass (class_ tk)) classes.

(** Modelled from the spec: [utils.imt], which is not among the sources:
    "is one of" across class variants [i], [(type, values)] match specs
    [m] and token-type lattice membership [t]; [None] is never one. *)
Definition imt (token : option node) (i : list cls) (m : list mspec)
           (t : list ttype) : bool :=
  match token with
  | None => false
  | Some tk =>
      isinstance tk i
      || existsb (match_spec tk) m
      || existsb (ttype_in (ttype_ tk)) t
  end.

(** *** Scans over the direct children of a group *)

(** Run a read-only function of the heap. *)
Definition rd {A} (f : heap -> res A) : M A :=
  fun h => match f h with Ok a => Ok (a, h) | Raise e => Raise e end.

Definition any_func (funcs : list (node -> bool)) (tk : node) : bool :=
  existsb (fun f => f tk) funcs.

(** [TokenList._token_matching(self, funcs, start=0, end=None,
    reverse=False)] for an integer [start]: the index and the token of the
    first child that one of [funcs] accepts, or [(None, None)]. *)
Definition _token_matching (h : heap) (self : nat) (funcs : list (node -> bool))
           (start : Z) (stop : option Z) (reverse : bool)
  : res (option Z * option nat) :=
  let toks := tokens (deref h self) in
  if reverse then
    (fix go (idxs : list Z) : res (option Z * option nat) :=
       match idxs with
       | [] => Ok (None, None)
       | idx :: r =>
           match py_index toks idx with
           | Raise e => Raise e
           | Ok t => if any_func funcs (deref h t) then Ok (Some idx, Some t)
                     else go r
           end
       end) (range_down (start - 2))
  else
    match find (fun it => any_func funcs (deref h (snd it)))
               (enumerate_from start (py_slice toks (Some start) stop)) with
    | Some (idx, t) => Ok (Some idx, Some t)
    | None => Ok (None, None)
    end.

(** The predicate of [token_first], [token_last] and [token_next]:
    [not ((skip_ws and tk.is_whitespace) or
          (skip_cm and imt(tk, t=T.Comment, i=Comment)))]. *)
Definition not_skipped (skip_ws skip_cm : bool) (tk : node) : bool :=
  negb ((skip_ws && is_whitespace tk)
        || (skip_cm && imt (Some tk) [Comment] [] [T.Comment])).

(** [TokenList.token_first(self, skip_ws=True, skip_cm=False)] *)
Definition token_first (h : heap) (self : nat) (skip_ws skip_cm : bool)
  : res (option nat) :=
  match _token_matching h self [not_skipped skip_ws skip_cm] 0 None false with
  | Ok (_, t) => Ok t
  | Raise e => Raise e
  end.

(** [TokenList.token_last(self, skip_ws=True, skip_cm=False)] *)
Definition token_last (h : heap) (self : nat) (skip_ws skip_cm : bool)
  : res (option nat) :=
  match _token_matching h self [not_skipped skip_ws skip_cm]
                        (len (tokens (deref h self)) + 1) None true with
  | Ok (_, t) => Ok t
  | Raise e => Raise e
  end.

(** [TokenList.token_next_by(self, i=None, m=None, t=None, idx=-1,
    end=None)]; [idx += 1] raises [TypeError] on [None]. *)
Definition token_next_by (h : heap) (self : nat) (i : list cls) (m : list mspec)
           (t : list ttype) (idx : option Z) (stop : option Z)
  : res (option Z * option nat) :=
  match idx with
  | None => Raise TypeError
  | Some idx =>
      _token_matching h self [fun tk => imt (Some tk) i m t] (idx + 1) stop false
  end.

(** [TokenList.token_not_matching(self, funcs, idx)] for one function. *)
Definition token_not_matching (h : heap) (self : nat) (func : node -> bool)
           (idx : Z) : res (option Z * option nat) :=
  _token_matching h self [fun tk => negb (func tk)] idx None false.

(** [TokenList.token_next(self, idx, skip_ws=True, skip_cm=False,
    _reverse=False)] *)
Definition token_next (h : heap) (self : nat) (idx : option Z)
           (skip_ws skip_cm _reverse : bool) : res (option Z * option nat) :=
  match idx with
  | None => Ok (None, None)
  | Some idx =>
      _token_matching h self [not_skipped skip_ws skip_cm] (idx + 1) None _reverse
  end.

(** [TokenList.token_prev(self, idx, skip_ws=True, skip_cm=False)] *)
Definition token_prev (h : heap) (self : nat) (idx : option Z)
           (skip_ws skip_cm : bool) : res (option Z * option nat) :=
  token_next h self idx skip_ws skip_cm true.

(** [list.index(x)] on objects, compared by identity. *)
Fixpoint list_index (l : list nat) (x : nat) : option Z :=
  match l with
  | [] => None
  | y :: r => if (y =? x)%nat then Some 0
              else match list_index r x with
                   | Some k => Some (k + 1)
                   | None => None
                   end
  end.

(** [TokenList.token_index(self, token, start=0)] for an integer [start];
    a token that is not a child ([None] included) raises [ValueError]. *)
Definition token_index (h : heap) (self : nat) (token : option nat) (start : Z)
  : res Z :=
  match token with
  | None => Raise ValueError
  | Some t =>
      match list_index (py_slice (tokens (deref h self)) (Some start) None) t with
      | Some k => Ok (start + k)
      | None => Raise ValueError
      end
  end.

(** The loop of [get_token_at_offset] over the leaves [l], with [idx] the
    offset of the first of them. *)
Fixpoint token_at (h : heap) (offset idx : Z) (l : list nat) : option nat :=
  match l with
  | [] => None
  | t :: r =>
      let end_ := idx + Z.of_nat (String.length (value (deref h t))) in
      if (idx <=? offset) && (offset <? end_) then Some t
      else token_at h offset end_ r
  end.

(** [TokenList.get_token_at_offset(self, offset)]: the token that is on
    position [offset], [None] when the loop ends without one; the loop
    runs over [self.flatten()]. *)
Definition get_token_at_offset (h : heap) (self : nat) (offset : Z)
  : res (option nat) :=
  match flatten recursion_limit h self with
  | Ok l => Ok (token_at h offset 0 l)
  | Raise e => Raise e
  end.

(** [TokenList.get_sublists]: the children that are groups. *)
Definition get_sublists (h : heap) (self : nat) : list nat :=
  filter (fun t => is_group (deref h t)) (tokens (deref h self)).

(** *** Structural edits *)

(** [TokenList.group_tokens(self, grp_cls, start, end, include_end=True,
    extend=False)]: replace tokens by an instance of [grp_cls].  A [None]
    index raises [TypeError] where it is used as a subscript or added. *)
Definition group_tokens (self : nat) (grp_cls : cls) (start stop : option Z)
           (include_end extend : bool) : M nat :=
  match start with
  | None => raise TypeError
  | Some start_idx =>
      s <- get self ;;
      start <- lift (py_index (tokens s) start_idx) ;;
      match stop with
      | None => raise TypeError
      | Some e =>
          let end_idx := e + (if include_end then 1 else 0) in
          sn <- get start ;;
          if extend && isinstance sn [grp_cls] then
            let subtokens := py_slice (tokens s) (Some (start_idx + 1)) (Some end_idx) in
            let grp := start in
            setattr grp (fun n => set_tokens n (tokens n ++ subtokens)) ;;;
            setattr self (fun n => set_tokens n
              (py_slice_del (tokens n) (Some (start_idx + 1)) (Some end_idx))) ;;;
            v <- text_type start ;;
            setattr grp (fun n => set_value n v) ;;;
            for_each subtokens (fun t => setattr t (fun n => set_parent n (Some grp))) ;;;
            ret grp
          else
            let subtokens := py_slice (tokens s) (Some start_idx) (Some end_idx) in
            grp <- new_group grp_cls subtokens ;;
            setattr self (fun n => set_tokens n
              (py_slice_assign (tokens n) (Some start_idx) (Some end_idx) [grp])) ;;;
            setattr grp (fun n => set_parent n (Some self)) ;;;
            for_each subtokens (fun t => setattr t (fun n => set_parent n (Some grp))) ;;;
            ret grp
      end
  end.

(** [TokenList.insert_before(self, where, token)] for an integer [where]. *)
Definition insert_before (self : nat) (where_ : Z) (token : nat) : M unit :=
  setattr token (fun n => set_parent n (Some self)) ;;;
  setattr self (fun n => set_tokens n (py_insert (tokens n) where_ token)).

(** [TokenList.insert_after(self, where, token, skip_ws=True)] for an
    integer [where]: the token goes before the next token after [where]
    that is not skipped, or to the end when there is none. *)
Definition insert_after (self : nat) (where_ : Z) (token : nat) (skip_ws : bool)
  : M unit :=
  '(nidx, next_) <- rd (fun h => token_next h self (Some where_) skip_ws false false) ;;
  setattr token (fun n => set_parent n (Some self)) ;;;
  match next_ with
  | None => setattr self (fun n => set_tokens n (tokens n ++ [token]))
  | Some _ =>
      match nidx with
      | Some i => setattr self (fun n => set_tokens n (py_insert (tokens n) i token))
      | None => raise TypeError
      end
  end.

(** [TokenList.pop(self, index=-1)] *)
Definition pop (self : nat) (index : Z) : M nat :=
  s <- get self ;;
  '(x, rest) <- lift (py_pop (tokens s) index) ;;
  put self (set_tokens s rest) ;;;
  ret x.

(** *** [Statement] *)

(** [Statement.get_type(self)]: the type of a statement. *)
Definition get_type (h : heap) (self : nat) : res string :=
  match token_first h self true true with
  | Raise e => Raise e
  | Ok None => Ok "UNKNOWN"
  | Ok (Some first_token) =>
      let ft := deref h first_token in
      if ttype_is (ttype_ ft) T.Keyword_DML || ttype_is (ttype_ ft) T.Keyword_DDL then
        Ok (normalized ft)
      else if ttype_is (ttype_ ft) T.Keyword_CTE then
        match token_index h self (Some first_token) 0 with
        | Raise e => Raise e
        | Ok fidx =>
            match token_next h self (Some fidx) true false false with
            | Raise e => Raise e
            | Ok (tidx, token) =>
                if match token with
                   | Some t => isinstance (deref h t) [Identifier; IdentifierList]
                   | None => false
                   end
                then
                  match token_next h self tidx true false false with
                  | Raise e => Raise e
                  | Ok (_, None) => Raise AttributeError
                  | Ok (_, Some dml_keyword) =>
                      if ttype_is (ttype_ (deref h dml_keyword)) T.Keyword_DML
                      then Ok (normalized (deref h dml_keyword))
                      else Ok "UNKNOWN"
                  end
                else Ok "UNKNOWN"
            end
        end
      else Ok "UNKNOWN"
  end.

(** *** The sentinels of the typed groups *)

(** The sentinels that are lists of tuples. *)
Definition Select_M_CLOSE : list mspec :=
  [m2 T.Punctuation [";"]; m2 T.Keyword ["UNION"]; m2 T.Keyword ["UNION ALL"]].
Definition FunctionHeading_M_CLOSE : list mspec :=
  [m2 T.Keyword ["IS"; "AS"]; m2 T.Punctuation [";"]; m2 T.Punctuation [","]].
Definition For_M_OPEN : list mspec :=
  [mkM T.ForIn ["FOR\s+\w+\s+IN\b"] true false; m2 T.Keyword ["LOOP"]].
Definition Where_M_OPEN : mspec := m2 T.Keyword ["WHERE"].
Definition NotFound_M_CLOSE : list mspec :=
  [m2 T.Keyword ["FOUND"]; m2 T.Keyword ["NOTFOUND"]; m2 T.Keyword ["ROWCOUNT"]].

(** A class attribute [M_OPEN] or [M_CLOSE]: one [(ttype, values, ...)]
    tuple, or a list of such tuples. *)
Inductive sentinel :=
| Tuple (m : mspec)
| Tuples (l : list mspec).

(** [cls.M_OPEN] and [cls.M_CLOSE]; a class without the attribute raises
    [AttributeError]. *)
Definition M_OPEN (c : cls) : res sentinel :=
  match c with
  | Parenthesis => Ok (Tuple (m2 T.Punctuation ["("]))
  | OpenLoopTag => Ok (Tuple (m2 T.Comparison ["<<"]))
  | SquareBrackets => Ok (Tuple (m2 T.Punctuation ["["]))
  | If => Ok (Tuple (m2 T.Keyword ["IF"]))
  | Select => Ok (Tuple (m2 T.Keyword_DML ["SELECT"]))
  | DML_Operation => Ok (Tuple (m2 T.Keyword_DML ["INSERT"; "UPDATE"; "DELETE"]))
  | PackageHeading => Ok (Tuple (m2 T.Keyword_DDL ["CREATE OR REPLACE"]))
  | FunctionHeading => Ok (Tuple (mkM T.Keyword ["FUNCTION"] false true))
  | ProcedureHeading => Ok (Tuple (mkM T.Keyword ["PROCEDURE"] false true))
  | DeclareSection => Ok (Tuple (m2 T.Keyword ["IS"; "AS"]))
  | For => Ok (Tuples For_M_OPEN)
  | Where => Ok (Tuple Where_M_OPEN)
  | Case => Ok (Tuple (m2 T.Keyword ["CASE"]))
  | Begin => Ok (Tuple (m2 T.Keyword ["BEGIN"]))
  | ReturnType => Ok (Tuple (m2 T.Keyword ["RETURN"]))
  | CursorDef => Ok (Tuple (m2 T.Keyword ["CURSOR"]))
  | Exceptions => Ok (Tuple (m2 T.Keyword ["EXCEPTION"]))
  | Exit => Ok (Tuple (m2 T.Keyword ["EXIT"]))
  | Open => Ok (Tuple (m2 T.Keyword ["OPEN"]))
  | NotFound => Ok (Tuple (m2 T.Operator ["%"]))
  | _ => Raise AttributeError
  end.

Definition M_CLOSE (c : cls) : res sentinel :=
  match c with
  | Parenthesis => Ok (Tuple (m2 T.Punctuation [")"]))
  | OpenLoopTag => Ok (Tuple (m2 T.Comparison [">>"]))
  | SquareBrackets => Ok (Tuple (m2 T.Punctuation ["]"]))
  | If => Ok (Tuple (m2 T.Keyword ["END IF"]))
  | Select => Ok (Tuples Select_M_CLOSE)
  | DML_Operation => Ok (Tuple (m2 T.Punctuation [";"]))
  | PackageHeading => Ok (Tuple (m2 T.Keyword ["IS"; "AS"]))
  | FunctionHeading => Ok (Tuples FunctionHeading_M_CLOSE)
  | For => Ok (Tuple (m2 T.Keyword ["END LOOP"]))
  | Where => Ok (Tuple (m2 T.Keyword ["ORDER"; "GROUP"; "LIMIT"; "UNION"; "EXCEPT";
                                      "HAVING"; "RETURNING"; "INTO"; "FOR UPDATE"]))
  | Case => Ok (Tuple (m2 T.Keyword ["END"; "END CASE"]))
  | Begin => Ok (Tuple (m2 T.Keyword ["END"]))
  | Transaction => Ok (Tuple (m2 T.Keyword_DML ["COMMIT"; "ROLLBACK"; "ROLLBACK TO"]))
  | Exceptions => Ok (Tuple (m2 T.Keyword ["END"]))
  | Exit => Ok (Tuple (m2 T.Punctuation [";"]))
  | Open => Ok (Tuple (m2 T.Punctuation [";"]))
  | NotFound => Ok (Tuples NotFound_M_CLOSE)
  | _ => Raise AttributeError
  end.

(** The sentinel of a class where the code names one that holds a single
    tuple ([m=sql.Where.M_CLOSE], [sql.Parenthesis.M_OPEN], ...). *)
Definition tuple (s : res sentinel) : res mspec :=
  match s with
  | Ok (Tuple m) => Ok m
  | Ok (Tuples _) => Raise TypeError
  | Raise e => Raise e
  end.

(** [token.match( *s)], the sentinel unpacked into the arguments of
    [match]: a tuple gives its own arguments; the elements of a list of
    tuples arrive as [ttype], [values], [regex], [ignorecase], and a tuple
    is no token type, so [match] returns [False] at its first test; fewer
    than two or more than four arguments raise [TypeError]. *)
Definition match_star (tk : node) (s : sentinel) : res bool :=
  match s with
  | Tuple m => Ok (match_spec tk m)
  | Tuples l =>
      if ((2 <=? length l) && (length l <=? 4))%nat then Ok false
      else Raise TypeError
  end.
Definition Union_M_DIVIDER : mspec := m2 T.Keyword ["UNION"; "UNION ALL"].
Definition PackageHeading_M_NEXT : mspec := m2 T.Keyword ["PACKAGE"].
Definition CursorDef_M_MIDDLE : mspec := m2 T.Keyword ["IS"].
Definition FunctionParam_SEPARATOR : mspec := m2 T.Punctuation [","].
Definition DeclareSection_SEPARATOR : mspec := m2 T.Punctuation [";"].

(** [Parenthesis._groupable_tokens] and [SquareBrackets._groupable_tokens]
    are [self.tokens[1:-1]]; every other class has [self.tokens]. *)
Definition _groupable_tokens (h : heap) (self : nat) : list nat :=
  let n := deref h self in
  if cls_beq (class_ n) Parenthesis || cls_beq (class_ n) SquareBrackets
  then py_slice (tokens n) (Some 1) (Some (-1))
  else tokens n.

End sql.

(** * [sqlparse/engine/statement_splitter.py] *)

Module StatementSplitter.

Import sql.

(** The attributes of a [StatementSplitter]. *)

Record splitter := mkSplitter {
  _in_declare : bool;
  _is_create : bool;
  _in_case : Z;
  _infor : bool;
  _inwhile : bool;
  _begin_depth : Z;
  consume_ws : bool;
  tokens : list pyval;
  level : Z
}.

(** [StatementSplitter._reset] *)
Definition _reset : splitter :=
  mkSplitter false false 0 false false 0 false [] 0.

Definition set_in_declare (s : splitter) (b : bool) : splitter :=
  mkSplitter b (_is_create s) (_in_case s) (_infor s) (_inwhile s)
             (_begin_depth s) (consume_ws s) (tokens s) (level s).
Definition set_is_create (s : splitter) (b : bool) : splitter :=
  mkSplitter (_in_declare s) b (_in_case s) (_infor s) (_inwhile s)
             (_begin_depth s) (consume_ws s) (tokens s) (level s).
Definition set_in_case (s : splitter) (n : Z) : splitter :=
  mkSplitter (_in_declare s) (_is_create s) n (_infor s) (_inwhile s)
             (_begin_depth s) (consume_ws s) (tokens s) (level s).
Definition set_infor (s : splitter) (b : bool) : splitter :=
  mkSplitter (_in_declare s) (_is_create s) (_in_case s) b (_inwhile s)
             (_begin_depth s) (consume_ws s) (tokens s) (level s).
Definition set_inwhile (s : splitter) (b : bool) : splitter :=
  mkSplitter (_in_declare s) (_is_create s) (_in_case s) (_infor s) b
             (_begin_depth s) (consume_ws s) (tokens s) (level s).
Definition set_begin_depth (s : splitter) (n : Z) : splitter :=
  mkSplitter (_in_declare s) (_is_create s) (_in_case s) (_infor s) (_inwhile s)
             n (consume_ws s) (tokens s) (level s).
Definition set_tokens (s : splitter) (l : list pyval) : splitter :=
  mkSplitter (_in_declare s) (_is_create s) (_in_case s) (_infor s) (_inwhile s)
             (_begin_depth s) (consume_ws s) l (level s).
Definition set_level (s : splitter) (n : Z) : splitter :=
  mkSplitter (_in_declare s) (_is_create s) (_in_case s) (_infor s) (_inwhile s)
             (_begin_depth s) (consume_ws s) (tokens s) n.

Section Splitter.

(** [T.ForIn]: where [tokens.py] hangs it in the lattice is not visible in
    the sources, so the splitter is stated for any placement. *)
Variable ForIn : ttype.

(** [StatementSplitter._change_splitlevel]: the new split level (increase,
    decrease or remain equal) and the updated attributes. *)
Definition _change_splitlevel (self : splitter) (tt : ttype) (value : string)
  : Z * splitter :=
  if negb (ttype_in (Some tt) T.Keyword) then (0, self) else
  let unified := upper value in
  if ttype_eqb tt T.Keyword_DDL && (unified =s? "CREATE OR REPLACE") then
    (1, set_is_create self true)
  else if (unified =s? "DECLARE") && _is_create self && (_begin_depth self =? 0) then
    (1, set_in_declare self true)
  else if unified =s? "BEGIN" then
    let self := set_begin_depth self (_begin_depth self + 1) in
    if _is_create self then (1, self) else (1, self)
  else if unified =s? "END" then
    if 0 <? _in_case self then (-1, set_in_case self (_in_case self - 1))
    else (-1, set_begin_depth self (Z.max 0 (_begin_depth self - 1)))
  else if ((startswith unified "FOR" && ttype_eqb tt ForIn) || (unified =s? "LOOP"))
          && _is_create self && (0 <? _begin_depth self) then
    if startswith unified "FOR" then (1, set_infor self true)
    else if _infor self then (0, set_infor self false)
    else if _inwhile self then (0, set_inwhile self false)
    else (1, self)
  else if unified =s? "CASE" then
    (1, set_in_case self (_in_case self + 1))
  else if str_in unified ["IF"; "WHILE"] && _is_create self && (0 <? _begin_depth self) then
    if unified =s? "WHILE" then (1, set_inwhile self true) else (1, self)
  else if unified =s? "END CASE" then
    (-1, set_in_case self (_in_case self - 1))
  else if str_in unified ["END IF"; "END WHILE"; "END LOOP"] then
    (-1, self)
  else (0, self).


(** Walk [k] times to the last element, [temp = temp[len(temp) - 1]], then
    run [f] on the list reached.  [len] of an object raises [TypeError]
    (no class defines [__len__]), the last element of an empty list raises
    [IndexError], and a list method on an object raises
    [AttributeError]. *)
Fixpoint at_depth (k : nat) (f : list pyval -> M (list pyval)) (temp : pyval)
  : M pyval :=
  match k, temp with
  | O, PyList l => l' <- f l ;; ret (PyList l')
  | O, Obj _ => raise AttributeError
  | S _, Obj _ => raise TypeError
  | S k', PyList l =>
      match rev l with
      | [] => raise IndexError
      | x :: r => x' <- at_depth k' f x ;; ret (PyList (rev r ++ [x']))
      end
  end.

(** Run [f] on the frame at [depth] below [self.tokens]. *)
Definition on_frame (self : splitter) (depth : nat)
           (f : list pyval -> M (list pyval)) : M splitter :=
  v <- at_depth depth f (PyList (tokens self)) ;;
  match v with
  | PyList l => ret (set_tokens self l)
  | Obj _ => ret self
  end.

(** [add_new_token_array_at(self, depth)]: the loop runs over
    [range(depth)] and appends [[]] in its last round. *)
Definition add_new_token_array_at (self : splitter) (depth : Z) : M splitter :=
  if depth <=? 0 then ret self
  else on_frame self (Z.to_nat (depth - 1)) (fun l => ret (l ++ [PyList []])).

(** [append_token_at_depth(self, depth, token)]: the loop runs over
    [range(depth + 1)], so a negative [depth] appends nothing. *)
Definition append_token_at_depth (self : splitter) (depth : Z) (token : nat)
  : M splitter :=
  if depth + 1 <=? 0 then ret self
  else on_frame self (Z.to_nat depth) (fun l => ret (l ++ [Obj token])).

(** [process_list_at_depth(self, depth)]: in its last round
    [temp.append(sql.Statement(temp.pop()))].  A popped [Token] is not
    iterable; a popped group would be iterated child by child. *)
Definition process_list_at_depth (self : splitter) (depth : Z) : M splitter :=
  if depth <=? 0 then ret self
  else on_frame self (Z.to_nat (depth - 1)) (fun l =>
    match rev l with
    | [] => raise IndexError
    | x :: r =>
        st <- match x with
              | PyList xs => TokenList__init__ Statement (Some xs)
              | Obj i =>
                  n <- get i ;;
                  if is_group n then new_group Statement (sql.tokens n)
                  else raise TypeError
              end ;;
        ret (rev r ++ [Obj st])
    end).

(** One round of the loop of [process] over the stream. *)
Definition process_token (self : splitter) (tv : ttype * string) : M splitter :=
  let '(ty, value) := tv in
  let '(csl, self) := _change_splitlevel self ty value in
  let self := set_level self (level self + csl) in
  if csl =? 1 then
    self <- add_new_token_array_at self (level self) ;;
    tok <- new_Token ty value ;;
    append_token_at_depth self (level self) tok
  else if csl =? -1 then
    tok <- new_Token ty value ;;
    self <- append_token_at_depth self (level self + 1) tok ;;
    process_list_at_depth self (level self + 1)
  else
    tok <- new_Token ty value ;;
    append_token_at_depth self (level self) tok.

Fixpoint process_stream (self : splitter) (stream : list (ttype * string))
  : M splitter :=
  match stream with
  | [] => ret self
  | tv :: r => self <- process_token self tv ;; process_stream self r
  end.

(** [while self.level > 0: self.level += -1;
    self.process_list_at_depth(self.level + 1)] *)
Fixpoint drain (fuel : nat) (self : splitter) : M splitter :=
  if 0 <? level self then
    match fuel with
    | O => raise OutOfFuel
    | S fuel' =>
        let self := set_level self (level self - 1) in
        self <- process_list_at_depth self (level self + 1) ;;
        drain fuel' self
    end
  else ret self.

(** [StatementSplitter.process(self, stream)]: the statements the generator
    yields, in order, and the splitter afterwards. *)
Definition process (self : splitter) (stream : list (ttype * string))
  : M (list nat * splitter) :=
  self <- process_stream self stream ;;
  self <- drain (Z.to_nat (level self)) self ;;
  match tokens self with
  | [] => ret ([], self)
  | _ => st <- TokenList__init__ Statement (Some (tokens self)) ;;
         ret ([st], self)
  end.

End Splitter.

End StatementSplitter.

(** * [sqlparse/engine/grouping_class.py] *)

Module grouping.

Import sql.

(** ** Loops *)

(** [while cond: body]: [body] returns the next loop state, or [None] when
    the loop is left; every round uses one unit of fuel. *)
Fixpoint while_ {St : Type} (fuel : nat) (body : St -> M (option St)) (s : St)
  : M unit :=
  match fuel with
  | O => raise OutOfFuel
  | S fuel' =>
      r <- body s ;;
      match r with
      | None => ret tt
      | Some s' => while_ fuel' body s'
      end
  end.

(** [for x in l: body] over a list fixed when the loop starts, threading
    the local variables the body assigns. *)
Fixpoint fold_m {A St : Type} (l : list A) (body : St -> A -> M St) (s : St)
  : M St :=
  match l with
  | [] => ret s
  | x :: r => s' <- body s x ;; fold_m r body s'
  end.

(** [for k, x in enumerate(obj.tokens): body], over the LIVE list of the
    object: each round reads the list again. *)
Fixpoint for_live (fuel : nat) (self : nat) (k : nat) (body : Z -> nat -> M unit)
  : M unit :=
  match fuel with
  | O => raise OutOfFuel
  | S fuel' =>
      s <- get self ;;
      match nth_error (tokens s) k with
      | None => ret tt
      | Some t => body (Z.of_nat k) t ;;; for_live fuel' self (S k) body
      end
  end.

(** Modelled from the spec: the decorator [utils.recurse], which is not
    among the sources: the pass descends into every child group that is
    not already of one of the classes [skip], then runs on the list
    itself. *)
Fixpoint recurse (fuel : nat) (skip : list cls) (f : nat -> M unit) (tlist : nat)
  : M unit :=
  match fuel with
  | O => raise OutOfFuel
  | S fuel' =>
      for_live fuel' tlist 0 (fun _ sgroup =>
        n <- get sgroup ;;
        if is_group n && negb (isinstance n skip)
        then recurse fuel' skip f sgroup
        else ret tt) ;;;
      f tlist
  end.

(** ** Bracketed matchers *)

(** The body of the loop of [_group_matching], for the token [token] at
    the index [idx] of the copy; [opens] is the stack of open indices, its
    top first, and [self_] the recursive call. *)
Definition _group_matching_body (self_ : nat -> M unit) (tlist : nat) (c : cls)
           (st : list Z * Z) (it : Z * nat) : M (list Z * Z) :=
  let '(opens, tidx_offset) := st in
  let '(idx, token) := it in
  let tidx := idx - tidx_offset in
  tk <- get token ;;
  if is_whitespace tk then ret st
  else if is_group tk && negb (isinstance tk [c]) then
    self_ token ;;; ret st
  else
    mo <- lift (M_OPEN c) ;;
    is_open <- lift (match_star tk mo) ;;
    if is_open then ret (tidx :: opens, tidx_offset)
    else
      mc <- lift (M_CLOSE c) ;;
      is_close <- lift (match_star tk mc) ;;
      if is_close then
        match opens with
        | [] => ret st
        | open_idx :: opens' =>
            let close_idx := tidx in
            group_tokens tlist c (Some open_idx) (Some close_idx) true false ;;;
            ret (opens', tidx_offset + (close_idx - open_idx))
        end
      else ret st.

(** [grouping._group_matching(self, tlist, cls)]: groups tokens that have
    a beginning and an end; the loop runs over [list(tlist)], a copy. *)
Fixpoint _group_matching (fuel : nat) (tlist : nat) (c : cls) : M unit :=
  match fuel with
  | O => raise OutOfFuel
  | S fuel' =>
      tl <- get tlist ;;
      fold_m (enumerate_from 0 (tokens tl))
             (_group_matching_body (fun token => _group_matching fuel' token c)
                                   tlist c)
             ([], 0) ;;;
      ret tt
  end.

Definition group_brackets (fuel : nat) (tlist : nat) : M unit :=
  _group_matching fuel tlist SquareBrackets.
Definition group_parenthesis (fuel : nat) (tlist : nat) : M unit :=
  _group_matching fuel tlist Parenthesis.
Definition group_openlooptag (fuel : nat) (tlist : nat) : M unit :=
  _group_matching fuel tlist OpenLoopTag.
Definition group_case (fuel : nat) (tlist : nat) : M unit :=
  _group_matching fuel tlist Case.
Definition group_if (fuel : nat) (tlist : nat) : M unit :=
  _group_matching fuel tlist If.
Definition group_dml (fuel : nat) (tlist : nat) : M unit :=
  _group_matching fuel tlist DML_Operation.
Definition group_begin (fuel : nat) (tlist : nat) : M unit :=
  _group_matching fuel tlist Begin.
Definition group_exit (fuel : nat) (tlist : nat) : M unit :=
  _group_matching fuel tlist Exit.
Definition group_open (fuel : nat) (tlist : nat) : M unit :=
  _group_matching fuel tlist Open.

(** [a - b] where [a] may be [None]. *)
Definition sub_opt (a : option Z) (b : Z) : M Z :=
  match a with
  | Some x => ret (x - b)
  | None => raise TypeError
  end.

(** [grouping.group_select(self, tlist)] *)
Fixpoint group_select (fuel : nat) (tlist : nat) : M unit :=
  match fuel with
  | O => raise OutOfFuel
  | S fuel' =>
      tl <- get tlist ;;
      st <- fold_m (enumerate_from 0 (tokens tl))
        (fun (st : list Z * Z) (it : Z * nat) =>
           let '(opens, tidx_offset) := st in
           let '(idx, token) := it in
           let tidx := idx - tidx_offset in
           tk <- get token ;;
           if is_whitespace tk then ret st
           else if is_group tk && negb (isinstance tk [Select]) then
             group_select fuel' token ;;; ret st
           else
             mo <- lift (tuple (M_OPEN Select)) ;;
             if match_spec tk mo then ret (tidx :: opens, tidx_offset)
             else
               match find (match_spec tk) Select_M_CLOSE with
               | None => ret st
               | Some matcher =>
                   match opens with
                   | [] => ret st
                   | open_idx :: opens' =>
                       let u := upper (hd "" (m_values matcher)) in
                       close_idx <-
                         (if (u =s? "UNION") || (u =s? "UNION ALL")
                          then r <- rd (fun h => token_prev h tlist (Some tidx) true true) ;;
                               ret (fst r)
                          else ret (Some tidx)) ;;
                       group_tokens tlist Select (Some open_idx) close_idx true false ;;;
                       d <- sub_opt close_idx open_idx ;;
                       ret (opens', tidx_offset + d)
                   end
               end)
        ([], 0) ;;
      tl <- get tlist ;;
      match fst st with
      | [o] =>
          if isinstance tl [Parenthesis]
          then group_tokens tlist Select (Some o) (Some (len (tokens tl) - 2)) true false ;;; ret tt
          else ret tt
      | _ => ret tt
      end
  end.

(** [grouping.group_for(self, tlist)] *)
Fixpoint group_for (fuel : nat) (tlist : nat) : M unit :=
  match fuel with
  | O => raise OutOfFuel
  | S fuel' =>
      tl <- get tlist ;;
      fold_m (enumerate_from 0 (tokens tl))
        (fun (st : list Z * Z * bool) (it : Z * nat) =>
           let '(opens, tidx_offset, in_for) := st in
           let '(idx, token) := it in
           let tidx := idx - tidx_offset in
           tk <- get token ;;
           if is_whitespace tk then ret st
           else if is_group tk && negb (isinstance tk [For]) then
             group_for fuel' token ;;; ret st
           else
             if existsb (match_spec tk) For_M_OPEN then
               if ttype_is (ttype_ tk) T.ForIn then ret (tidx :: opens, tidx_offset, true)
               else if negb in_for then ret (tidx :: opens, tidx_offset, in_for)
               else ret (opens, tidx_offset, false)
             else
               mc <- lift (tuple (M_CLOSE For)) ;;
               if match_spec tk mc then
                 match opens with
                 | [] => ret st
                 | open_idx :: opens' =>
                     let close_idx := tidx in
                     group_tokens tlist For (Some open_idx) (Some close_idx) true false ;;;
                     ret (opens', tidx_offset + (close_idx - open_idx), in_for)
                 end
               else ret st)
        ([], 0, false) ;;;
      ret tt
  end.

(** ** Middle-joined matchers *)

Definition T_NUMERICAL : list ttype := [T.Number; T.Number_Integer; T.Number_Float].
Definition T_STRING : list ttype := [T.String_; T.String_Single; T.String_Symbol].
Definition T_NAME : list ttype := [T.Name; T.Name_Placeholder].

(** [a - b] where either may be [None]. *)
Definition sub_opt2 (a b : option Z) : M Z :=
  match a, b with
  | Some x, Some y => ret (x - y)
  | _, _ => raise TypeError
  end.

(** [grouping._group(self, tlist, cls, match, valid_prev, valid_next, post,
    extend, recurse)]: groups together tokens that are joined by a middle
    token.  [prev_] is only handed to [valid_prev] when it is not [None];
    the recursive call leaves [recurse] at its default. *)
Fixpoint _group (fuel : nat) (tlist : nat) (c : cls)
         (match_tok : node -> bool) (valid_prev : node -> bool)
         (valid_next : option node -> bool)
         (post : nat -> option Z -> Z -> option Z -> M (option Z * option Z))
         (extend recurse_ : bool) : M unit :=
  match fuel with
  | O => raise OutOfFuel
  | S fuel' =>
      tl <- get tlist ;;
      fold_m (enumerate_from 0 (tokens tl))
        (fun (st : Z * option Z * option nat) (it : Z * nat) =>
           let '(tidx_offset, pidx, prev_) := st in
           let '(idx, token) := it in
           let tidx := idx - tidx_offset in
           tk <- get token ;;
           if is_whitespace tk then ret st
           else
             (if recurse_ && is_group tk && negb (isinstance tk [c])
              then _group fuel' token c match_tok valid_prev valid_next post extend true
              else ret tt) ;;;
             tk <- get token ;;
             let plain := ret (tidx_offset, Some tidx, Some token) in
             if match_tok tk then
               '(nidx, next_) <- rd (fun h => token_next h tlist (Some tidx) true false false) ;;
               next_n <- match next_ with
                         | Some n => x <- get n ;; ret (Some x)
                         | None => ret None
                         end ;;
               ok <- match prev_ with
                     | None => ret false
                     | Some p => pn <- get p ;; ret (valid_prev pn && valid_next next_n)
                     end ;;
               if (ok : bool) then
                 '(from_idx, to_idx) <- post tlist pidx tidx nidx ;;
                 grp <- group_tokens tlist c from_idx to_idx true extend ;;
                 d <- sub_opt2 to_idx from_idx ;;
                 ret (tidx_offset + d, from_idx, Some grp)
               else plain
             else plain)
        (0, None, None) ;;;
      ret tt
  end.

(** [grouping.group_typecasts] *)
Definition group_typecasts (fuel : nat) (tlist : nat) : M unit :=
  _group fuel tlist Identifier
    (fun token => match_ token T.Punctuation (Some ["::"]) false false)
    (fun _ => true)
    (fun token => match token with Some _ => true | None => false end)
    (fun _ pidx _ nidx => ret (pidx, nidx))
    true true.

(** [grouping.group_period] *)
Definition group_period (fuel : nat) (tlist : nat) : M unit :=
  _group fuel tlist Identifier
    (fun token => match_ token T.Punctuation (Some ["."]) false false)
    (fun token => imt (Some token) [SquareBrackets; Identifier; Function]
                      [] [T.Name; T.String_Symbol])
    (fun _ => true)
    (fun tlist pidx tidx nidx =>
       next_ <- match nidx with
                | Some n => tl <- get tlist ;;
                            x <- lift (py_index (tokens tl) n) ;;
                            xn <- get x ;; ret (Some xn)
                | None => ret None
                end ;;
       let valid_next := imt next_ [SquareBrackets; Function] []
                             [T.Name; T.String_Symbol; T.Wildcard] in
       ret (if valid_next then (pidx, nidx) else (pidx, Some tidx)))
    true true.

(** [grouping.group_as] *)
Definition group_as (fuel : nat) (tlist : nat) : M unit :=
  _group fuel tlist Identifier
    (fun token => is_keyword token && (normalized token =s? "AS"))
    (fun token => ((normalized token =s? "NULL") || negb (is_keyword token))
                  && negb (isinstance token [FunctionHeading]))
    (fun token => negb (imt token [] [] [T.DML; T.DDL])
                  && match token with Some _ => true | None => false end)
    (fun _ pidx _ nidx => ret (pidx, nidx))
    true true.

(** [grouping.group_assignment] *)
Definition group_assignment (fuel : nat) (tlist : nat) : M unit :=
  _group fuel tlist Assignment
    (fun token => match_ token T.Assignment (Some [":="]) false false)
    (fun _ => true)
    (fun token => match token with Some _ => true | None => false end)
    (fun tlist pidx _ nidx =>
       '(snidx, _) <- rd (fun h => token_next_by h tlist [] [m2 T.Punctuation [";"]] [] nidx None) ;;
       match snidx with
       | Some k => if k =? 0 then ret (pidx, nidx) else ret (pidx, Some (k - 1))
       | None => ret (pidx, nidx)
       end)
    true true.

(** [grouping.group_comparison]; the tuple [ttypes] ends with the names of
    [T.Keyword], which no token type equals, and a keyword is valid by the
    second test. *)
Definition group_comparison (fuel : nat) (tlist : nat) : M unit :=
  let valid := fun token : option node =>
    if imt token [Parenthesis; Function; Identifier; Operation] []
           (T_NUMERICAL ++ T_STRING ++ T_NAME)
    then true
    else match token with
         | Some tk => is_keyword tk
         | None => false
         end in
  _group fuel tlist Comparison
    (fun token => ttype_is (ttype_ token) T.Operator_Comparison)
    (fun token => valid (Some token))
    valid
    (fun _ pidx _ nidx => ret (pidx, nidx))
    false true.

(** [grouping.group_arrays] *)
Definition group_arrays (fuel : nat) (tlist : nat) : M unit :=
  _group fuel tlist Identifier
    (fun token => isinstance token [SquareBrackets])
    (fun token => imt (Some token) [SquareBrackets; Identifier; Function]
                      [] [T.Name; T.String_Symbol])
    (fun _ => true)
    (fun _ pidx tidx _ => ret (pidx, Some tidx))
    true false.

(** [grouping.group_operator]; [post] retags the operator token. *)
Definition group_operator (fuel : nat) (tlist : nat) : M unit :=
  let valid := fun token : option node =>
    imt token [SquareBrackets; Parenthesis; Function; Identifier; Operation] []
        (T_NUMERICAL ++ T_STRING ++ T_NAME) in
  _group fuel tlist Operation
    (fun token => imt (Some token) [] [] [T.Operator; T.Wildcard])
    (fun token => valid (Some token))
    valid
    (fun tlist pidx tidx nidx =>
       tl <- get tlist ;;
       x <- lift (py_index (tokens tl) tidx) ;;
       setattr x (fun n => set_ttype n (Some T.Operator)) ;;;
       ret (pidx, nidx))
    false true.

(** [grouping.group_identifier_list] *)
Definition group_identifier_list (fuel : nat) (tlist : nat) : M unit :=
  let valid := fun token : option node =>
    imt token [Function; Case; Identifier; Comparison; IdentifierList;
               Operation; FunctionParam]
        [m2 T.Keyword ["null"; "role"]]
        (T_NUMERICAL ++ T_STRING ++ T_NAME ++ [T.Keyword; T.Comment; T.Wildcard]) in
  _group fuel tlist IdentifierList
    (fun token => match_ token T.Punctuation (Some [","]) false false)
    (fun token => valid (Some token))
    valid
    (fun _ pidx _ nidx => ret (pidx, nidx))
    true true.

(** ** Scanning passes *)

(** The loop [while token: ...; tidx, token = ...] over the pair an
    index-returning scan gives. *)
Definition while_token (fuel : nat)
           (first : M (option Z * option nat))
           (body : option Z -> nat -> M (option Z * option nat)) : M unit :=
  s <- first ;;
  while_ fuel (fun st : option Z * option nat =>
                 match snd st with
                 | None => ret None
                 | Some token => r <- body (fst st) token ;; ret (Some r)
                 end) s.

(** [grouping.group_identifier], under [@recurse(sql.Identifier)] *)
Definition group_identifier (fuel : nat) (tlist : nat) : M unit :=
  recurse fuel [Identifier] (fun tlist =>
    let ttypes := [T.String_Symbol; T.Name] in
    while_token fuel
      (rd (fun h => token_next_by h tlist [] [] ttypes (Some (-1)) None))
      (fun tidx _ =>
         group_tokens tlist Identifier tidx tidx true false ;;;
         rd (fun h => token_next_by h tlist [] [] ttypes tidx None))) tlist.

(** [grouping.group_comments], under [@recurse(sql.Comment)] *)
Definition group_comments (fuel : nat) (tlist : nat) : M unit :=
  recurse fuel [Comment] (fun tlist =>
    while_token fuel
      (rd (fun h => token_next_by h tlist [] [] [T.Comment] (Some (-1)) None))
      (fun tidx _ =>
         match tidx with
         | None => raise TypeError
         | Some ti =>
             '(eidx, end_) <- rd (fun h => token_not_matching h tlist
                 (fun tk => imt (Some tk) [] [] [T.Comment] || is_whitespace tk) ti) ;;
             match end_ with
             | Some _ =>
                 '(eidx, _) <- rd (fun h => token_prev h tlist eidx false false) ;;
                 group_tokens tlist Comment tidx eidx true false ;;; ret tt
             | None => ret tt
             end ;;;
             rd (fun h => token_next_by h tlist [] [] [T.Comment] tidx None)
         end)) tlist.

(** The scans, run on the current heap. *)
Definition tnb (tlist : nat) (i : list cls) (m : list mspec) (t : list ttype)
           (idx : option Z) : M (option Z * option nat) :=
  rd (fun h => token_next_by h tlist i m t idx None).
Definition tnx (tlist : nat) (idx : option Z) (skip_ws skip_cm : bool)
  : M (option Z * option nat) :=
  rd (fun h => token_next h tlist idx skip_ws skip_cm false).
Definition tpv (tlist : nat) (idx : option Z) (skip_ws skip_cm : bool)
  : M (option Z * option nat) :=
  rd (fun h => token_prev h tlist idx skip_ws skip_cm).

(** The object behind a reference that may be [None]. *)
Definition getopt (o : option nat) : M (option node) :=
  match o with
  | Some i => n <- get i ;; ret (Some n)
  | None => ret None
  end.

(** [tok.attr] on a reference that may be [None]. *)
Definition attr {A} (o : option nat) (f : node -> A) : M A :=
  match o with
  | Some i => n <- get i ;; ret (f n)
  | None => raise AttributeError
  end.

(** [isinstance(x, classes)] on a reference that may be [None]. *)
Definition isinst (o : option nat) (classes : list cls) : M bool :=
  n <- getopt o ;;
  ret (match n with Some tk => isinstance tk classes | None => false end).

Definition is_IS_or_AS (v : string) : bool :=
  (upper v =s? "IS") || (upper v =s? "AS").

(** [grouping._internal_fun_proc_grouping(self, tlist, _nidx)] *)
Fixpoint _internal_fun_proc_grouping (fuel : nat) (tlist : nat) (_nidx : option Z)
  : M bool :=
  match fuel with
  | O => raise OutOfFuel
  | S fuel' =>
      let block (heading_id : option Z) (c : cls) : M bool :=
        '(_nidx, _next) <- tnx tlist heading_id true true ;;
        v <- attr _next value ;;
        if is_IS_or_AS v then
          _internal_fun_proc_grouping fuel' tlist _nidx ;;;
          '(bid, token) <- tnb tlist [Begin] [] [] _nidx ;;
          match token with
          | Some _ =>
              '(end_, _) <- tnx tlist bid true true ;;
              group_tokens tlist c heading_id end_ true false ;;;
              ret true
          | None => ret false
          end
        else ret false in
      '(bid, btoken) <- tnb tlist [Begin] [] [] _nidx ;;
      match btoken, bid, _nidx with
      | Some _, Some bid, Some ni =>
          '(ph_temp_id, ph_temp_tk) <- tnb tlist [ProcedureHeading] [] [] _nidx ;;
          '(fh_temp_id, fh_temp_tk) <- tnb tlist [FunctionHeading] [] [] _nidx ;;
          match ph_temp_tk, ph_temp_id, fh_temp_tk, fh_temp_id with
          | Some _, Some ph, Some _, Some fh =>
              if (ph <? bid) && (fh <? bid) then
                let diff_ph := ph - ni in
                let diff_fh := fh - ni in
                if diff_ph <? diff_fh then block (Some ph) ProcedureBlock
                else if diff_fh <? diff_ph then block (Some fh) FunctionBlock
                else ret false
              else if ph <? bid then block (Some ph) ProcedureBlock
              else if fh <? bid then block (Some fh) FunctionBlock
              else ret false
          | Some _, Some ph, _, _ =>
              if ph <? bid then block (Some ph) ProcedureBlock else ret false
          | _, _, Some _, Some fh =>
              if fh <? bid then block (Some fh) FunctionBlock else ret false
          | _, _, _, _ => ret false
          end
      | _, _, _ => ret false
      end
  end.

(** [while self._internal_fun_proc_grouping(tlist, _nidx): continue] *)
Definition internal_loop (fuel : nat) (tlist : nat) (_nidx : option Z) : M unit :=
  while_ fuel (fun _ : unit =>
                 b <- _internal_fun_proc_grouping fuel tlist _nidx ;;
                 ret (if b then Some tt else None)) tt.

(** [grouping.group_function_block], under [@recurse(sql.FunctionBlock)] *)
Definition group_function_block (fuel : nat) (tlist : nat) : M unit :=
  recurse fuel [FunctionBlock] (fun tlist =>
    while_token fuel (tnb tlist [FunctionHeading] [] [] (Some (-1)))
      (fun start _ =>
         '(_nidx, _next) <- tnx tlist start true true ;;
         nn <- getopt _next ;;
         (if match nn with Some n => is_IS_or_AS (value n) | None => false end then
            internal_loop fuel tlist _nidx ;;;
            '(bid, btoken) <- tnb tlist [Begin] [] [] _nidx ;;
            match btoken with
            | Some _ =>
                '(end_, etoken) <- tnx tlist bid true true ;;
                match etoken with
                | Some _ => group_tokens tlist FunctionBlock start end_ true false ;;; ret tt
                | None => group_tokens tlist FunctionBlock start bid true false ;;; ret tt
                end
            | None => ret tt
            end
          else ret tt) ;;;
         tnb tlist [FunctionHeading] [] [] start)) tlist.

(** [grouping.group_procedure_block], under [@recurse(sql.ProcedureBlock)] *)
Definition group_procedure_block (fuel : nat) (tlist : nat) : M unit :=
  recurse fuel [ProcedureBlock] (fun tlist =>
    while_token fuel (tnb tlist [ProcedureHeading] [] [] (Some (-1)))
      (fun start _ =>
         '(_nidx, _next) <- tnx tlist start true true ;;
         nn <- getopt _next ;;
         (if match nn with Some n => is_IS_or_AS (value n) | None => false end then
            internal_loop fuel tlist _nidx ;;;
            '(bid, btoken) <- tnb tlist [Begin] [] [] _nidx ;;
            match btoken with
            | Some _ =>
                '(end_, etoken) <- tnx tlist bid true true ;;
                match etoken with
                | Some _ =>
                    '(send, stoken) <- tnx tlist end_ true true ;;
                    v <- attr stoken value ;;
                    if v =s? ";"
                    then group_tokens tlist ProcedureBlock start send true false ;;; ret tt
                    else group_tokens tlist ProcedureBlock start end_ true false ;;; ret tt
                | None => group_tokens tlist ProcedureBlock start bid true false ;;; ret tt
                end
            | None => ret tt
            end
          else ret tt) ;;;
         tnb tlist [ProcedureHeading] [] [] start)) tlist.

(** [grouping.group_function_params], under [@recurse(sql.FunctionParam)] *)
Definition group_function_params (fuel : nat) (tlist : nat) : M unit :=
  recurse fuel [FunctionParam] (fun tlist =>
    while_token fuel (tnb tlist [Function] [] [] (Some (-1)))
      (fun funidx functkn =>
         '(_, prntkn) <- tnb functkn [Parenthesis] [] [] (Some (-1)) ;;
         match prntkn with
         | None => ret tt
         | Some prntkn =>
             mo <- lift (tuple (M_OPEN Parenthesis)) ;;
             mc <- lift (tuple (M_CLOSE Parenthesis)) ;;
             '(oidx, _) <- tnb prntkn [] [mo] [] (Some (-1)) ;;
             '(start, _) <- tnx prntkn oidx true true ;;
             '(end_, param) <- tnb prntkn [] [FunctionParam_SEPARATOR] [] (Some (-1)) ;;
             let last (start : option Z) : M unit :=
               '(cidx, _) <- tnb prntkn [] [mc] [] (Some (-1)) ;;
               '(end_, _) <- tpv prntkn cidx true true ;;
               group_tokens prntkn FunctionParam start end_ true false ;;; ret tt in
             match param with
             | Some _ =>
                 r <- (fix go (fuel : nat) (start end_ : option Z) (param : option nat)
                       : M (option Z) :=
                         match param with
                         | None => ret start
                         | Some _ =>
                             match fuel with
                             | O => raise OutOfFuel
                             | S fuel' =>
                                 '(pe, _) <- tpv prntkn end_ true true ;;
                                 group_tokens prntkn FunctionParam start pe true false ;;;
                                 pi <- rd (fun h => token_index h prntkn param 0) ;;
                                 '(start, _) <- tnx prntkn (Some pi) true true ;;
                                 '(end_, param) <- tnb prntkn [] [FunctionParam_SEPARATOR] [] start ;;
                                 go fuel' start end_ param
                             end
                         end) fuel start end_ param ;;
                 last r
             | None => last start
             end
         end ;;;
         tnb tlist [Function] [] [] funidx)) tlist.

(** [grouping.group_declare_section], under [@recurse(sql.DeclareSection)] *)
Definition group_declare_section (fuel : nat) (tlist : nat) : M unit :=
  recurse fuel [DeclareSection] (fun tlist =>
    while_token fuel (tnb tlist [FunctionBlock; ProcedureBlock] [] [] (Some (-1)))
      (fun funidx functkn =>
         mo <- lift (tuple (M_OPEN DeclareSection)) ;;
         '(sidx, stkn) <- tnb functkn [] [mo] [] (Some (-1)) ;;
         match stkn with
         | Some _ =>
             '(bid, btkn) <- tnb functkn [Begin] [] [] (Some (-1)) ;;
             match sidx, bid with
             | Some si, Some bi =>
                 if si + 2 <=? bi - 2 then
                   '(nid, next_) <- tnx functkn sidx true true ;;
                   if match next_, btkn with
                      | Some a, Some b => (a =? b)%nat
                      | None, None => true
                      | _, _ => false
                      end
                   then ret tt
                   else group_tokens functkn DeclareSection nid (Some (bi - 2)) true false ;;; ret tt
                 else ret tt
             | _, _ => raise TypeError
             end
         | None => ret tt
         end ;;;
         tnb tlist [FunctionBlock; ProcedureBlock] [] [] funidx)) tlist.

(** [grouping.group_where], under [@recurse(sql.Where)] *)
Definition group_where (fuel : nat) (tlist : nat) : M unit :=
  recurse fuel [Where] (fun tlist =>
    mc <- lift (tuple (M_CLOSE Where)) ;;
    while_token fuel (tnb tlist [] [Where_M_OPEN] [] (Some (-1)))
      (fun tidx _ =>
         '(eidx, end_) <- tnb tlist [] [mc] [] tidx ;;
         end_ <- match end_, eidx with
                 | Some _, Some e =>
                     tl <- get tlist ;; lift (py_index (tokens tl) (e - 1))
                 | _, _ =>
                     rd (fun h => py_index (_groupable_tokens h tlist) (-1))
                 end ;;
         eidx <- rd (fun h => token_index h tlist (Some end_) 0) ;;
         group_tokens tlist Where tidx (Some eidx) true false ;;;
         tnb tlist [] [Where_M_OPEN] [] tidx)) tlist.

(** [grouping.group_union], under [@recurse(sql.Union)] *)
Definition group_union (fuel : nat) (tlist : nat) : M unit :=
  recurse fuel [Union] (fun tlist =>
    while_token fuel (tnb tlist [] [Union_M_DIVIDER] [] (Some (-1)))
      (fun tidx _ =>
         '(pid, ptk) <- tpv tlist tidx true true ;;
         '(nid, _) <- tnx tlist tidx true true ;;
         extend <- isinst ptk [Union] ;;
         g <- group_tokens tlist Union pid nid true extend ;;
         gi <- rd (fun h => token_index h tlist (Some g) 0) ;;
         tnb tlist [] [Union_M_DIVIDER] [] (Some gi))) tlist.

(** [grouping.group_aliased], under [@recurse()] *)
Definition group_aliased (fuel : nat) (tlist : nat) : M unit :=
  let I_ALIAS := [Parenthesis; Function; Case; Identifier; Operation; Comparison] in
  recurse fuel [] (fun tlist =>
    while_token fuel (tnb tlist I_ALIAS [] [T.Number] (Some (-1)))
      (fun tidx _ =>
         '(nidx, next_) <- tnx tlist tidx true false ;;
         b <- isinst next_ [Identifier] ;;
         (if (b : bool) then group_tokens tlist Identifier tidx nidx true true ;;; ret tt
          else ret tt) ;;;
         tnb tlist I_ALIAS [] [T.Number] tidx)) tlist.

(** [grouping.group_functions], under [@recurse(sql.Function)] *)
Definition group_functions (fuel : nat) (tlist : nat) : M unit :=
  recurse fuel [Function] (fun tlist =>
    while_token fuel (tnb tlist [] [] [T.Name] (Some (-1)))
      (fun tidx _ =>
         '(nidx, next_) <- tnx tlist tidx true false ;;
         b <- isinst next_ [Parenthesis] ;;
         (if (b : bool) then group_tokens tlist Function tidx nidx true false ;;; ret tt
          else ret tt) ;;;
         tnb tlist [] [] [T.Name] tidx)) tlist.

(** [grouping.group_procedure_heading], under
    [@recurse(sql.ProcedureHeading)]; the token after [PROCEDURE] and the
    one after the name are dereferenced without a test for [None]. *)
Definition group_procedure_heading (fuel : nat) (tlist : nat) : M unit :=
  recurse fuel [ProcedureHeading] (fun tlist =>
    mo <- lift (tuple (M_OPEN ProcedureHeading)) ;;
    while_token fuel (tnb tlist [] [mo] [] (Some (-1)))
      (fun proid _ =>
         '(tidx, token) <- tnx tlist proid true true ;;
         ty <- attr token ttype_ ;;
         (if ttype_is ty T.Name then
            '(nidx, next_) <- tnx tlist tidx true false ;;
            b <- isinst next_ [Parenthesis] ;;
            if (b : bool) then
              group_tokens tlist ProcedureHeading proid nidx true false ;;; ret tt
            else
              v <- attr next_ value ;;
              if is_IS_or_AS v then
                group_tokens tlist ProcedureHeading proid tidx true false ;;; ret tt
              else ret tt
          else ret tt) ;;;
         tnb tlist [] [mo] [] proid)) tlist.

(** [grouping.group_function_heading], under
    [@recurse(sql.FunctionHeading)] *)
Definition group_function_heading (fuel : nat) (tlist : nat) : M unit :=
  recurse fuel [FunctionHeading] (fun tlist =>
    mo <- lift (tuple (M_OPEN FunctionHeading)) ;;
    while_token fuel (tnb tlist [] [mo] [] (Some (-1)))
      (fun proid _ =>
         '(tidx, nto) <- tnx tlist proid true true ;;
         nn <- getopt nto ;;
         (if match nn with Some n => ttype_is (ttype_ n) T.Name | None => false end then
            '(nidx, next_) <- tnx tlist tidx true false ;;
            b <- isinst next_ [Parenthesis] ;;
            '(nidx, next_) <- (if (b : bool) then tnx tlist nidx true true
                               else ret (nidx, next_)) ;;
            '(cnidx, cnext_) <- tnb tlist [] FunctionHeading_M_CLOSE [] nidx ;;
            match cnext_, cnidx with
            | Some _, Some ci =>
                group_tokens tlist FunctionHeading proid (Some (ci - 1)) true false ;;; ret tt
            | _, _ =>
                par <- attr next_ parent ;;
                b <- isinst par [Parenthesis] ;;
                if (b : bool) then
                  n <- attr par tokens ;;
                  group_tokens tlist FunctionHeading proid (Some (len n - 2)) true false ;;; ret tt
                else ret tt
            end
          else ret tt) ;;;
         tnb tlist [] [mo] [] proid)) tlist.

(** [grouping.group_function_return_type], under
    [@recurse(sql.ReturnType)] *)
Definition group_function_return_type (fuel : nat) (tlist : nat) : M unit :=
  recurse fuel [ReturnType] (fun tlist =>
    mo <- lift (tuple (M_OPEN ReturnType)) ;;
    while_token fuel (tnb tlist [FunctionHeading] [] [] (Some (-1)))
      (fun fhid fhtk =>
         '(rid, rtk) <- tnb fhtk [] [mo] [] (Some (-1)) ;;
         match rtk with
         | Some _ =>
             '(tid, _) <- tnx fhtk rid true false ;;
             group_tokens fhtk ReturnType rid tid true false ;;; ret tt
         | None => ret tt
         end ;;;
         tnb tlist [FunctionHeading] [] [] fhid)) tlist.

(** [grouping._flatter_statement_class] and
    [grouping._flatter_identifier_class], which differ in the class [c]:
    a group of class [c] with one child is popped from its parent and the
    child inserted in its place. *)
Fixpoint _flatter_class (c : cls) (fuel : nat) (stmt : nat) (stmid : option Z)
  : M unit :=
  match fuel with
  | O => raise OutOfFuel
  | S fuel' =>
      n <- get stmt ;;
      if isinstance n [c] && (len (tokens n) =? 1) then
        match parent n, stmid with
        | None, _ => raise AttributeError
        | Some _, None => raise TypeError
        | Some p, Some i =>
            pop p i ;;;
            n <- get stmt ;;
            par <- attr (Some stmt) parent ;;
            child <- lift (py_index (tokens n) 0) ;;
            match par with
            | None => raise AttributeError
            | Some p' => insert_before p' i child
            end ;;;
            n <- get stmt ;;
            child <- lift (py_index (tokens n) 0) ;;
            _flatter_class c fuel' child stmid
        end
      else if is_group n then
        for_live fuel' stmt 0 (fun sid stkn =>
          k <- get stkn ;;
          if isinstance k [c] then _flatter_class c fuel' stkn (Some sid)
          else if is_group k then _flatter_class c fuel' stkn (Some sid)
          else ret tt)
      else ret tt
  end.

Definition _flatter_statement_class := _flatter_class Statement.
Definition _flatter_identifier_class := _flatter_class Identifier.

(** [grouping.flatter_statement_class], under [@recurse(sql.Statement)] *)
Definition flatter_statement_class (fuel : nat) (tlist : nat) : M unit :=
  recurse fuel [Statement] (fun tlist =>
    while_token fuel (tnb tlist [Statement] [] [] (Some (-1)))
      (fun stmid stmt =>
         _flatter_statement_class fuel stmt stmid ;;;
         tnb tlist [Statement] [] [] stmid)) tlist.

(** [grouping.flatter_identifier_class], under [@recurse(sql.Identifier)] *)
Definition flatter_identifier_class (fuel : nat) (tlist : nat) : M unit :=
  recurse fuel [Identifier] (fun tlist =>
    while_token fuel (tnb tlist [Identifier] [] [] (Some (-1)))
      (fun stmid stmt =>
         _flatter_identifier_class fuel stmt stmid ;;;
         tnb tlist [Identifier] [] [] stmid)) tlist.

(** [grouping.group_order]: group together Identifier and Asc/Desc token *)
Definition group_order (fuel : nat) (tlist : nat) : M unit :=
  while_token fuel (tnb tlist [] [] [T.Keyword_Order] (Some (-1)))
    (fun tidx _ =>
       '(pidx, prev_) <- tpv tlist tidx true false ;;
       pn <- getopt prev_ ;;
       tidx <- (if imt pn [Identifier] [] [T.Number]
                then group_tokens tlist Identifier pidx tidx true false ;;; ret pidx
                else ret tidx) ;;
       tnb tlist [] [] [T.Keyword_Order] tidx).

(** [grouping.align_comments], under [@recurse()]: a comment group that
    follows a group is moved into that group, whatever its class
    ([extend=True] with [sql.TokenList]). *)
Definition align_comments (fuel : nat) (tlist : nat) : M unit :=
  recurse fuel [] (fun tlist =>
    while_token fuel (tnb tlist [Comment] [] [] (Some (-1)))
      (fun tidx _ =>
         '(pidx, prev_) <- tpv tlist tidx true false ;;
         b <- isinst prev_ [TokenList] ;;
         tidx <- (if (b : bool)
                  then group_tokens tlist TokenList pidx tidx true true ;;; ret pidx
                  else ret tidx) ;;
         tnb tlist [Comment] [] [] tidx)) tlist.

(** [grouping.group_cursor_def], under [@recurse(sql.CursorDef)] *)
Definition group_cursor_def (fuel : nat) (tlist : nat) : M unit :=
  recurse fuel [CursorDef] (fun tlist =>
    mo <- lift (tuple (M_OPEN CursorDef)) ;;
    while_token fuel (tnb tlist [] [mo] [] (Some (-1)))
      (fun tidx _ =>
         '(nid, ntk) <- tnx tlist tidx true false ;;
         b <- isinst ntk [Function] ;;
         b <- (if (b : bool) then ret true
               else ty <- attr ntk ttype_ ;; ret (ttype_is ty T.Name)) ;;
         (if (b : bool) then
            '(isid, _) <- tnb tlist [] [CursorDef_M_MIDDLE] [] nid ;;
            '(nidx, ntkn) <- tnx tlist isid true true ;;
            b <- isinst ntkn [Union; Select] ;;
            if (b : bool) then group_tokens tlist CursorDef tidx nidx true false ;;; ret tt
            else ret tt
          else ret tt) ;;;
         tnb tlist [] [mo] [] tidx)) tlist.

(** [grouping.group_package], under [@recurse(sql.Package)]; the body
    calls the decorated method again on every child group, so the
    decorator's descent is written out here. *)
Fixpoint group_package (fuel : nat) (tlist : nat) : M unit :=
  match fuel with
  | O => raise OutOfFuel
  | S fuel' =>
      for_live fuel' tlist 0 (fun _ sgroup =>
        n <- get sgroup ;;
        if is_group n && negb (isinstance n [Package])
        then group_package fuel' sgroup
        else ret tt) ;;;
      tl <- get tlist ;;
      mo <- lift (tuple (M_OPEN PackageHeading)) ;;
      mc <- lift (tuple (M_CLOSE PackageHeading)) ;;
      for_each (enumerate_from 0 (tokens tl)) (fun it =>
        let '(idx, token) := it in
        let tidx := idx - 0 in
        tk <- get token ;;
        if is_whitespace tk then ret tt
        else
          (if is_group tk && negb (isinstance tk [Package])
           then group_package fuel' token else ret tt) ;;;
          tk <- get token ;;
          if negb (isinstance tk [Package]) && imt (Some tk) [] [mo] [] then
            '(iidx, itoken) <- tnb tlist [] [PackageHeading_M_NEXT] [] (Some tidx) ;;
            match itoken with
            | Some _ =>
                par <- attr (Some tlist) parent ;;
                match par with
                | None => raise AttributeError
                | Some p =>
                    last <- rd (fun h => token_last h p true true) ;;
                    li <- rd (fun h => token_index h p last 0) ;;
                    group_tokens p Statement (Some 0) (Some li) true true ;;;
                    '(aidx, _) <- tnb tlist [] [mc] [] (Some (-1)) ;;
                    group_tokens tlist PackageHeading iidx aidx true false ;;;
                    tl <- get tlist ;;
                    group_tokens tlist Package (Some tidx) (Some (len (tokens tl))) true false ;;;
                    ret tt
                end
            | None => ret tt
            end
          else ret tt)
  end.

(** [grouping.group_exceptions]: on [EXCEPTION] the position is recorded,
    on the next [END] the span up to the token before it is grouped. *)
Fixpoint group_exceptions (fuel : nat) (tlist : nat) : M unit :=
  match fuel with
  | O => raise OutOfFuel
  | S fuel' =>
      tl <- get tlist ;;
      mo <- lift (tuple (M_OPEN Exceptions)) ;;
      mc <- lift (tuple (M_CLOSE Exceptions)) ;;
      fold_m (enumerate_from 0 (tokens tl))
        (fun (st : Z * option Z * option nat) (it : Z * nat) =>
           let '(tidx_offset, pidx, prev_) := st in
           let '(idx, token) := it in
           let tidx := idx - tidx_offset in
           tk <- get token ;;
           if is_whitespace tk then ret st
           else
             (if is_group tk && negb (isinstance tk [Exceptions])
              then group_exceptions fuel' token else ret tt) ;;;
             tk <- get token ;;
             if is_keyword tk && (match_spec tk mo || match_spec tk mc) then
               ok <- match prev_ with
                     | None => ret false
                     | Some p =>
                         pn <- get p ;;
                         ret ((is_keyword pn && match_spec pn mo)
                              && (is_keyword tk && match_spec tk mc))
                     end ;;
               if (ok : bool) then
                 let from_idx := pidx in
                 '(to_idx, _) <- tpv tlist (Some tidx) true true ;;
                 grp <- group_tokens tlist Exceptions from_idx to_idx true false ;;
                 d <- sub_opt2 to_idx from_idx ;;
                 ret (tidx_offset + d, from_idx, Some grp)
               else ret (tidx_offset, Some tidx, Some token)
             else ret st)
        (0, None, None) ;;;
      ret tt
  end.

(** [grouping.group(self, stmt)]: the passes, in their order. *)
Definition passes : list (nat -> nat -> M unit) :=
  [ group_comments;
    group_package;
    group_brackets;
    group_parenthesis;
    group_dml;
    group_select;
    group_case;
    group_openlooptag;
    group_if;
    group_for;
    group_begin;
    group_exit;
    group_procedure_heading;
    group_function_heading;
    group_function_return_type;
    group_functions;
    group_where;
    group_union;
    group_period;
    group_arrays;
    group_identifier;
    group_order;
    group_typecasts;
    group_operator;
    group_comparison;
    group_as;
    group_aliased;
    group_assignment;
    align_comments;
    group_function_params;
    group_identifier_list;
    flatter_statement_class;
    flatter_identifier_class;
    group_cursor_def;
    group_procedure_block;
    group_function_block;
    group_declare_section;
    group_exceptions;
    group_open ].

Definition group (fuel : nat) (stmt : nat) : M nat :=
  for_each passes (fun func => func fuel stmt) ;;;
  ret stmt.

End grouping.

(** * [sqlparse/engine/filter_stack.py] *)

Module FilterStack.

Import sql.

(** [FilterStack.run] with grouping enabled and no filters, on the token
    stream the lexer hands over: the statements it yields. *)
Definition run (fuel : nat) (stream : list (ttype * string)) : M (list nat) :=
  '(stmts, _) <- StatementSplitter.process T.ForIn StatementSplitter._reset stream ;;
  (fix go (l : list nat) : M (list nat) :=
     match l with
     | [] => ret []
     | stmt :: r => s <- grouping.group fuel stmt ;; rs <- go r ;; ret (s :: rs)
     end) stmts.

(** [FilterStack.run] without grouping ([split]): the splitter alone. *)
Definition run_flat (stream : list (ttype * string)) : M (list nat) :=
  '(stmts, _) <- StatementSplitter.process T.ForIn StatementSplitter._reset stream ;;
  ret stmts.

End FilterStack.

(** * The properties, as definitions *)

Module Props.

Import sql.
Import StatementSplitter.

(** ** The splitter's table of depth deltas, row by row *)

(** A row of the table: the keyword or pattern, the condition on the
    state, the change of depth and the update of the state. *)
Record row := mkRow {
  r_key : ttype -> string -> bool;
  r_cond : splitter -> bool;
  r_delta : Z;
  r_update : splitter -> splitter
}.

Definition kw_is (k : string) : ttype -> string -> bool :=
  fun _ unified => unified =s? k.
Definition always : splitter -> bool := fun _ => true.
Definition in_create_body (s : splitter) : bool :=
  _is_create s && (0 <? _begin_depth s).
Definition unchanged : splitter -> splitter := fun s => s.

(** The rows in the order of the table; [ForIn] is the token type of
    [FOR ... IN].  The first row whose keyword and condition hold applies. *)
Definition table (ForIn : ttype) : list row :=
  [ mkRow (fun ty u => ttype_eqb ty T.Keyword_DDL && (u =s? "CREATE OR REPLACE"))
          always 1 (fun s => set_is_create s true);
    mkRow (kw_is "DECLARE")
          (fun s => _is_create s && (_begin_depth s =? 0)) 1
          (fun s => set_in_declare s true);
    mkRow (kw_is "BEGIN") always 1
          (fun s => set_begin_depth s (_begin_depth s + 1));
    mkRow (kw_is "END") (fun s => 0 <? _in_case s) (-1)
          (fun s => set_in_case s (_in_case s - 1));
    mkRow (kw_is "END") always (-1)
          (fun s => set_begin_depth s (Z.max 0 (_begin_depth s - 1)));
    mkRow (fun ty u => startswith u "FOR" && ttype_eqb ty ForIn)
          in_create_body 1 (fun s => set_infor s true);
    mkRow (kw_is "LOOP") (fun s => in_create_body s && _infor s) 0
          (fun s => set_infor s false);
    mkRow (kw_is "LOOP") (fun s => in_create_body s && _inwhile s) 0
          (fun s => set_inwhile s false);
    mkRow (kw_is "LOOP") in_create_body 1 unchanged;
    mkRow (kw_is "CASE") always 1
          (fun s => set_in_case s (_in_case s + 1));
    mkRow (kw_is "IF") in_create_body 1 unchanged;
    mkRow (kw_is "WHILE") in_create_body 1 (fun s => set_inwhile s true);
    mkRow (kw_is "END CASE") always (-1)
          (fun s => set_in_case s (_in_case s - 1));
    mkRow (fun _ u => str_in u ["END IF"; "END WHILE"; "END LOOP"])
          always (-1) unchanged ].

(** What the table prescribes for a token: nothing unless the token type
    is in [Keyword]; the first applicable row; [0] for anything else. *)
Definition table_delta (ForIn : ttype) (s : splitter) (ty : ttype) (value : string)
  : Z * splitter :=
  if ttype_in (Some ty) T.Keyword then
    match find (fun r => r_key r ty (upper value) && r_cond r s) (table ForIn) with
    | Some r => (r_delta r, r_update r s)
    | None => (0, s)
    end
  else (0, s).

(** ** Token streams *)

(** Modelled from the spec: the lexer, which is not among the sources,
    hands over [(token_type, value)] pairs; these build the pairs of the
    streams used below. *)
Definition kw (s : string) : ttype * string := (T.Keyword, s).
Definition dml (s : string) : ttype * string := (T.Keyword_DML, s).
Definition ddl (s : string) : ttype * string := (T.Keyword_DDL, s).
Definition cte (s : string) : ttype * string := (T.Keyword_CTE, s).
Definition ws : ttype * string := (T.Whitespace, " ").
Definition punct (s : string) : ttype * string := (T.Punctuation, s).
Definition name (s : string) : ttype * string := (T.Name, s).
Definition builtin (s : string) : ttype * string := (T.Name_Builtin, s).
Definition int (s : string) : ttype * string := (T.Number_Integer, s).
Definition comment (s : string) : ttype * string := (T.Comment_Single, s).
Definition cmp (s : string) : ttype * string := (T.Operator_Comparison, s).
Definition wildcard : ttype * string := (T.Wildcard, "*").

(** The text of a stream. *)
Definition text_of (stream : list (ttype * string)) : string :=
  fold_right (fun tv acc => (snd tv ++ acc)%string) "" stream.

Definition varchar20 : list (ttype * string) :=
  [builtin "VARCHAR"; punct "("; int "20"; punct ")"].

(** The tokens of
    [CREATE FUNCTION a(x VARCHAR(20)) RETURNS VARCHAR(20) BEGIN DECLARE y
     VARCHAR(20); IF (1 = 1) THEN SET x = y; END IF; RETURN x; END;
     SELECT * FROM a.b;] *)
Definition stream_issue194 : list (ttype * string) :=
  [ddl "CREATE"; ws; kw "FUNCTION"; ws; name "a"; punct "("; name "x"; ws]
  ++ varchar20 ++ [punct ")"; ws; kw "RETURNS"; ws] ++ varchar20
  ++ [ws; kw "BEGIN"; ws; kw "DECLARE"; ws; name "y"; ws] ++ varchar20
  ++ [punct ";"; ws; kw "IF"; ws; punct "("; int "1"; ws; cmp "="; ws;
      int "1"; punct ")"; ws; kw "THEN"; ws; kw "SET"; ws; name "x"; ws;
      cmp "="; ws; name "y"; punct ";"; ws; kw "END IF"; punct ";"; ws;
      kw "RETURN"; ws; name "x"; punct ";"; ws; kw "END"; punct ";"; ws;
      dml "SELECT"; ws; wildcard; ws; kw "FROM"; ws; name "a"; punct ".";
      name "b"; punct ";"].

(** ** The tree below a node *)

(** The nodes of the tree below [i], [i] included. *)
Fixpoint nodes (fuel : nat) (h : heap) (i : nat) : list nat :=
  match fuel with
  | O => [i]
  | S fuel' => i :: flat_map (nodes fuel' h) (sql.tokens (deref h i))
  end.

(** The values of the leaves below a group, in order. *)
Definition leaves_text (h : heap) (i : nat) : res string :=
  match flatten (S (length h)) h i with
  | Ok l => Ok (join_values h l)
  | Raise e => Raise e
  end.

(** ** Balanced nests *)

Definition first_matches (h : heap) (i : nat) (m : res mspec) : bool :=
  match sql.tokens (deref h i), m with
  | t :: _, Ok m => match_spec (deref h t) m
  | _, _ => false
  end.

Definition last_matches (h : heap) (i : nat) (m : res mspec) : bool :=
  match rev (sql.tokens (deref h i)), m with
  | t :: _, Ok m => match_spec (deref h t) m
  | _, _ => false
  end.

(** A group of a bracketed class is delimited by its sentinels: the first
    child matches [M_OPEN], the last [M_CLOSE]; a [For] group ends with
    [END LOOP]. *)
Definition balanced (h : heap) (i : nat) : bool :=
  let c := class_ (deref h i) in
  if cls_beq c Parenthesis || cls_beq c SquareBrackets || cls_beq c Case
     || cls_beq c If || cls_beq c Begin
  then first_matches h i (tuple (M_OPEN c)) && last_matches h i (tuple (M_CLOSE c))
  else if cls_beq c For then last_matches h i (tuple (M_CLOSE For))
  else true.

Definition balanced_nests (fuel : nat) (h : heap) (root : nat) : bool :=
  forallb (balanced h) (nodes fuel h root).

(** ** The splitter's frames *)

(** The nested token frames of the splitter at depth [k]: [k] open raw
    lists, each the last element of the one before, and objects at
    addresses below [n] everywhere else. *)
Fixpoint frames (n : nat) (k : nat) (l : list pyval) : Prop :=
  match k with
  | O => exists ids, l = map Obj ids /\ forall i, In i ids -> (i < n)%nat
  | S k' =>
      exists ids last,
        l = map Obj ids ++ [PyList last]
        /\ (forall i, In i ids -> (i < n)%nat)
        /\ frames n k' last
  end.

(** ** Relating two heaps *)

(** Two objects that differ at most in [parent]. *)
Definition same_but_parent (a b : node) : Prop :=
  set_parent a None = set_parent b None.

(** [h'] is [h] with some [parent] slots assigned. *)
Definition parents_only (h h' : heap) : Prop :=
  length h' = length h /\ forall j, same_but_parent (deref h' j) (deref h j).

(** The slots that [match] and the class tests read: all but [parent] and
    [tokens]. *)
Definition attrs (n : node) : node := sql.set_tokens (set_parent n None) [].

(** The groups at the addresses from [n0] on hold only earlier objects:
    leaves, or groups from [n0] on. *)
Definition graded (h : heap) (n0 : nat) : Prop :=
  forall g, (n0 <= g < length h)%nat ->
  forall t, In t (sql.tokens (deref h g)) ->
    (t < g)%nat /\ (is_group (deref h t) = false \/ (n0 <= t)%nat).

(** A group of class [c] delimited by the sentinels [mo] and [mc]. *)
Definition delimited (h : heap) (g : nat) (c : cls) (mo mc : mspec) : Prop :=
  class_ (deref h g) = c
  /\ first_matches h g (Ok mo) = true
  /\ last_matches h g (Ok mc) = true.

(** The stack of open indices of [_group_matching]: decreasing from the
    top, below [bound], each the index in [cur] of a token matching [mo]. *)
Fixpoint opens_ok (h : heap) (cur : list nat) (mo : mspec) (bound : Z)
         (opens : list Z) : Prop :=
  match opens with
  | [] => True
  | o :: r =>
      0 <= o < bound
      /\ (exists t, nth_error cur (Z.to_nat o) = Some t
                    /\ match_spec (deref h t) mo = true)
      /\ opens_ok h cur mo o r
  end.

(** A run of the loop of [_group_matching] over [l], from the index [idx]
    and no offset, that meets no group of another class and no close while
    an open is pending: the stack it ends with.  Such a run calls neither
    [group_tokens] nor itself. *)
Fixpoint scan (h : heap) (c : cls) (mo mc : mspec) (idx : Z) (l : list nat)
         (opens : list Z) : option (list Z) :=
  match l with
  | [] => Some opens
  | t :: r =>
      let tk := deref h t in
      if is_whitespace tk then scan h c mo mc (idx + 1) r opens
      else if is_group tk && negb (isinstance tk [c]) then None
      else if match_spec tk mo then scan h c mo mc (idx + 1) r (idx :: opens)
      else if match_spec tk mc then
        match opens with
        | [] => scan h c mo mc (idx + 1) r opens
        | _ :: _ => None
        end
      else scan h c mo mc (idx + 1) r opens
  end.

(** The stack [opens] is the one a quiet run over the first [bound]
    tokens of [cur] ends with, and so is each of its tails for the tokens
    before its top. *)
Fixpoint stack_ok (h : heap) (c : cls) (mo mc : mspec) (cur : list nat)
         (bound : Z) (opens : list Z) : Prop :=
  scan h c mo mc 0 (firstn (Z.to_nat bound) cur) [] = Some opens
  /\ match opens with
     | [] => True
     | o :: r => 0 <= o < bound /\ stack_ok h c mo mc cur o r
     end.

(** The state of the splitter between two tokens: the heap holds only
    groups built after their children, and the frames are nested as deep
    as the level, not at all for a negative level. *)
Definition splitter_ok (self : splitter) (h : heap) : Prop :=
  graded h 0
  /\ frames (length h) (Z.to_nat (level self)) (StatementSplitter.tokens self).

(** The leaves below the objects of [l], in order: the body of
    [TokenList.flatten] for a list of children, with [k] levels of fuel
    for the groups among them. *)
Definition expand (k : nat) (h : heap) (l : list nat) : res (list nat) :=
  concat_res (fun t => if is_group (deref h t) then flatten k h t else Ok [t]) l.

(** ** Parent consistency *)

(** [n.parent is p] *)
Definition parent_is (h : heap) (n p : nat) : bool :=
  match parent (deref h n) with
  | Some q => (q =? p)%nat
  | None => false
  end.

(** Every child of [p] has [p] as its parent and occurs once among the
    children of [p]. *)
Definition children_ok (h : heap) (p : nat) : bool :=
  forallb (fun c => parent_is h c p
                    && (count_occ Nat.eq_dec (sql.tokens (deref h p)) c =? 1)%nat)
          (sql.tokens (deref h p)).

(** Parent consistency of the tree below [root]: for every non-root node
    [n], [n.parent.children] contains [n] exactly once. *)
Definition parents_ok (fuel : nat) (h : heap) (root : nat) : bool :=
  forallb (children_ok h) (nodes fuel h root).

(** The children of [p] are distinct and have [p] as their parent. *)
Definition linked (h : heap) (p : nat) : Prop :=
  NoDup (sql.tokens (deref h p))
  /\ forall t, In t (sql.tokens (deref h p)) -> parent (deref h t) = Some p.

(** ** Heaps of any shape *)

(** Every child is an allocated object, and a group has no token type. *)
Definition well_formed (h : heap) : Prop :=
  (forall j t, (j < length h)%nat -> In t (sql.tokens (deref h j)) ->
               (t < length h)%nat)
  /\ (forall j, (j < length h)%nat -> is_group (deref h j) = true ->
                ttype_ (deref h j) = None).

(** The same as a test. *)
Definition well_formedb (h : heap) : bool :=
  forallb (fun n => forallb (fun t => (t <? length h)%nat) (sql.tokens n)
                    && (negb (is_group n)
                        || match ttype_ n with None => true | Some _ => false end))
          h.

(** [j] is [i] or lies below it, through children that are groups. *)
Inductive reach (h : heap) : nat -> nat -> Prop :=
| reach_refl : forall i, reach h i i
| reach_step : forall i t j,
    In t (sql.tokens (deref h i)) -> is_group (deref h t) = true ->
    reach h t j -> reach h i j.

(** The test under which a matcher for [c] calls itself on a child:
    [token.is_group and not isinstance(token, cls)]. *)
Definition recursed (c : cls) (n : node) : bool :=
  is_group n && negb (isinstance n [c]).

(** The calls of a matcher for [c] nest at most [k] deep from [i] on. *)
Fixpoint rdepth (c : cls) (k : nat) (h : heap) (i : nat) : Prop :=
  match k with
  | O => False
  | S k' =>
      forall t, In t (sql.tokens (deref h i)) ->
                recursed c (deref h t) = true -> rdepth c k' h t
  end.

(** The first child of [i] satisfies [p]; the last child does. *)
Definition first_is (h : heap) (i : nat) (p : node -> bool) : bool :=
  match sql.tokens (deref h i) with
  | t :: _ => p (deref h t)
  | [] => false
  end.

Definition last_is (h : heap) (i : nat) (p : node -> bool) : bool :=
  match rev (sql.tokens (deref h i)) with
  | t :: _ => p (deref h t)
  | [] => false
  end.

(** A group of class [c] that begins with a token satisfying [po] and
    ends with one satisfying [pc]. *)
Definition enclosed (h : heap) (g : nat) (c : cls) (po pc : node -> bool)
  : Prop :=
  class_ (deref h g) = c
  /\ is_group (deref h g) = true
  /\ first_is h g po = true
  /\ last_is h g pc = true.

(** The stack of open indices of a matcher: decreasing from the top,
    below [bound], each the index in [cur] of a token satisfying [po]. *)
Fixpoint opens_sat (h : heap) (cur : list nat) (po : node -> bool) (bound : Z)
         (opens : list Z) : Prop :=
  match opens with
  | [] => True
  | o :: r =>
      0 <= o < bound
      /\ (exists t, nth_error cur (Z.to_nat o) = Some t
                    /\ po (deref h t) = true)
      /\ opens_sat h cur po o r
  end.

(** [h'] is [h] after a matcher for [c] has created groups: the old
    objects keep all but their children and parent, flatten to the same
    leaves one level deeper at most for each new object, reach no more
    than before, and are searched no deeper. *)
Definition evolves (c : cls) (h h' : heap) : Prop :=
  (length h <= length h')%nat
  /\ (forall j, (j < length h)%nat -> attrs (deref h' j) = attrs (deref h j))
  /\ (forall j k l, (j < length h)%nat -> flatten k h j = Ok l ->
         flatten (k + (length h' - length h)) h' j = Ok l)
  /\ (forall a b, (a < length h)%nat -> (b < length h)%nat ->
         reach h' a b -> reach h a b)
  /\ (forall k j, (j < length h)%nat -> rdepth c k h j -> rdepth c k h' j)
  /\ well_formed h'.

(** What a matcher for [c] makes of the heap when it has searched the
    list [tlist], whose leaves are [l]: an evolution of the heap with at
    most one new object for each leaf, every new object a group of class
    [c] enclosed by its sentinels, and no child list changed but that of
    [tlist] and of the objects below it that are not of class [c]. *)
Definition searched (c : cls) (po pc : node -> bool) (h h' : heap)
           (tlist : nat) (l : list nat) : Prop :=
  evolves c h h'
  /\ (length h' - length h <= length l)%nat
  /\ (forall g, (length h <= g < length h')%nat -> enclosed h' g c po pc)
  /\ (forall j, (j < length h)%nat -> j <> tlist ->
         ~ reach h tlist j \/ isinstance (deref h j) [c] = true ->
         sql.tokens (deref h' j) = sql.tokens (deref h j)).

(** ** The shape of a tree *)

(** A tree without addresses: a leaf with its value, or a group with its
    class and children. *)
Inductive tree :=
| Leaf (v : string)
| Group (c : cls) (l : list tree).

Fixpoint shape (fuel : nat) (h : heap) (i : nat) : tree :=
  match fuel with
  | O => Leaf "..."
  | S fuel' =>
      let n := deref h i in
      if is_group n then Group (class_ n) (map (shape fuel' h) (sql.tokens n))
      else Leaf (value n)
  end.

(** The streams of the examples. *)
Definition stream_paren_comment : list (ttype * string) :=
  [punct "("; punct ")"; comment "--c"; punct ";"].
Definition stream_call_comment : list (ttype * string) :=
  [name "f"; punct "("; int "1"; punct ")"; ws; comment "--c"; punct ";"].
Definition stream_with_ab : list (ttype * string) :=
  [cte "WITH"; ws; name "a"; punct "."; name "b"].
(** The text [-- comment], a newline, [insert into foo]; the comment token
    ends with the newline. *)
Definition nl : string := String (ascii_of_nat 10) EmptyString.
Definition stream_comment_insert : list (ttype * string) :=
  [comment ("-- comment" ++ nl)%string; dml "insert"; ws; kw "into"; ws;
   name "foo"].

(** The heap after splitting [(a)]: three leaves and their statement. *)
Definition heap_paren_pair : heap :=
  match FilterStack.run_flat [punct "("; name "a"; punct ")"] [] with
  | Ok (_, h) => h
  | Raise _ => []
  end.

(** A heap with a leaf [a] at 0, a [Statement] around it at 1 and a
    [Statement] around that one at 2. *)
Definition heap_wrapped : heap :=
  match (x <- new_Token T.Name "a" ;;
         s <- new_group Statement [x] ;;
         new_group Statement [s]) [] with
  | Ok (_, h) => h
  | Raise _ => []
  end.

(** A heap with a [Parenthesis] group at 1 over the leaf [(] at 0, the
    comment leaf [--c] at 2, and at 3 the [Statement] holding the group
    and the comment. *)
Definition heap_group_comment : heap :=
  match (x <- new_Token T.Punctuation "(" ;;
         g <- new_group Parenthesis [x] ;;
         y <- new_Token T.Comment_Single "--c" ;;
         new_group Statement [g; y]) [] with
  | Ok (_, h) => h
  | Raise _ => []
  end.

(** A statement inside a statement: the leaves [(] [LOOP] [--c]
    [END LOOP] [)] at 0 to 4, the [Comment] group over [--c] at 5, the
    [Statement] of these at 6, the leaf [;] at 7 and at 8 the [Statement]
    holding the inner statement and [;]. *)
Definition heap_nested : heap :=
  match (a <- new_Token T.Punctuation "(" ;;
         b <- new_Token T.Keyword "LOOP" ;;
         x <- new_Token T.Comment_Single "--c" ;;
         d <- new_Token T.Keyword "END LOOP" ;;
         e <- new_Token T.Punctuation ")" ;;
         g <- new_group Comment [x] ;;
         s <- new_group Statement [a; b; g; d; e] ;;
         f <- new_Token T.Punctuation ";" ;;
         new_group Statement [s; f]) [] with
  | Ok (_, h) => h
  | Raise _ => []
  end.

(** The streams of [( :: x )] and of [LOOP y::END LOOP]. *)
Definition stream_paren_typecast : list (ttype * string) :=
  [punct "("; punct "::"; name "x"; punct ")"].
Definition stream_loop_typecast : list (ttype * string) :=
  [kw "LOOP"; ws; name "y"; punct "::"; kw "END LOOP"].

(** The heap and the statement that parsing [WITH a.b] gives. *)
Definition parsed_with_ab : nat * heap :=
  match FilterStack.run 200 stream_with_ab [] with
  | Ok ([st], h) => (st, h)
  | _ => (0%nat, [])
  end.

End Props.

(** * Theorems *)

Import sql.

(** ** The splitter's depth deltas *)

(** Case analysis on the state tests, then computation. *)
Ltac atoms cr inf inw bd ic ty ForIn :=
  destruct cr, inf, inw;
  destruct (0 <? bd);
  destruct (bd =? 0);
  destruct (0 <? ic);
  destruct (ttype_eqb ty T.Keyword_DDL);
  destruct (ttype_eqb ty ForIn);
  reflexivity.
(** The case of one keyword of the table. *)
Ltac kw cr inf inw bd ic ty ForIn u k :=
  let E := fresh "E" in
  destruct (u =s? k) eqn:E;
  [apply String.eqb_eq in E; subst u; atoms cr inf inw bd ic ty ForIn|clear E].

(** C7: for every token type, value and splitter state, and wherever the
    lattice places [ForIn], [_change_splitlevel] returns the delta and the
    state update of the first applicable row of the table of depth deltas:
    [0] when the type is not in [Keyword]; [+1] for DDL [CREATE OR REPLACE];
    [+1] for [DECLARE] when [is_create] and [begin_depth = 0]; [+1] for
    [BEGIN]; [-1] for [END]; inside a created body ([is_create] and
    [begin_depth > 0]) [+1] for a [ForIn] token, [0] for [LOOP] with a
    pending [infor] or [inwhile] and [+1] for [LOOP] otherwise, [+1] for
    [IF] and [WHILE]; [+1] for [CASE]; [-1] for [END CASE], [END IF],
    [END WHILE], [END LOOP]; [0] otherwise. *)
Theorem change_splitlevel_is_table :
  forall (ForIn : ttype) (self : StatementSplitter.splitter) (ty : ttype)
         (value : string),
    StatementSplitter._change_splitlevel ForIn self ty value
    = Props.table_delta ForIn self ty value.
Proof.
  intros ForIn self ty value.
  destruct self as [dcl cr ic inf inw bd cws toks lvl].
  unfold StatementSplitter._change_splitlevel, Props.table_delta.
  generalize (upper value) as u; intro u.
  destruct (ttype_in (Some ty) T.Keyword); [|reflexivity].
  cbv [negb find Props.table Props.r_key Props.r_cond Props.r_delta
       Props.r_update Props.kw_is Props.always Props.in_create_body
       Props.unchanged str_in existsb
       StatementSplitter._is_create StatementSplitter._begin_depth
       StatementSplitter._in_case StatementSplitter._infor
       StatementSplitter._inwhile StatementSplitter.set_begin_depth
       StatementSplitter._in_declare StatementSplitter.consume_ws
       StatementSplitter.tokens StatementSplitter.level].
  rewrite (String.eqb_sym "IF" u), (String.eqb_sym "WHILE" u),
    (String.eqb_sym "END IF" u), (String.eqb_sym "END WHILE" u),
    (String.eqb_sym "END LOOP" u).
  kw cr inf inw bd ic ty ForIn u "CREATE OR REPLACE".
  kw cr inf inw bd ic ty ForIn u "DECLARE".
  kw cr inf inw bd ic ty ForIn u "BEGIN".
  kw cr inf inw bd ic ty ForIn u "END".
  kw cr inf inw bd ic ty ForIn u "LOOP".
  kw cr inf inw bd ic ty ForIn u "CASE".
  kw cr inf inw bd ic ty ForIn u "IF".
  kw cr inf inw bd ic ty ForIn u "WHILE".
  kw cr inf inw bd ic ty ForIn u "END CASE".
  kw cr inf inw bd ic ty ForIn u "END IF".
  kw cr inf inw bd ic ty ForIn u "END WHILE".
  kw cr inf inw bd ic ty ForIn u "END LOOP".
  destruct (startswith u "FOR"); atoms cr inf inw bd ic ty ForIn.
Qed.

(** ** Construction of a group *)

Lemma deref_alloc (h : heap) (n : node) : deref (h ++ [n]) (length h) = n.
Proof.
  unfold deref. rewrite app_nth2 by (simpl; lia). rewrite Nat.sub_diag. reflexivity.
Qed.

Lemma list_set_alloc (h : heap) (n m : node) :
  list_set (h ++ [n]) (length h) m = h ++ [m].
Proof.
  induction h as [|x h IH]; simpl; [reflexivity|]. now rewrite IH.
Qed.

(** C10: [TokenList(tokens=None)], for [TokenList] and every subclass,
    raises [TypeError]: the comprehension that sets the parents iterates
    the argument, not [self.tokens]; with an actual, empty list the
    constructor returns an object. *)
Theorem TokenList_init_None_raises :
  forall (c : cls) (h : heap),
    TokenList__init__ c None h = Raise TypeError
    /\ exists self h', TokenList__init__ c (Some []) h = Ok (self, h').
Proof.
  intros c h. split; [reflexivity|].
  cbv [TokenList__init__ set_parents bind alloc setattr get put ret text_type
       __str__].
  rewrite deref_alloc, list_set_alloc, deref_alloc.
  cbv [set_tokens class_ value].
  destruct (cls_beq c Token).
  - eauto.
  - assert (E : exists k, recursion_limit = S k)
      by (exists (pred recursion_limit); vm_compute; reflexivity).
    destruct E as [k ->].
    cbn [flatten]. rewrite deref_alloc. cbn. eauto.
Qed.

(** ** The statement splitter *)

(** C2: for every stream and heap, when [process] returns it has yielded
    at most one [Statement] (the generator has a single [yield], after the
    loop), so no input splits into two statements. *)
Theorem process_yields_at_most_one_statement :
  forall (ForIn : ttype) (stream : list (ttype * string)) (h : heap),
    match StatementSplitter.process ForIn StatementSplitter._reset stream h with
    | Ok ((stmts, _), _) => (length stmts <= 1)%nat
    | Raise _ => True
    end.
Proof.
  intros ForIn stream h. unfold StatementSplitter.process, bind.
  destruct (StatementSplitter.process_stream ForIn _ stream h) as [[s1 h1]|e];
    [|exact I].
  destruct (StatementSplitter.drain _ s1 h1) as [[s2 h2]|e]; [|exact I].
  destruct (StatementSplitter.tokens s2) as [|x l]; simpl; [lia|].
  match goal with
  | |- match match ?t with _ => _ end with _ => _ end =>
      destruct t as [[st h3]|e]
  end; simpl; [lia|exact I].
Qed.

(** The input of the regression test on splitting a function: one
    statement, and the text after the unmatched [END] is lost. *)
Example split_issue194 :
  exists st sp h,
    StatementSplitter.process T.ForIn StatementSplitter._reset
      Props.stream_issue194 [] = Ok (([st], sp), h)
    /\ Props.leaves_text h st
       = Ok "CREATE FUNCTION a(x VARCHAR(20)) RETURNS VARCHAR(20) BEGIN DECLARE y VARCHAR(20); IF (1 = 1) THEN SET x = y; END IF; RETURN x; END".
Proof. do 3 eexists. split; vm_compute; reflexivity. Qed.

(** C1: on the stream [END] [;] splitting followed by grouping returns one
    statement whose leaves spell [END]: the [;] after the unmatched closer
    is dropped, so the text is not the input's. *)
Theorem roundtrip_fails_after_unmatched_END :
  exists st h,
    FilterStack.run 200 [Props.kw "END"; Props.punct ";"] [] = Ok ([st], h)
    /\ Props.leaves_text h st = Ok "END"
    /\ Props.text_of [Props.kw "END"; Props.punct ";"] = "END;".
Proof. do 2 eexists. split; [|split]; vm_compute; reflexivity. Qed.

(** C3: on the stream [END] [ ] [END] the splitter returns without raising,
    but its level ends at [-2] (it is not clamped) and the statement it
    yields holds the first [END] only: the whitespace and the second closer
    are lost. *)
Theorem extra_closers_are_lost :
  exists st sp h,
    StatementSplitter.process T.ForIn StatementSplitter._reset
      [Props.kw "END"; Props.ws; Props.kw "END"] [] = Ok (([st], sp), h)
    /\ StatementSplitter.level sp = -2
    /\ map (fun t => value (deref h t)) (sql.tokens (deref h st)) = ["END"].
Proof. do 3 eexists. split; [|split]; vm_compute; reflexivity. Qed.

(** ** Totality *)

(** C5: the parser is not total.  On the one-token stream [PROCEDURE],
    with any fuel beyond the first twelve units, splitting followed by
    grouping raises [AttributeError] ([group_procedure_heading] reads
    [token.ttype] of the missing next token); and on [WITH a.b] parsing
    returns a statement on which [get_type] raises [AttributeError]. *)
Theorem parser_raises_on_malformed_input :
  (forall fuel : nat,
      FilterStack.run (12 + fuel) [Props.kw "PROCEDURE"] [] = Raise AttributeError)
  /\ (exists st h,
         FilterStack.run 200 Props.stream_with_ab [] = Ok ([st], h)
         /\ get_type h st = Raise AttributeError).
Proof.
  split.
  - intro fuel. vm_compute. reflexivity.
  - do 2 eexists. split; vm_compute; reflexivity.
Qed.

(** ** [Statement.get_type] *)

(** An empty statement, or one of whitespace and comments only, has type
    [UNKNOWN]. *)
Lemma get_type_empty (h : heap) (self : nat) :
  token_first h self true true = Ok None -> get_type h self = Ok "UNKNOWN".
Proof. intro H. unfold get_type. rewrite H. reflexivity. Qed.

(** A statement whose first token, whitespace and comments skipped, is of
    type [Keyword.DML] or [Keyword.DDL] has that token's normalized value
    as its type. *)
Lemma get_type_dml_ddl (h : heap) (self t : nat) :
  token_first h self true true = Ok (Some t) ->
  ttype_ (deref h t) = Some T.Keyword_DML \/ ttype_ (deref h t) = Some T.Keyword_DDL ->
  get_type h self = Ok (normalized (deref h t)).
Proof.
  intros H [E|E]; unfold get_type; rewrite H, E; reflexivity.
Qed.

(** The comment is skipped: [-- comment], newline, [insert into foo]
    parses to a statement of type [INSERT]. *)
Example get_type_comment_then_insert :
  exists st h,
    FilterStack.run 200 Props.stream_comment_insert [] = Ok ([st], h)
    /\ get_type h st = Ok "INSERT".
Proof. do 2 eexists. split; vm_compute; reflexivity. Qed.

(** C6: [WITH a.b] parses to the statement [WITH], [ ], [Identifier a.b];
    its first token is of type [Keyword.CTE] and an [Identifier] follows,
    with nothing after it: [get_type] raises [AttributeError] where the
    claim has it return [UNKNOWN]. *)
Theorem get_type_raises_on_cte_without_dml :
  exists st h,
    FilterStack.run 200 Props.stream_with_ab [] = Ok ([st], h)
    /\ Props.shape 50 h st
       = Props.Group Statement
           [Props.Leaf "WITH"; Props.Leaf " ";
            Props.Group Identifier [Props.Leaf "a"; Props.Leaf "."; Props.Leaf "b"]]
    /\ get_type h st = Raise AttributeError.
Proof. do 2 eexists. split; [|split]; vm_compute; reflexivity. Qed.

(** ** Heaps: assignments and their frames *)

Import Props.
Import grouping.

Lemma py_index_ok {A} (l : list A) (i : Z) (d : A) :
  0 <= i < len l -> py_index l i = Ok (nth (Z.to_nat i) l d).
Proof.
  unfold py_index, len. intros H.
  destruct (Z.ltb_spec i 0); [lia|].
  destruct (Z.ltb_spec i 0); [lia|].
  destruct (Z.leb_spec (Z.of_nat (length l)) i); [lia|]. simpl.
  destruct (nth_error l (Z.to_nat i)) eqn:E.
  - now rewrite (nth_error_nth _ _ d E).
  - apply nth_error_None in E. lia.
Qed.

Lemma slice_range_ok {A} (l : list A) (o e : Z) :
  0 <= o <= e -> e < len l ->
  slice_range l (Some o) (Some (e + 1)) = (Z.to_nat o, Z.to_nat (e + 1)).
Proof.
  unfold slice_range, slice_bound, len. intros H1 H2.
  destruct (Z.ltb_spec o 0); [lia|].
  destruct (Z.ltb_spec o 0); [lia|].
  destruct (Z.ltb_spec (Z.of_nat (length l)) o); [lia|].
  destruct (Z.ltb_spec (e + 1) 0); [lia|].
  destruct (Z.ltb_spec (e + 1) 0); [lia|].
  destruct (Z.ltb_spec (Z.of_nat (length l)) (e + 1)); [lia|].
  f_equal. f_equal. lia.
Qed.

Lemma py_slice_ok {A} (l : list A) (o e : Z) :
  0 <= o <= e -> e < len l ->
  py_slice l (Some o) (Some (e + 1))
  = firstn (Z.to_nat (e + 1) - Z.to_nat o) (skipn (Z.to_nat o) l).
Proof. intros. unfold py_slice. now rewrite slice_range_ok. Qed.

Lemma py_slice_assign_ok {A} (l xs : list A) (o e : Z) :
  0 <= o <= e -> e < len l ->
  py_slice_assign l (Some o) (Some (e + 1)) xs
  = firstn (Z.to_nat o) l ++ xs ++ skipn (Z.to_nat (e + 1)) l.
Proof. intros. unfold py_slice_assign. now rewrite slice_range_ok. Qed.

Import Props.

Lemma length_list_set {A} (l : list A) i x : length (list_set l i x) = length l.
Proof. revert i; induction l; intros [|i]; simpl; auto. Qed.

Lemma nth_list_set_same {A} (l : list A) i x d :
  (i < length l)%nat -> nth i (list_set l i x) d = x.
Proof.
  revert i; induction l; intros [|i]; simpl; intros; try lia; auto.
  apply IHl; lia.
Qed.

Lemma nth_list_set_other {A} (l : list A) i j x d :
  i <> j -> nth j (list_set l i x) d = nth j l d.
Proof.
  revert i j; induction l; intros [|i] [|j]; simpl; intros; try congruence; auto.
Qed.

Lemma deref_put_same h i n : (i < length h)%nat -> deref (list_set h i n) i = n.
Proof. apply nth_list_set_same. Qed.

Lemma deref_put_other h i j n : i <> j -> deref (list_set h i n) j = deref h j.
Proof. apply nth_list_set_other. Qed.

Lemma list_set_out {A} (l : list A) i x : (length l <= i)%nat -> list_set l i x = l.
Proof.
  revert i; induction l; intros [|i]; simpl; intros; try lia; auto.
  f_equal. apply IHl; lia.
Qed.

Lemma deref_app_old h n j : (j < length h)%nat -> deref (h ++ [n]) j = deref h j.
Proof. intro. unfold deref. now rewrite app_nth1. Qed.

Lemma sbp_refl a : same_but_parent a a.
Proof. reflexivity. Qed.

Lemma sbp_trans a b c :
  same_but_parent a b -> same_but_parent b c -> same_but_parent a c.
Proof. unfold same_but_parent; congruence. Qed.

Lemma sbp_set_parent a p : same_but_parent (set_parent a p) a.
Proof. destruct a; reflexivity. Qed.

Lemma sbp_attrs a b : same_but_parent a b -> attrs a = attrs b.
Proof. unfold same_but_parent, attrs. now intros ->. Qed.

Lemma sbp_tokens a b : same_but_parent a b -> sql.tokens a = sql.tokens b.
Proof.
  unfold same_but_parent. intro H.
  change (sql.tokens (set_parent a None) = sql.tokens (set_parent b None)).
  now rewrite H.
Qed.

Lemma attrs_is_group a b : attrs a = attrs b -> is_group a = is_group b.
Proof.
  intro H. change (is_group (attrs a) = is_group (attrs b)). now rewrite H.
Qed.

Lemma attrs_class a b : attrs a = attrs b -> class_ a = class_ b.
Proof.
  intro H. change (class_ (attrs a) = class_ (attrs b)). now rewrite H.
Qed.

Lemma attrs_is_whitespace a b : attrs a = attrs b -> is_whitespace a = is_whitespace b.
Proof.
  intro H. change (is_whitespace (attrs a) = is_whitespace (attrs b)). now rewrite H.
Qed.

Lemma attrs_match a b m : attrs a = attrs b -> match_spec a m = match_spec b m.
Proof.
  intro H. change (match_spec (attrs a) m = match_spec (attrs b) m). now rewrite H.
Qed.

Lemma attrs_set_tokens a l : attrs (sql.set_tokens a l) = attrs a.
Proof. destruct a; reflexivity. Qed.

Lemma attrs_set_parent a p : attrs (set_parent a p) = attrs a.
Proof. destruct a; reflexivity. Qed.

Lemma parents_only_refl h : parents_only h h.
Proof. split; auto using sbp_refl. Qed.

Lemma parents_only_trans h1 h2 h3 :
  parents_only h1 h2 -> parents_only h2 h3 -> parents_only h1 h3.
Proof.
  intros [L1 S1] [L2 S2]. split; [congruence|].
  intro j. eapply sbp_trans; eauto.
Qed.

Lemma setattr_parent_spec i p h :
  exists h', setattr i (fun n => set_parent n p) h = Ok (tt, h')
             /\ parents_only h h'.
Proof.
  unfold setattr, bind, get, put. eexists; split; [reflexivity|].
  split; [apply length_list_set|].
  intro j. destruct (Nat.eq_dec i j) as [->|N].
  - destruct (Nat.lt_ge_cases j (length h)).
    + rewrite deref_put_same by auto. apply sbp_set_parent.
    + rewrite list_set_out by auto. apply sbp_refl.
  - rewrite deref_put_other by auto. apply sbp_refl.
Qed.

Lemma for_each_parent_spec l p h :
  exists h', for_each l (fun t => setattr t (fun n => set_parent n p)) h
             = Ok (tt, h')
             /\ parents_only h h'.
Proof.
  revert h; induction l as [|t l IH]; intro h; simpl.
  - eexists; split; [reflexivity|]. apply parents_only_refl.
  - destruct (setattr_parent_spec t p h) as (h1 & E1 & P1).
    destruct (IH h1) as (h2 & E2 & P2).
    exists h2. unfold bind. rewrite E1, E2. split; [reflexivity|].
    eapply parents_only_trans; eauto.
Qed.

Lemma set_parents_spec self l h :
  exists h', set_parents self (map Obj l) h = Ok (l, h')
             /\ parents_only h h'.
Proof.
  revert h; induction l as [|t l IH]; intro h; simpl.
  - eexists; split; [reflexivity|]. apply parents_only_refl.
  - destruct (setattr_parent_spec t (Some self) h) as (h1 & E1 & P1).
    destruct (IH h1) as (h2 & E2 & P2).
    exists h2. unfold bind at 1. rewrite E1. unfold bind. rewrite E2.
    split; [reflexivity|]. eapply parents_only_trans; eauto.
Qed.

Lemma concat_res_ok {A B} (f : A -> res (list B)) l :
  (forall t, In t l -> exists xs, f t = Ok xs) ->
  exists ys, concat_res f l = Ok ys.
Proof.
  induction l as [|t l IH]; intro H; simpl; [eauto|].
  destruct (H t) as [xs ->]; [now left|].
  destruct IH as [ys ->]; [intros; apply H; now right|]. eauto.
Qed.

Lemma flatten_graded h n0 :
  graded h n0 ->
  forall k g, (n0 <= g < length h)%nat -> (g - n0 < k)%nat ->
  exists l, flatten k h g = Ok l.
Proof.
  intros G k. induction k as [|k IH]; intros g Hg Hk; [lia|].
  simpl. apply concat_res_ok. intros t Ht.
  destruct (G g Hg t Ht) as [Lt D].
  destruct (is_group (deref h t)) eqn:E; [|eauto].
  destruct D as [D|D]; [congruence|].
  apply IH; lia.
Qed.

Lemma setattr_parent_frame i p h :
  exists h', setattr i (fun n => set_parent n p) h = Ok (tt, h')
    /\ parents_only h h'
    /\ (forall j, j <> i -> deref h' j = deref h j)
    /\ ((i < length h)%nat -> parent (deref h' i) = p).
Proof.
  unfold setattr, bind, get, put. eexists; split; [reflexivity|].
  split; [|split].
  - split; [apply length_list_set|].
    intro j. destruct (Nat.eq_dec i j) as [->|N].
    + destruct (Nat.lt_ge_cases j (length h)).
      * rewrite deref_put_same by auto. apply sbp_set_parent.
      * rewrite list_set_out by auto. apply sbp_refl.
    + rewrite deref_put_other by auto. apply sbp_refl.
  - intros j N. apply deref_put_other; auto.
  - intro L. rewrite deref_put_same by auto. now destruct (deref h i).
Qed.

Lemma sbp_parent_irrelevant a b p :
  same_but_parent a b -> set_parent a p = set_parent b p.
Proof.
  unfold same_but_parent. intro H.
  change (set_parent (set_parent a None) p = set_parent (set_parent b None) p).
  now rewrite H.
Qed.

Lemma set_parents_frame self l h :
  exists h', set_parents self (map Obj l) h = Ok (l, h')
    /\ parents_only h h'
    /\ (forall j, ~ In j l -> deref h' j = deref h j)
    /\ (forall j, In j l -> (j < length h)%nat ->
                  parent (deref h' j) = Some self).
Proof.
  revert h; induction l as [|t l IH]; intro h; cbn [map set_parents].
  - eexists; split; [reflexivity|]. split; [apply parents_only_refl|].
    split; [auto|intros j []].
  - destruct (setattr_parent_frame t (Some self) h) as (h1 & E1 & P1 & O1 & S1).
    destruct (IH h1) as (h2 & E2 & P2 & O2 & S2).
    exists h2. unfold bind at 1. rewrite E1. unfold bind. rewrite E2.
    split; [reflexivity|]. split; [eapply parents_only_trans; eauto|].
    split.
    + intros j N. rewrite O2 by (intro; apply N; now right).
      apply O1. intro; subst; apply N; now left.
    + intros j [->|I] Lj.
      * destruct (in_dec Nat.eq_dec j l) as [I|N].
        -- apply S2; auto. destruct P1 as [L1 _]. lia.
        -- rewrite O2 by auto. apply S1; auto.
      * apply S2; auto. destruct P1 as [L1 _]. lia.
Qed.

Lemma for_each_parent_frame l p h :
  exists h', for_each l (fun t => setattr t (fun n => set_parent n p)) h
             = Ok (tt, h')
    /\ parents_only h h'
    /\ (forall j, ~ In j l -> deref h' j = deref h j)
    /\ (forall j, In j l -> (j < length h)%nat -> parent (deref h' j) = p).
Proof.
  revert h; induction l as [|t l IH]; intro h; cbn [for_each].
  - eexists; split; [reflexivity|]. split; [apply parents_only_refl|].
    split; [auto|intros j []].
  - destruct (setattr_parent_frame t p h) as (h1 & E1 & P1 & O1 & S1).
    destruct (IH h1) as (h2 & E2 & P2 & O2 & S2).
    exists h2. unfold bind. rewrite E1, E2.
    split; [reflexivity|]. split; [eapply parents_only_trans; eauto|].
    split.
    + intros j N. rewrite O2 by (intro; apply N; now right).
      apply O1. intro; subst; apply N; now left.
    + intros j [->|I] Lj.
      * destruct (in_dec Nat.eq_dec j l) as [I|N].
        -- apply S2; auto. destruct P1 as [L1 _]. lia.
        -- rewrite O2 by auto. apply S1; auto.
      * apply S2; auto. destruct P1 as [L1 _]. lia.
Qed.

Lemma sbp_is_group a b : same_but_parent a b -> is_group a = is_group b.
Proof. intro H. apply attrs_is_group. now apply sbp_attrs. Qed.

Lemma recursion_limit_pos : (0 < recursion_limit)%nat.
Proof. apply Nat.ltb_lt. vm_compute. reflexivity. Qed.

Lemma recursion_limit_S : exists k, recursion_limit = S k.
Proof.
  exists (pred recursion_limit). symmetry.
  apply (Nat.lt_succ_pred 0), recursion_limit_pos.
Qed.

(** The one exception of [flatten] is the interpreter's. *)
Lemma concat_res_raises {A B} (f : A -> res (list B)) (P : exn -> Prop) l e :
  (forall t e', In t l -> f t = Raise e' -> P e') ->
  concat_res f l = Raise e -> P e.
Proof.
  induction l as [|t l IH]; cbn [concat_res]; intros H E; [discriminate|].
  destruct (f t) as [xs|e1] eqn:Ef.
  - destruct (concat_res f l) as [ys|e2] eqn:Er; [discriminate|].
    injection E as <-. apply IH; [|reflexivity].
    intros t' e' It. apply H. now right.
  - injection E as <-. apply (H t e1); [now left|exact Ef].
Qed.

Lemma flatten_raises k : forall h g e,
  flatten k h g = Raise e -> e = RecursionError.
Proof.
  induction k as [|k IH]; intros h g e; cbn [flatten].
  - intro E. now injection E as <-.
  - apply (concat_res_raises _ (fun e => e = RecursionError)). intros t e' _.
    destruct (is_group (deref h t)); [apply IH|discriminate].
Qed.

Lemma text_type_cases h g :
  (exists v, text_type g h = Ok (v, h))
  \/ text_type g h = Raise RecursionError.
Proof.
  unfold text_type, bind, get.
  destruct (cls_beq (class_ (deref h g)) Token); [unfold ret; eauto|].
  unfold __str__.
  destruct (flatten recursion_limit h g) as [l|e] eqn:E; [eauto|].
  right. now rewrite (flatten_raises _ _ _ _ E).
Qed.

Lemma text_type_ok h n0 g :
  graded h n0 -> (n0 <= g < length h)%nat ->
  (g - n0 < recursion_limit)%nat ->
  exists v, text_type g h = Ok (v, h).
Proof.
  intros G Hg Hd. unfold text_type, bind, get.
  destruct (cls_beq (class_ (deref h g)) Token); [unfold ret; eauto|].
  unfold __str__.
  destruct (flatten_graded h n0 G recursion_limit g Hg Hd) as [l ->].
  eauto.
Qed.

(** Extending a graded heap by one group over earlier objects. *)
Lemma graded_extend h h' n0 l :
  (n0 <= length h)%nat ->
  graded h n0 ->
  length h' = S (length h) ->
  (forall j, (j < length h)%nat -> is_group (deref h' j) = is_group (deref h j)) ->
  (forall j, (n0 <= j < length h)%nat ->
     sql.tokens (deref h' j) = sql.tokens (deref h j)) ->
  sql.tokens (deref h' (length h)) = l ->
  (forall t, In t l ->
     (t < length h)%nat /\ (is_group (deref h t) = false \/ (n0 <= t)%nat)) ->
  graded h' n0.
Proof.
  intros Hn G L S Tk T C g Hg t Ht.
  destruct (Nat.eq_dec g (length h)) as [->|N].
  - rewrite T in Ht. destruct (C t Ht) as [Lt D]. split; [lia|].
    destruct D as [D|D]; [left|now right].
    now rewrite (S t Lt).
  - assert (Lg : (g < length h)%nat) by lia.
    rewrite (Tk g (conj (proj1 Hg) Lg)) in Ht.
    destruct (G g (conj (proj1 Hg) Lg) t Ht) as [Lt D]. split; [lia|].
    destruct D as [D|D]; [left|now right].
    rewrite (S t ltac:(lia)). exact D.
Qed.

Lemma new_group_match h c l n0 :
  (n0 <= length h)%nat ->
  graded h n0 ->
  (forall t, In t l ->
     (t < length h)%nat /\ (is_group (deref h t) = false \/ (n0 <= t)%nat)) ->
  match new_group c l h with
  | Ok (g, h') =>
      g = length h
    /\ length h' = S (length h)
    /\ (forall j, (j < length h)%nat -> same_but_parent (deref h' j) (deref h j))
    /\ class_ (deref h' (length h)) = c
    /\ is_group (deref h' (length h)) = true
    /\ sql.tokens (deref h' (length h)) = l
    /\ ttype_ (deref h' (length h)) = None
    /\ is_whitespace (deref h' (length h)) = false
    /\ (forall j, (j < length h)%nat -> ~ In j l -> deref h' j = deref h j)
  | Raise e => e = RecursionError /\ (recursion_limit <= length h - n0)%nat
  end.
Proof.
  intros Hn G C.
  unfold new_group, TokenList__init__.
  unfold bind at 1. unfold alloc at 1.
  set (fresh := mkNode c "" None None "" false false false []).
  set (g := length h).
  destruct (set_parents_frame g l (h ++ [fresh])) as (h2 & E2 & [L2 S2] & O2 & _).
  unfold bind at 1. rewrite E2.
  assert (L2' : length h2 = S g) by (rewrite L2, length_app; simpl; lia).
  unfold bind at 1. unfold setattr at 1, bind at 1, get at 1, put at 1.
  set (h3 := list_set h2 g (sql.set_tokens (deref h2 g) l)).
  assert (L3 : length h3 = S g) by (unfold h3; now rewrite length_list_set).
  assert (D3 : deref h3 g = sql.set_tokens (deref h2 g) l)
    by (unfold h3; apply deref_put_same; lia).
  assert (O3 : forall j, (j < g)%nat -> same_but_parent (deref h3 j) (deref h j)).
  { intros j Lj. unfold h3. rewrite deref_put_other by lia.
    eapply sbp_trans; [apply S2|]. rewrite deref_app_old by exact Lj.
    apply sbp_refl. }
  assert (G3 : graded h3 n0).
  { apply (graded_extend h h3 n0 l); auto.
    - intros j Lj. apply sbp_is_group, O3, Lj.
    - intros j Lj. apply sbp_tokens, O3, Lj.
    - fold g. rewrite D3. now destruct (deref h2 g). }
  destruct (text_type_cases h3 g) as [[v Ev]|Er].
  2:{ unfold bind at 1. rewrite Er. split; [reflexivity|].
      destruct (Nat.lt_ge_cases (g - n0) recursion_limit) as [Hlt|Hge];
        [|exact Hge].
      destruct (text_type_ok h3 n0 g G3 ltac:(lia) Hlt) as [v Ev]. congruence. }
  unfold bind at 1. rewrite Ev.
  unfold bind, get, put, ret.
  split; [reflexivity|].
  split; [now rewrite length_list_set|].
  split; [|rewrite deref_put_same by lia; rewrite D3].
  - intros j Lj. rewrite deref_put_other by lia. now apply O3.
  - assert (Cg : class_ (deref h2 g) = c).
    { rewrite (attrs_class _ _ (sbp_attrs _ _ (S2 g))).
      unfold deref, g. now rewrite nth_middle. }
    assert (Fr : forall j, (j < g)%nat -> ~ In j l ->
              deref (list_set h3 g
                       (let n' := Token__init__ (sql.set_tokens (deref h2 g) l) None v in
                        mkNode (class_ n') (value n') (ttype_ n') (parent n')
                               (normalized n') (is_keyword n') true
                               (is_whitespace n') (sql.tokens n'))) j
              = deref h j).
    { intros j Lj Nj. rewrite deref_put_other by lia. unfold h3.
      rewrite deref_put_other by lia. rewrite O2 by exact Nj.
      apply deref_app_old, Lj. }
    destruct (deref h2 g); simpl in *; auto 10.
Qed.



(** The constructor on a graded heap: it returns the new group, or the
    text of the group is nested deeper than the interpreter allows. *)
Lemma new_group_cases h c l n0 :
  (n0 <= length h)%nat ->
  graded h n0 ->
  (forall t, In t l ->
     (t < length h)%nat /\ (is_group (deref h t) = false \/ (n0 <= t)%nat)) ->
  (exists h', new_group c l h = Ok (length h, h')
    /\ length h' = S (length h)
    /\ (forall j, (j < length h)%nat -> same_but_parent (deref h' j) (deref h j))
    /\ class_ (deref h' (length h)) = c
    /\ is_group (deref h' (length h)) = true
    /\ sql.tokens (deref h' (length h)) = l
    /\ ttype_ (deref h' (length h)) = None
    /\ is_whitespace (deref h' (length h)) = false
    /\ (forall j, (j < length h)%nat -> ~ In j l -> deref h' j = deref h j))
  \/ (new_group c l h = Raise RecursionError
      /\ (recursion_limit <= length h - n0)%nat).
Proof.
  intros Hn G C. pose proof (new_group_match h c l n0 Hn G C) as H.
  destruct (new_group c l h) as [[g h']|e].
  - destruct H as [-> H]. left. exists h'. split; [reflexivity|exact H].
  - destruct H as [-> H]. right. split; [reflexivity|exact H].
Qed.

Lemma new_group_spec h c l n0 :
  (n0 <= length h)%nat ->
  graded h n0 ->
  (forall t, In t l ->
     (t < length h)%nat /\ (is_group (deref h t) = false \/ (n0 <= t)%nat)) ->
  (length h - n0 < recursion_limit)%nat ->
  exists h', new_group c l h = Ok (length h, h')
    /\ length h' = S (length h)
    /\ (forall j, (j < length h)%nat -> same_but_parent (deref h' j) (deref h j))
    /\ class_ (deref h' (length h)) = c
    /\ is_group (deref h' (length h)) = true
    /\ sql.tokens (deref h' (length h)) = l
    /\ ttype_ (deref h' (length h)) = None
    /\ is_whitespace (deref h' (length h)) = false
    /\ (forall j, (j < length h)%nat -> ~ In j l -> deref h' j = deref h j).
Proof.
  intros Hn G C Hd.
  destruct (new_group_cases h c l n0 Hn G C) as [H|[_ H]]; [exact H|lia].
Qed.

(** The constructor makes the new group the parent of its children. *)
Lemma new_group_parents h c l g h' :
  new_group c l h = Ok (g, h') ->
  forall t, In t l -> (t < length h)%nat ->
            parent (deref h' t) = Some (length h).
Proof.
  intro E. unfold new_group, TokenList__init__ in E.
  unfold bind at 1 in E. unfold alloc at 1 in E.
  set (fresh := mkNode c "" None None "" false false false []) in E.
  destruct (set_parents_frame (length h) l (h ++ [fresh]))
    as (h2 & E2 & [L2 S2] & O2 & P2).
  unfold bind at 1 in E. rewrite E2 in E.
  unfold bind at 1 in E. unfold setattr at 1, bind at 1, get at 1, put at 1 in E.
  set (h3 := list_set h2 (length h) (sql.set_tokens (deref h2 (length h)) l)) in E.
  unfold bind at 1 in E.
  destruct (text_type_cases h3 (length h)) as [[v Ev]|Er];
    [rewrite Ev in E|rewrite Er in E; discriminate].
  unfold bind, get, put, ret in E. injection E as <- <-.
  intros t It Lt.
  rewrite deref_put_other by lia. unfold h3.
  rewrite deref_put_other by lia.
  apply P2; [exact It|]. rewrite length_app. lia.
Qed.

Lemma In_firstn {A} (l : list A) n x : In x (firstn n l) -> In x l.
Proof.
  revert l; induction n as [|n IH]; intros [|y l]; simpl; try tauto.
  intros [->|H]; auto.
Qed.

Lemma In_skipn {A} (l : list A) n x : In x (skipn n l) -> In x l.
Proof.
  revert l; induction n as [|n IH]; intros [|y l]; simpl; try tauto.
  intro H; right; auto.
Qed.

Lemma group_tokens_spec h self c o e n0 :
  (self < n0 <= length h)%nat ->
  0 <= o <= e -> e < len (sql.tokens (deref h self)) ->
  graded h n0 ->
  (forall t, In t (sql.tokens (deref h self)) ->
     (t < length h)%nat /\ (is_group (deref h t) = false \/ (n0 <= t)%nat)) ->
  (length h - n0 < recursion_limit)%nat ->
  exists h',
    group_tokens self c (Some o) (Some e) true false h = Ok (length h, h')
    /\ length h' = S (length h)
    /\ (forall j, (j < length h)%nat -> attrs (deref h' j) = attrs (deref h j))
    /\ (forall j, (j < length h)%nat -> j <> self ->
          sql.tokens (deref h' j) = sql.tokens (deref h j))
    /\ sql.tokens (deref h' self)
       = firstn (Z.to_nat o) (sql.tokens (deref h self)) ++ [length h]
         ++ skipn (Z.to_nat (e + 1)) (sql.tokens (deref h self))
    /\ class_ (deref h' (length h)) = c
    /\ is_group (deref h' (length h)) = true
    /\ sql.tokens (deref h' (length h))
       = firstn (Z.to_nat (e + 1) - Z.to_nat o)
                (skipn (Z.to_nat o) (sql.tokens (deref h self)))
    /\ ttype_ (deref h' (length h)) = None
    /\ is_whitespace (deref h' (length h)) = false
    /\ parent (deref h' (length h)) = Some self
    /\ (forall t, In t (sql.tokens (deref h' (length h))) ->
          parent (deref h' t) = Some (length h))
    /\ (forall j, (j < length h)%nat ->
          ~ In j (sql.tokens (deref h' (length h))) ->
          parent (deref h' j) = parent (deref h j)).
Proof.
  intros Hs Ho He G C Hd.
  set (cur := sql.tokens (deref h self)) in *.
  set (sub := firstn (Z.to_nat (e + 1) - Z.to_nat o) (skipn (Z.to_nat o) cur)).
  assert (Csub : forall t, In t sub ->
     (t < length h)%nat /\ (is_group (deref h t) = false \/ (n0 <= t)%nat)).
  { intros t Ht. apply C. unfold sub in Ht.
    apply In_firstn in Ht. eapply In_skipn; eauto. }
  destruct (new_group_spec h c sub n0 ltac:(lia) G Csub Hd)
    as (h1 & E1 & L1 & S1 & K1 & I1 & T1 & Y1 & W1 & F1).
  set (g := length h) in *.
  unfold group_tokens.
  unfold bind at 1, get at 1. fold cur.
  unfold bind at 1. rewrite (py_index_ok cur o 0%nat) by lia. unfold lift at 1.
  unfold bind at 1, get at 1.
  cbn [andb]. rewrite (py_slice_ok cur o e) by lia. fold sub.
  unfold bind at 1. rewrite E1.
  unfold bind at 1, setattr at 1, bind at 1, get at 1, put at 1.
  assert (Tc : sql.tokens (deref h1 self) = cur)
    by (apply sbp_tokens, S1; lia).
  rewrite Tc, (py_slice_assign_ok cur [g] o e) by lia.
  set (cur' := firstn (Z.to_nat o) cur ++ [g] ++ skipn (Z.to_nat (e + 1)) cur).
  set (h2 := list_set h1 self (sql.set_tokens (deref h1 self) cur')).
  unfold bind at 1, setattr at 1, bind at 1, get at 1, put at 1.
  set (h3 := list_set h2 g (set_parent (deref h2 g) (Some self))).
  destruct (for_each_parent_frame sub (Some g) h3) as (h4 & E4 & [L4 S4] & O4 & P4).
  unfold bind at 1. rewrite E4. unfold ret.
  exists h4. split; [reflexivity|].
  assert (L2 : length h2 = S g) by (unfold h2; now rewrite length_list_set).
  assert (L3 : length h3 = S g) by (unfold h3; now rewrite length_list_set).
  assert (D2s : deref h2 self = sql.set_tokens (deref h1 self) cur')
    by (unfold h2; apply deref_put_same; lia).
  assert (D2o : forall j, j <> self -> deref h2 j = deref h1 j)
    by (intros; unfold h2; apply deref_put_other; auto).
  assert (D3g : deref h3 g = set_parent (deref h1 g) (Some self)).
  { unfold h3. rewrite deref_put_same by lia. rewrite D2o by lia. reflexivity. }
  assert (D3o : forall j, j <> g -> deref h3 j = deref h2 j)
    by (intros; unfold h3; apply deref_put_other; auto).
  split; [congruence|].
  assert (Ng : ~ In g sub).
  { intro I. destruct (Csub g I). unfold g in *. lia. }
  assert (T4 : sql.tokens (deref h4 g) = sub).
  { rewrite (sbp_tokens _ _ (S4 g)), D3g. rewrite <- T1. now destruct (deref h1 g). }
  split; [|split; [|split; [|split; [|split; [|split; [|split; [|split; [|split; [|split]]]]]]]]].
  - intros j Lj. rewrite (sbp_attrs _ _ (S4 j)), D3o by lia.
    destruct (Nat.eq_dec j self) as [->|N].
    + rewrite D2s, attrs_set_tokens. apply sbp_attrs, S1; lia.
    + rewrite D2o by auto. apply sbp_attrs, S1; lia.
  - intros j Lj N. rewrite (sbp_tokens _ _ (S4 j)), D3o, D2o by lia.
    apply sbp_tokens, S1; lia.
  - rewrite (sbp_tokens _ _ (S4 self)), D3o, D2s by lia.
    now destruct (deref h1 self).
  - rewrite (attrs_class _ _ (sbp_attrs _ _ (S4 g))), D3g.
    rewrite <- K1. now destruct (deref h1 g).
  - rewrite (sbp_is_group _ _ (S4 g)), D3g.
    rewrite <- I1. now destruct (deref h1 g).
  - rewrite (sbp_tokens _ _ (S4 g)), D3g.
    rewrite <- T1. now destruct (deref h1 g).
  - change (ttype_ (attrs (deref h4 g)) = None).
    rewrite (sbp_attrs _ _ (S4 g)), D3g, attrs_set_parent. exact Y1.
  - rewrite (attrs_is_whitespace _ _ (sbp_attrs _ _ (S4 g))), D3g.
    rewrite <- W1. now destruct (deref h1 g).
  - rewrite O4 by exact Ng. rewrite D3g. now destruct (deref h1 g).
  - rewrite T4. intros t It. apply P4; [exact It|].
    destruct (Csub t It). lia.
  - rewrite T4. intros j Lj Nj. rewrite O4 by exact Nj.
    rewrite D3o by (unfold g; lia).
    destruct (Nat.eq_dec j self) as [->|N].
    + rewrite D2s. cbn [parent sql.set_tokens]. now rewrite F1.
    + rewrite D2o by exact N. now rewrite F1.
Qed.

(** ** Balanced nests *)


Lemma skipn_cons_inv {A} (l : list A) n x r :
  skipn n l = x :: r -> nth_error l n = Some x /\ skipn (S n) l = r.
Proof.
  revert l; induction n as [|n IH]; intros [|y l]; simpl; try discriminate.
  - intro H; inversion H; auto.
  - intro H. now apply IH.
Qed.

Lemma skipn_middle {A} (a b : list A) x n :
  n = S (length a) -> skipn n (a ++ [x] ++ b) = b.
Proof.
  intros ->. revert b; induction a as [|y a IH]; intro b; simpl; auto.
  apply IH.
Qed.

Lemma nth_error_firstn_app {A} (l b : list A) o i :
  (i < o)%nat -> (o <= length l)%nat ->
  nth_error (firstn o l ++ b) i = nth_error l i.
Proof.
  intros Hi Ho. rewrite nth_error_app1 by (rewrite length_firstn; lia).
  revert l i Hi Ho; induction o as [|o IH]; intros [|y l] [|i]; simpl;
    intros; try lia; auto.
  apply IH; lia.
Qed.

Lemma firstn_S_nth {A} (l : list A) t y :
  nth_error l t = Some y -> firstn (S t) l = firstn t l ++ [y].
Proof.
  revert l; induction t as [|t IH]; intros [|z l] H; try discriminate.
  - simpl in *. now inversion H.
  - simpl in H. change (firstn (S (S t)) (z :: l)) with (z :: firstn (S t) l).
    rewrite (IH l H). reflexivity.
Qed.

(** The slice from [o] up to [t] starts with [l[o]] and ends with [l[t]]. *)
Lemma slice_ends {A} (l : list A) o t x y :
  (o <= t)%nat -> nth_error l o = Some x -> nth_error l t = Some y ->
  (exists m, firstn (S t - o) (skipn o l) = x :: m)
  /\ (exists m', rev (firstn (S t - o) (skipn o l)) = y :: m').
Proof.
  revert l t; induction o as [|o IH]; intros l t Hot Hx Hy.
  - simpl skipn. rewrite Nat.sub_0_r. split.
    + destruct l as [|z l]; [discriminate|]. simpl in Hx. inversion Hx; subst.
      simpl. eauto.
    + rewrite (firstn_S_nth l t y Hy), rev_app_distr. simpl. eauto.
  - destruct l as [|z l]; [discriminate|].
    destruct t as [|t]; [lia|]. simpl in Hx, Hy.
    change (skipn (S o) (z :: l)) with (skipn o l).
    replace (S (S t) - S o)%nat with (S t - o)%nat by lia.
    apply IH; auto; lia.
Qed.

Lemma opens_ok_weaken h cur mo b b' opens :
  b <= b' -> opens_ok h cur mo b opens -> opens_ok h cur mo b' opens.
Proof.
  destruct opens as [|o r]; simpl; auto.
  intros Hb (Ho & Ht & Hr). split; [lia|auto].
Qed.

Lemma opens_ok_change h h' cur cur' mo b opens :
  (forall i, (Z.of_nat i < b) -> nth_error cur' i = nth_error cur i) ->
  (forall t, In t cur -> attrs (deref h' t) = attrs (deref h t)) ->
  opens_ok h cur mo b opens -> opens_ok h' cur' mo b opens.
Proof.
  revert b; induction opens as [|o r IH]; intros b Hn Ha; simpl; auto.
  intros (Ho & (t & Et & Mt) & Hr). split; [exact Ho|]. split.
  - exists t. rewrite Hn by lia. split; [exact Et|].
    rewrite (attrs_match _ _ mo (Ha t (nth_error_In _ _ Et))). exact Mt.
  - apply IH; auto. intros i Hi. apply Hn. lia.
Qed.

Lemma delimited_preserved h h' n0 g c mo mc :
  graded h n0 -> (n0 <= g < length h)%nat ->
  (forall j, (j < length h)%nat -> attrs (deref h' j) = attrs (deref h j)) ->
  sql.tokens (deref h' g) = sql.tokens (deref h g) ->
  delimited h g c mo mc -> delimited h' g c mo mc.
Proof.
  intros G Hg Ha Ht (Dc & Df & Dl).
  assert (Hm : forall t m, In t (sql.tokens (deref h g)) ->
            match_spec (deref h' t) m = match_spec (deref h t) m).
  { intros t m It. apply attrs_match, Ha.
    destruct (G g Hg t It). lia. }
  split; [|split].
  - rewrite (attrs_class _ _ (Ha g ltac:(lia))). exact Dc.
  - unfold first_matches in *. rewrite Ht.
    destruct (sql.tokens (deref h g)) as [|t r] eqn:E; [discriminate|].
    rewrite Hm; [exact Df|]. now left.
  - unfold last_matches in *. rewrite Ht.
    destruct (rev (sql.tokens (deref h g))) as [|t r] eqn:E; [discriminate|].
    rewrite Hm; [exact Dl|]. apply in_rev. rewrite E. now left.
Qed.

Lemma scan_app h c mo mc l1 l2 idx opens :
  scan h c mo mc idx (l1 ++ l2) opens
  = match scan h c mo mc idx l1 opens with
    | Some o1 => scan h c mo mc (idx + len l1) l2 o1
    | None => None
    end.
Proof.
  revert idx opens; induction l1 as [|t l1 IH]; intros idx opens.
  - simpl. f_equal. unfold len. simpl. lia.
  - replace (idx + len (t :: l1)) with (idx + 1 + len l1)
      by (unfold len; simpl length; lia).
    simpl app. cbn [scan].
    destruct (is_whitespace (deref h t)); [now rewrite IH|].
    destruct (is_group (deref h t) && negb (isinstance (deref h t) [c]));
      [reflexivity|].
    destruct (match_spec (deref h t) mo); [now rewrite IH|].
    destruct (match_spec (deref h t) mc); [|now rewrite IH].
    destruct opens; [now rewrite IH|reflexivity].
Qed.

Lemma attrs_isinstance a b l : attrs a = attrs b -> isinstance a l = isinstance b l.
Proof. intro H. unfold isinstance. now rewrite (attrs_class _ _ H). Qed.

Lemma scan_attrs h h' c mo mc l :
  (forall t, In t l -> attrs (deref h' t) = attrs (deref h t)) ->
  forall idx opens, scan h' c mo mc idx l opens = scan h c mo mc idx l opens.
Proof.
  induction l as [|t l IH]; intros Ha idx opens; [reflexivity|].
  cbn [scan].
  assert (At : attrs (deref h' t) = attrs (deref h t)) by (apply Ha; now left).
  rewrite (attrs_is_whitespace _ _ At), (attrs_is_group _ _ At),
    (attrs_isinstance _ _ [c] At), (attrs_match _ _ mo At),
    (attrs_match _ _ mc At).
  rewrite !IH by (intros; apply Ha; now right). reflexivity.
Qed.

Lemma firstn_firstn_le {A} (l : list A) a b :
  (a <= b)%nat -> firstn a (firstn b l) = firstn a l.
Proof. intro H. rewrite firstn_firstn. f_equal. lia. Qed.

Lemma stack_ok_change h h' c mo mc cur cur' b opens :
  firstn (Z.to_nat b) cur' = firstn (Z.to_nat b) cur ->
  (forall t, In t cur -> attrs (deref h' t) = attrs (deref h t)) ->
  stack_ok h c mo mc cur b opens -> stack_ok h' c mo mc cur' b opens.
Proof.
  revert b; induction opens as [|o r IH]; intros b Hf Ha [Hs Ht]; cbn [stack_ok].
  - split; [|exact I]. rewrite Hf, (scan_attrs h h'); [exact Hs|].
    intros t It. apply Ha. eapply In_firstn; eauto.
  - split.
    + rewrite Hf, (scan_attrs h h'); [exact Hs|].
      intros t It. apply Ha. eapply In_firstn; eauto.
    + destruct Ht as [Ho Hr]. split; [exact Ho|]. apply IH; auto.
      rewrite <- (firstn_firstn_le cur' (Z.to_nat o) (Z.to_nat b)) by lia.
      rewrite Hf. apply firstn_firstn_le. lia.
Qed.

Lemma issubclass_refl c : issubclass c c = true.
Proof. destruct c; reflexivity. Qed.

Lemma match_spec_no_ttype n m : ttype_ n = None -> match_spec n m = false.
Proof. unfold match_spec, match_. now intros ->. Qed.

Lemma firstn_app_exact {A} (a b : list A) n : n = length a -> firstn n (a ++ b) = a.
Proof. intros ->. induction a; simpl; [now destruct b|]. now f_equal. Qed.

Lemma nth_error_app_exact {A} (a b : list A) x n :
  n = length a -> nth_error (a ++ x :: b) n = Some x.
Proof. intros ->. induction a; simpl; auto. Qed.

Lemma stack_ok_step h c mo mc cur b token opens opens' :
  0 <= b -> nth_error cur (Z.to_nat b) = Some token ->
  stack_ok h c mo mc cur b opens ->
  scan h c mo mc b [token] opens = Some opens' ->
  opens' = opens \/ opens' = b :: opens ->
  stack_ok h c mo mc cur (b + 1) opens'.
Proof.
  intros Hb Hn Hst Hsc Hcase.
  assert (Hs : scan h c mo mc 0 (firstn (Z.to_nat b) cur) [] = Some opens)
    by (destruct opens; apply Hst).
  assert (Hlen : len (firstn (Z.to_nat b) cur) = b).
  { unfold len. rewrite length_firstn.
    assert (Z.to_nat b < length cur)%nat by (apply nth_error_Some; congruence).
    lia. }
  assert (Hscan : scan h c mo mc 0 (firstn (Z.to_nat (b + 1)) cur) [] = Some opens').
  { replace (Z.to_nat (b + 1)) with (S (Z.to_nat b)) by lia.
    rewrite (firstn_S_nth cur _ token Hn), scan_app, Hs, Hlen. exact Hsc. }
  destruct Hcase as [->| ->].
  - destruct opens as [|o r]; cbn [stack_ok]; (split; [exact Hscan|]); auto.
    destruct Hst as [_ [Ho Hr]]. split; [lia|exact Hr].
  - cbn [stack_ok]. split; [exact Hscan|]. split; [lia|exact Hst].
Qed.

Lemma flatten_S k h i : flatten (S k) h i = expand k h (sql.tokens (deref h i)).
Proof. reflexivity. Qed.

Lemma concat_res_ext {A B} (f f' : A -> res (list B)) l :
  (forall t, In t l -> f t = f' t) -> concat_res f l = concat_res f' l.
Proof.
  induction l as [|t l IH]; intro H; cbn [concat_res]; [reflexivity|].
  rewrite (H t) by (now left). rewrite IH by (intros; apply H; now right).
  reflexivity.
Qed.

Lemma concat_res_app_ok {A B} (f : A -> res (list B)) l1 l2 r :
  concat_res f (l1 ++ l2) = Ok r ->
  exists a b, concat_res f l1 = Ok a /\ concat_res f l2 = Ok b /\ r = a ++ b.
Proof.
  revert r; induction l1 as [|t l1 IH]; intros r; cbn [app concat_res].
  - intro H. exists [], r. auto.
  - destruct (f t) as [xs|e]; [|discriminate].
    destruct (concat_res f (l1 ++ l2)) as [ys|e] eqn:E; [|discriminate].
    intro H. inversion H; subst. destruct (IH ys eq_refl) as (a & b & Ea & Eb & ->).
    rewrite Ea. exists (xs ++ a), b. rewrite app_assoc. auto.
Qed.

Lemma concat_res_app_eq {A B} (f : A -> res (list B)) l1 l2 a b :
  concat_res f l1 = Ok a -> concat_res f l2 = Ok b ->
  concat_res f (l1 ++ l2) = Ok (a ++ b).
Proof.
  revert a; induction l1 as [|t l1 IH]; intros a; cbn [app concat_res].
  - intros H1 H2. inversion H1; subst. exact H2.
  - destruct (f t) as [xs|e]; [|discriminate].
    destruct (concat_res f l1) as [ys|e] eqn:E; [|discriminate].
    intros H1 H2. inversion H1; subst. rewrite (IH ys eq_refl H2).
    now rewrite app_assoc.
Qed.

(** The leaves below a created group do not depend on the fuel, once
    there is enough of it. *)
Lemma flatten_fuel h n0 :
  graded h n0 ->
  forall k1 k2 g, (n0 <= g < length h)%nat ->
    (g - n0 < k1)%nat -> (g - n0 < k2)%nat ->
    flatten k1 h g = flatten k2 h g.
Proof.
  intros G k1. induction k1 as [|k1 IH]; intros k2 g Hg H1 H2; [lia|].
  destruct k2 as [|k2]; [lia|]. rewrite !flatten_S. unfold expand.
  apply concat_res_ext. intros t It.
  destruct (G g Hg t It) as [Lt D].
  destruct (is_group (deref h t)) eqn:E; [|reflexivity].
  destruct D as [D|D]; [congruence|]. apply IH; lia.
Qed.

(** The leaves below a created group depend only on the groups created
    before it. *)
Lemma flatten_frame h h' n0 :
  graded h n0 ->
  (forall j, (j < length h)%nat -> is_group (deref h' j) = is_group (deref h j)) ->
  (forall j, (n0 <= j < length h)%nat ->
     sql.tokens (deref h' j) = sql.tokens (deref h j)) ->
  forall k g, (n0 <= g < length h)%nat -> flatten k h' g = flatten k h g.
Proof.
  intros G Hg Ht k. induction k as [|k IH]; intros g Lg; [reflexivity|].
  rewrite !flatten_S. unfold expand. rewrite (Ht g Lg).
  apply concat_res_ext. intros t It.
  destruct (G g Lg t It) as [Lt D].
  rewrite (Hg t ltac:(lia)).
  destruct (is_group (deref h t)) eqn:E; [|reflexivity].
  destruct D as [D|D]; [congruence|]. apply IH; lia.
Qed.

Lemma slice_decompose {A} (l : list A) (a b : nat) :
  (a <= b)%nat ->
  l = firstn a l ++ firstn (b - a) (skipn a l) ++ skipn b l.
Proof.
  intro H. rewrite <- (firstn_skipn a l) at 1. f_equal.
  rewrite <- (firstn_skipn (b - a) (skipn a l)) at 1. f_equal.
  rewrite skipn_skipn. f_equal. lia.
Qed.


Lemma expand_frame h h' n0 l :
  graded h n0 ->
  (forall j, (j < length h)%nat -> is_group (deref h' j) = is_group (deref h j)) ->
  (forall j, (n0 <= j < length h)%nat ->
     sql.tokens (deref h' j) = sql.tokens (deref h j)) ->
  (forall t, In t l ->
     (t < length h)%nat /\ (is_group (deref h t) = false \/ (n0 <= t)%nat)) ->
  forall k, expand k h' l = expand k h l.
Proof.
  intros G Hg Ht Hl k. unfold expand. apply concat_res_ext. intros t It.
  destruct (Hl t It) as [Lt D]. rewrite (Hg t Lt).
  destruct (is_group (deref h t)) eqn:E; [|reflexivity].
  destruct D as [D|D]; [congruence|].
  apply (flatten_frame h h' n0); auto.
Qed.

Lemma expand_fuel h n0 l :
  graded h n0 ->
  (forall t, In t l ->
     (t < length h)%nat /\ (is_group (deref h t) = false \/ (n0 <= t)%nat)) ->
  forall k1 k2, (length h - n0 < k1)%nat -> (length h - n0 < k2)%nat ->
    expand k1 h l = expand k2 h l.
Proof.
  intros G Hl k1 k2 H1 H2. unfold expand. apply concat_res_ext. intros t It.
  destruct (Hl t It) as [Lt D].
  destruct (is_group (deref h t)) eqn:E; [|reflexivity].
  destruct D as [D|D]; [congruence|].
  apply (flatten_fuel h n0); auto; lia.
Qed.

(** Replacing a slice of the list by a group that holds it leaves the
    flattened list as it is. *)
Lemma expand_group_step h h' n0 cur o e1 L0 :
  (n0 <= length h)%nat ->
  graded h n0 ->
  (forall t, In t cur ->
     (t < length h)%nat /\ (is_group (deref h t) = false \/ (n0 <= t)%nat)) ->
  length h' = S (length h) ->
  (forall j, (j < length h)%nat -> is_group (deref h' j) = is_group (deref h j)) ->
  (forall j, (n0 <= j < length h)%nat ->
     sql.tokens (deref h' j) = sql.tokens (deref h j)) ->
  is_group (deref h' (length h)) = true ->
  sql.tokens (deref h' (length h)) = firstn (e1 - o) (skipn o cur) ->
  (o <= e1)%nat ->
  (forall k, (length h - n0 < k)%nat -> expand k h cur = Ok L0) ->
  forall k, (length h' - n0 < k)%nat ->
    expand k h' (firstn o cur ++ [length h] ++ skipn e1 cur) = Ok L0.
Proof.
  intros Hn G C L' Hg Ht Ig Tg Hoe K k Hk.
  destruct k as [|k1]; [lia|].
  assert (Hk1 : (length h - n0 < k1)%nat) by lia.
  pose proof (K (S k1) ltac:(lia)) as K1.
  rewrite (slice_decompose cur o e1 Hoe) in K1. unfold expand in K1.
  apply concat_res_app_ok in K1. destruct K1 as (a & bc & Ea & Ebc & ->).
  apply concat_res_app_ok in Ebc. destruct Ebc as (b & c & Eb & Ec & ->).
  assert (Cpre : forall t, In t (firstn o cur) ->
            (t < length h)%nat /\ (is_group (deref h t) = false \/ (n0 <= t)%nat))
    by (intros t It; apply C; eapply In_firstn; eauto).
  assert (Csub : forall t, In t (firstn (e1 - o) (skipn o cur)) ->
            (t < length h)%nat /\ (is_group (deref h t) = false \/ (n0 <= t)%nat))
    by (intros t It; apply C; apply In_firstn in It; eapply In_skipn; eauto).
  assert (Cpost : forall t, In t (skipn e1 cur) ->
            (t < length h)%nat /\ (is_group (deref h t) = false \/ (n0 <= t)%nat))
    by (intros t It; apply C; eapply In_skipn; eauto).
  unfold expand. apply concat_res_app_eq.
  - fold (expand (S k1) h' (firstn o cur)).
    rewrite (expand_frame h h' n0) by auto. exact Ea.
  - cbn [app concat_res]. rewrite Ig, flatten_S, Tg.
    rewrite (expand_frame h h' n0) by auto.
    rewrite (expand_fuel h n0 _ G Csub k1 (S k1)) by lia.
    unfold expand at 1. rewrite Eb.
    fold (expand (S k1) h' (skipn e1 cur)).
    rewrite (expand_frame h h' n0) by auto.
    unfold expand. rewrite Ec. reflexivity.
Qed.

Lemma concat_res_leaves h l :
  (forall t, In t l -> is_group (deref h t) = false) ->
  forall f, concat_res (fun t => if is_group (deref h t) then f t else Ok [t]) l
            = Ok l.
Proof.
  intros H f. induction l as [|t l IH]; cbn [concat_res]; [reflexivity|].
  rewrite (H t) by (now left). rewrite IH by (intros; apply H; now right).
  reflexivity.
Qed.


Lemma NoDup_app_inv {A} (a b : list A) :
  NoDup (a ++ b) -> NoDup a /\ NoDup b /\ forall x, In x a -> ~ In x b.
Proof.
  induction a as [|y a IH]; cbn [app]; intro H.
  - split; [constructor|]. split; [exact H|]. intros x [].
  - inversion H as [|? ? Ny Nd]; subst. destruct (IH Nd) as (Na & Nb & Dj).
    split; [|split; [exact Nb|]].
    + constructor; [|exact Na]. intro I. apply Ny. apply in_or_app. now left.
    + intros x [<-|I] Ib; [|exact (Dj x I Ib)].
      apply Ny. apply in_or_app. now right.
Qed.

Lemma NoDup_app_intro {A} (a b : list A) :
  NoDup a -> NoDup b -> (forall x, In x a -> ~ In x b) -> NoDup (a ++ b).
Proof.
  induction a as [|y a IH]; cbn [app]; intros Na Nb Dj; [exact Nb|].
  inversion Na as [|? ? Ny Nd]; subst. constructor.
  - intro I. apply in_app_or in I. destruct I as [I|I]; [auto|].
    apply (Dj y); [now left|exact I].
  - apply IH; auto. intros x Ix. apply Dj. now right.
Qed.

Lemma group_matching_body_leaf self_ tlist c mo mc opens off k token h :
  is_group (deref h token) = false ->
  M_OPEN c = Ok (Tuple mo) -> M_CLOSE c = Ok (Tuple mc) ->
  _group_matching_body self_ tlist c (opens, off) (k, token) h
  = if is_whitespace (deref h token) then Ok ((opens, off), h)
    else if match_spec (deref h token) mo then Ok ((k - off :: opens, off), h)
    else if match_spec (deref h token) mc then
      match opens with
      | [] => Ok ((opens, off), h)
      | o :: r =>
          match group_tokens tlist c (Some o) (Some (k - off)) true false h with
          | Ok (_, h') => Ok ((r, off + (k - off - o)), h')
          | Raise e => Raise e
          end
      end
    else Ok ((opens, off), h).
Proof.
  intros Hg Mo Mc.
  unfold _group_matching_body, bind, get, lift, ret.
  rewrite Hg, Mo, Mc. cbn [andb match_star].
  destruct (is_whitespace (deref h token)); [reflexivity|].
  destruct (match_spec (deref h token) mo); [reflexivity|].
  destruct (match_spec (deref h token) mc); [|reflexivity].
  destruct opens as [|o r]; [reflexivity|].
  destruct (group_tokens tlist c (Some o) (Some (k - off)) true false h)
    as [[? ?]|]; reflexivity.
Qed.

Lemma group_matching_fold (P : Prop) c mo mc self_ tlist n0 L0 :
  M_OPEN c = Ok (Tuple mo) -> M_CLOSE c = Ok (Tuple mc) ->
  forall rest k opens off h,
    (tlist < n0 <= length h)%nat ->
    graded h n0 ->
    (forall g, (n0 <= g < length h)%nat -> delimited h g c mo mc) ->
    (forall t, In t (sql.tokens (deref h tlist)) ->
       (t < length h)%nat /\ (is_group (deref h t) = false \/ (n0 <= t)%nat)) ->
    (forall t, In t rest -> (t < n0)%nat /\ is_group (deref h t) = false) ->
    0 <= k - off ->
    len (sql.tokens (deref h tlist)) = k - off + len rest ->
    skipn (Z.to_nat (k - off)) (sql.tokens (deref h tlist)) = rest ->
    opens_ok h (sql.tokens (deref h tlist)) mo (k - off) opens ->
    stack_ok h c mo mc (sql.tokens (deref h tlist)) (k - off) opens ->
    (forall k', (length h - n0 < k')%nat ->
       expand k' h (sql.tokens (deref h tlist)) = Ok L0) ->
    (P -> linked h tlist) ->
    (P -> forall g, (n0 <= g < length h)%nat -> linked h g) ->
    Z.of_nat (length h - n0) <= off ->
    k + len rest <= Z.of_nat recursion_limit ->
    exists st h',
      fold_m (enumerate_from k rest) (_group_matching_body self_ tlist c)
             (opens, off) h = Ok (st, h')
      /\ (length h <= length h')%nat
      /\ (forall g, (n0 <= g < length h')%nat -> delimited h' g c mo mc)
      /\ (exists opens',
            scan h' c mo mc 0 (sql.tokens (deref h' tlist)) [] = Some opens')
      /\ (forall k', (length h' - n0 < k')%nat ->
            expand k' h' (sql.tokens (deref h' tlist)) = Ok L0)
      /\ (forall j, (j < length h)%nat -> attrs (deref h' j) = attrs (deref h j))
      /\ (P -> linked h' tlist)
      /\ (P -> forall g, (n0 <= g < length h')%nat -> linked h' g)
      /\ (forall j, (j < length h)%nat -> j <> tlist ->
            sql.tokens (deref h' j) = sql.tokens (deref h j))
      /\ graded h' n0
      /\ forall t, In t (sql.tokens (deref h' tlist)) ->
            (t < length h')%nat
            /\ (is_group (deref h' t) = false \/ (n0 <= t)%nat).
Proof.
  intros Mo Mc rest.
  induction rest as [|token rest IH];
    intros k opens off h Hs G D C R Hk Hl Hsk Hop Hst HK Pt Pc HdI HdN.
  - simpl. unfold ret. do 2 eexists. split; [reflexivity|].
    split; [lia|]. split; [exact D|].
    split; [|split; [exact HK|split; [reflexivity|auto 10]]].
    exists opens.
    assert (Hs0 : scan h c mo mc 0
                    (firstn (Z.to_nat (k - off)) (sql.tokens (deref h tlist))) []
                  = Some opens) by (destruct opens; apply Hst).
    rewrite firstn_all2 in Hs0; [exact Hs0|].
    unfold len in Hl. simpl length in Hl. lia.
  - destruct (skipn_cons_inv _ _ _ _ Hsk) as [Hnth Hsk'].
    destruct (R token (or_introl eq_refl)) as [Lt Gt].
    assert (R' : forall t, In t rest -> (t < n0)%nat /\ is_group (deref h t) = false)
      by (intros; apply R; now right).
    assert (Hl' : len (sql.tokens (deref h tlist)) = k + 1 - off + len rest).
    { rewrite Hl. unfold len. simpl length. lia. }
    assert (Hsk2 : skipn (Z.to_nat (k + 1 - off)) (sql.tokens (deref h tlist)) = rest).
    { replace (Z.to_nat (k + 1 - off)) with (S (Z.to_nat (k - off))) by lia.
      exact Hsk'. }
    assert (Stay : forall opens',
              opens_ok h (sql.tokens (deref h tlist)) mo (k + 1 - off) opens' ->
              scan h c mo mc (k - off) [token] opens = Some opens' ->
              opens' = opens \/ opens' = (k - off) :: opens ->
              exists st h',
                fold_m (enumerate_from (k + 1) rest)
                       (_group_matching_body self_ tlist c) (opens', off) h
                = Ok (st, h')
                /\ (length h <= length h')%nat
                /\ (forall g, (n0 <= g < length h')%nat -> delimited h' g c mo mc)
                /\ (exists opens'',
                      scan h' c mo mc 0 (sql.tokens (deref h' tlist)) []
                      = Some opens'')
                /\ (forall k', (length h' - n0 < k')%nat ->
                      expand k' h' (sql.tokens (deref h' tlist)) = Ok L0)
                /\ (forall j, (j < length h)%nat ->
                      attrs (deref h' j) = attrs (deref h j))
                /\ (P -> linked h' tlist)
                /\ (P -> forall g, (n0 <= g < length h')%nat -> linked h' g)
                /\ (forall j, (j < length h)%nat -> j <> tlist ->
                      sql.tokens (deref h' j) = sql.tokens (deref h j))
                /\ graded h' n0
                /\ forall t, In t (sql.tokens (deref h' tlist)) ->
                      (t < length h')%nat
                      /\ (is_group (deref h' t) = false \/ (n0 <= t)%nat)).
    { intros opens' Hop' Hsc Hcase.
      apply IH; auto; [lia| |unfold len in *; cbn [length] in *; lia].
      replace (k + 1 - off) with (k - off + 1) by lia.
      eapply stack_ok_step; eauto. }
    assert (Hop1 : opens_ok h (sql.tokens (deref h tlist)) mo (k + 1 - off) opens)
      by (eapply opens_ok_weaken; [|exact Hop]; lia).
    cbn [enumerate_from fold_m]. unfold bind at 1.
    rewrite (group_matching_body_leaf _ _ _ mo mc) by auto.
    destruct (is_whitespace (deref h token)) eqn:Ews.
    { apply Stay; auto. cbn [scan]. now rewrite Ews. }
    destruct (match_spec (deref h token) mo) eqn:Emo.
    { apply Stay; auto.
      - simpl. split; [lia|]. split; [eauto|exact Hop].
      - cbn [scan]. now rewrite Ews, Gt, Emo. }
    destruct (match_spec (deref h token) mc) eqn:Emc.
    2:{ apply Stay; auto. cbn [scan]. now rewrite Ews, Gt, Emo, Emc. }
    destruct opens as [|o r].
    { apply Stay; auto. cbn [scan]. now rewrite Ews, Gt, Emo, Emc. }
    destruct Hop as (Ho & (to & Eto & Mto) & Hr).
    destruct Hst as (_ & _ & Hst).
    set (cur := sql.tokens (deref h tlist)) in *.
    destruct (group_tokens_spec h tlist c o (k - off) n0 Hs ltac:(lia)
                ltac:(fold cur; rewrite Hl; unfold len; simpl length; lia) G C
                ltac:(unfold len in *; cbn [length] in *; lia))
      as (h' & E & L' & A' & T' & Tl' & K' & I' & Tg' & Y' & W' & Pg' & Ps' & Po').
    fold cur in Tl', Tg'.
    rewrite E.
    assert (Lo : (Z.to_nat o <= length cur)%nat).
    { unfold len in Hl. lia. }
    destruct (IH (k + 1) r (off + (k - off - o)) h')
      as (st & h'' & E'' & L'' & D'' & S'' & K'' & A'' & Pt'' & Pc'' & T'' & G'' & C'').
    + lia.
    + apply (graded_extend h h' n0 (sql.tokens (deref h' (length h)))); auto.
      * lia.
      * intros j Lj. apply attrs_is_group, A', Lj.
      * intros j Lj. apply T'; lia.
      * intros t It. rewrite Tg' in It. apply C. fold cur.
        apply In_firstn in It. eapply In_skipn; eauto.
    + intros g Hg. destruct (Nat.eq_dec g (length h)) as [->|N].
      * split; [exact K'|].
        destruct (slice_ends cur (Z.to_nat o) (Z.to_nat (k - off)) to token
                    ltac:(lia) Eto Hnth) as [[m Em] [m' Em']].
        replace (Z.to_nat (k - off + 1) - Z.to_nat o)%nat
          with (S (Z.to_nat (k - off)) - Z.to_nat o)%nat in Tg' by lia.
        unfold first_matches, last_matches. rewrite Tg', Em', Em.
        assert (Hto : (to < length h)%nat)
          by (apply C; fold cur; eapply nth_error_In; eauto).
        rewrite (attrs_match _ _ mo (A' to Hto)), Mto.
        rewrite (attrs_match _ _ mc (A' token ltac:(lia))), Emc. auto.
      * apply (delimited_preserved h h' n0); auto; try lia.
        -- apply T'; lia.
        -- apply D; lia.
    + intros t It. rewrite Tl' in It.
      apply in_app_or in It. destruct It as [It|It].
      * apply In_firstn in It. destruct (C t It) as [Lt' Dt]. split; [lia|].
        destruct Dt as [Dt|Dt]; [left|now right].
        now rewrite (attrs_is_group _ _ (A' t Lt')).
      * apply in_app_or in It. destruct It as [[<-|[]]|It]; [split; [lia|right; lia]|].
        apply In_skipn in It. destruct (C t It) as [Lt' Dt]. split; [lia|].
        destruct Dt as [Dt|Dt]; [left|now right].
        now rewrite (attrs_is_group _ _ (A' t Lt')).
    + intros t It. destruct (R' t It) as [Lt' Gt']. split; [exact Lt'|].
      rewrite (attrs_is_group _ _ (A' t ltac:(lia))). exact Gt'.
    + lia.
    + rewrite Tl'. unfold len in *. rewrite !length_app, length_firstn, length_skipn.
      simpl length in *. lia.
    + rewrite Tl'.
      replace (k + 1 - (off + (k - off - o))) with (o + 1) by lia.
      rewrite skipn_middle by (rewrite length_firstn; lia).
      rewrite <- Hsk'. f_equal. lia.
    + rewrite Tl'.
      replace (k + 1 - (off + (k - off - o))) with (o + 1) by lia.
      apply (opens_ok_weaken _ _ _ o); [lia|].
      apply (opens_ok_change h h' cur); auto.
      * intros i Hi. apply nth_error_firstn_app; lia.
      * intros t It. apply A', C, It.
    + rewrite Tl'.
      replace (k + 1 - (off + (k - off - o))) with (o + 1) by lia.
      apply (stack_ok_step h' c mo mc _ o (length h) r r); auto.
      * lia.
      * apply nth_error_app_exact. rewrite length_firstn. lia.
      * apply (stack_ok_change h h' c mo mc cur); auto.
        -- apply firstn_app_exact. rewrite length_firstn. lia.
        -- intros t It. apply A', C, It.
      * cbn [scan]. rewrite W', I', (match_spec_no_ttype _ mo Y'),
          (match_spec_no_ttype _ mc Y').
        unfold isinstance. cbn [existsb]. rewrite K', issubclass_refl.
        reflexivity.
    + rewrite Tl'.
      apply (expand_group_step h h' n0 cur (Z.to_nat o)
               (Z.to_nat (k - off + 1)) L0); auto.
      * lia.
      * intros j Lj. apply attrs_is_group, A', Lj.
      * intros j Lj. apply T'; lia.
      * lia.
    + (* the list stays linked *)
      intro HP. destruct (Pt HP) as [Nd Pp]. fold cur in Nd, Pp.
      pose proof (slice_decompose cur (Z.to_nat o) (Z.to_nat (k - off + 1))
                    ltac:(lia)) as Dec.
      rewrite Dec in Nd.
      destruct (NoDup_app_inv _ _ Nd) as (Nd1 & Nd23 & Dj1).
      destruct (NoDup_app_inv _ _ Nd23) as (Nd2 & Nd3 & Dj2).
      assert (Fresh : forall t, In t cur -> t <> length h)
        by (intros t It; destruct (C t It); lia).
      split.
      * rewrite Tl'. apply NoDup_app_intro; [exact Nd1| |].
        -- cbn [app]. constructor; [|exact Nd3].
           intro I. apply (Fresh (length h)); [|reflexivity].
           eapply In_skipn; eauto.
        -- intros t It [<-|I3].
           ++ apply (Fresh (length h)); [|reflexivity]. eapply In_firstn; eauto.
           ++ apply (Dj1 t It). apply in_or_app. now right.
      * rewrite Tl'. intros t It. apply in_app_or in It.
        destruct It as [It|[<-|It]].
        -- rewrite Po'.
           ++ apply Pp. eapply In_firstn; eauto.
           ++ apply C. eapply In_firstn; eauto.
           ++ rewrite Tg'. intro I2. apply (Dj1 t It). apply in_or_app. now left.
        -- exact Pg'.
        -- rewrite Po'.
           ++ apply Pp. eapply In_skipn; eauto.
           ++ apply C. eapply In_skipn; eauto.
           ++ rewrite Tg'. intro I2. apply (Dj2 t I2 It).
    + (* the groups stay linked *)
      intros HP g Hg. destruct (Nat.eq_dec g (length h)) as [->|N].
      * split; [|exact Ps'].
        rewrite Tg'. destruct (Pt HP) as [Nd _]. fold cur in Nd.
        rewrite (slice_decompose cur (Z.to_nat o) (Z.to_nat (k - off + 1))
                   ltac:(lia)) in Nd.
        destruct (NoDup_app_inv _ _ Nd) as (_ & Nd23 & _).
        destruct (NoDup_app_inv _ _ Nd23) as (Nd2 & _ & _). exact Nd2.
      * assert (Lg : (n0 <= g < length h)%nat) by lia.
        destruct (Pc HP g Lg) as [Nd Pp]. split.
        -- rewrite T' by lia. exact Nd.
        -- rewrite T' by lia. intros t It. rewrite Po'.
           ++ apply Pp, It.
           ++ destruct (G g Lg t It). lia.
           ++ rewrite Tg'. intro I2.
              assert (Ic : In t cur)
                by (apply In_firstn in I2; eapply In_skipn; eauto).
              destruct (Pt HP) as [_ Pt2]. fold cur in Pt2.
              pose proof (Pp t It) as P1. rewrite (Pt2 t Ic) in P1.
              inversion P1. lia.
    + rewrite L'. lia.
    + unfold len in *. cbn [length] in *. lia.
    + exists st, h''. rewrite E''. split; [reflexivity|]. split; [lia|].
      split; [exact D''|]. split; [exact S''|]. split; [exact K''|].
      split; [intros j Lj; rewrite A'' by lia; apply A', Lj|].
      split; [exact Pt''|]. split; [exact Pc''|].
      split; [|split; [exact G''|exact C'']].
      intros j Lj Nj. rewrite T'' by (auto; lia). apply T'; auto.
Qed.

Lemma group_matching_body_eq self_ tlist c mo mc opens off k token h :
  M_OPEN c = Ok (Tuple mo) -> M_CLOSE c = Ok (Tuple mc) ->
  _group_matching_body self_ tlist c (opens, off) (k, token) h
  = if is_whitespace (deref h token) then Ok ((opens, off), h)
    else if is_group (deref h token) && negb (isinstance (deref h token) [c])
    then match self_ token h with
         | Ok (_, h') => Ok ((opens, off), h')
         | Raise e => Raise e
         end
    else if match_spec (deref h token) mo then Ok ((k - off :: opens, off), h)
    else if match_spec (deref h token) mc then
      match opens with
      | [] => Ok ((opens, off), h)
      | o :: r =>
          match group_tokens tlist c (Some o) (Some (k - off)) true false h with
          | Ok (_, h') => Ok ((r, off + (k - off - o)), h')
          | Raise e => Raise e
          end
      end
    else Ok ((opens, off), h).
Proof.
  intros Mo Mc.
  unfold _group_matching_body, bind, get, lift, ret.
  rewrite Mo, Mc. cbn [match_star].
  destruct (is_whitespace (deref h token)); [reflexivity|].
  destruct (is_group (deref h token) && negb (isinstance (deref h token) [c])).
  { destruct (self_ token h) as [[? ?]|]; reflexivity. }
  destruct (match_spec (deref h token) mo); [reflexivity|].
  destruct (match_spec (deref h token) mc); [|reflexivity].
  destruct opens as [|o r]; [reflexivity|].
  destruct (group_tokens tlist c (Some o) (Some (k - off)) true false h)
    as [[? ?]|]; reflexivity.
Qed.

(** A quiet run changes nothing. *)
Lemma scan_fold h c mo mc self_ tlist :
  M_OPEN c = Ok (Tuple mo) -> M_CLOSE c = Ok (Tuple mc) ->
  forall l idx opens opens',
    scan h c mo mc idx l opens = Some opens' ->
    fold_m (enumerate_from idx l) (_group_matching_body self_ tlist c)
           (opens, 0) h = Ok ((opens', 0), h).
Proof.
  intros Mo Mc l. induction l as [|t l IH]; intros idx opens opens' H.
  - simpl in *. unfold ret. congruence.
  - cbn [scan] in H. cbn [enumerate_from fold_m]. unfold bind at 1.
    rewrite (group_matching_body_eq _ _ _ mo mc) by auto.
    replace (idx - 0) with idx by lia.
    destruct (is_whitespace (deref h t)); [now apply IH|].
    destruct (is_group (deref h t) && negb (isinstance (deref h t) [c]));
      [discriminate|].
    destruct (match_spec (deref h t) mo); [now apply IH|].
    destruct (match_spec (deref h t) mc); [|now apply IH].
    destruct opens; [now apply IH|discriminate].
Qed.

(** When [_group_matching(tlist, cls)] runs on a list of leaves that is
    no longer than the recursion limit, it returns, and every object it
    creates is a group of class [cls] whose first child matches
    [cls.M_OPEN] and whose last child matches [cls.M_CLOSE].  (Later passes
    may still move a comment into such a group.) *)
Theorem group_matching_delimits :
  forall (c : cls) (mo mc : mspec) (fuel : nat) (h : heap) (tlist : nat),
    M_OPEN c = Ok (Tuple mo) -> M_CLOSE c = Ok (Tuple mc) ->
    (tlist < length h)%nat ->
    (forall t, In t (sql.tokens (deref h tlist)) ->
       (t < length h)%nat /\ is_group (deref h t) = false) ->
    (length (sql.tokens (deref h tlist)) <= recursion_limit)%nat ->
    exists h',
      _group_matching (S fuel) tlist c h = Ok (tt, h')
      /\ (length h <= length h')%nat
      /\ forall g, (length h <= g < length h')%nat -> delimited h' g c mo mc.
Proof.
  intros c mo mc fuel h tlist Mo Mc Lt Leaves Hd.
  cbn [_group_matching]. unfold bind at 1, get at 1.
  destruct (group_matching_fold False c mo mc
              (fun token => _group_matching fuel token c) tlist (length h)
              (sql.tokens (deref h tlist)) Mo Mc (sql.tokens (deref h tlist)) 0 [] 0 h)
    as (st & h' & E & L & D & _).
  - lia.
  - intros g Hg. lia.
  - intros g Hg. lia.
  - intros t It. destruct (Leaves t It). auto.
  - intros t It. destruct (Leaves t It). auto.
  - lia.
  - lia.
  - reflexivity.
  - exact I.
  - split; [reflexivity|exact I].
  - intros k' _. unfold expand. apply concat_res_leaves.
    intros t It. apply (Leaves t It).
  - intros [].
  - intros [].
  - lia.
  - unfold len. lia.
  - unfold bind. rewrite E. unfold ret. eauto.
Qed.

Lemma group_matching_delimits_witness :
  exists h',
    _group_matching 1 3 Parenthesis heap_paren_pair = Ok (tt, h')
    /\ (length heap_paren_pair <= length h')%nat
    /\ forall g, (length heap_paren_pair <= g < length h')%nat ->
                 delimited h' g Parenthesis (m2 T.Punctuation ["("])
                           (m2 T.Punctuation [")"]).
Proof.
  apply (group_matching_delimits Parenthesis (m2 T.Punctuation ["("])
           (m2 T.Punctuation [")"]) 0 heap_paren_pair 3).
  - reflexivity.
  - reflexivity.
  - vm_compute. lia.
  - intros t It. vm_compute in It.
    destruct It as [<-|[<-|[<-|[]]]]; split; vm_compute; (lia || reflexivity).
  - apply Nat.leb_le. vm_compute. reflexivity.
Defined.

(** ** The matchers on trees of any shape *)

Lemma reach_trans h a b d : reach h a b -> reach h b d -> reach h a d.
Proof.
  induction 1 as [i|i t j It Gt R IH]; intro H; [exact H|].
  eapply reach_step; eauto.
Qed.

Lemma reach_child h a t :
  In t (sql.tokens (deref h a)) -> is_group (deref h t) = true -> reach h a t.
Proof. intros It Gt. eapply reach_step; eauto. apply reach_refl. Qed.

Lemma concat_res_cons_inv {A B} (f : A -> res (list B)) t r l :
  concat_res f (t :: r) = Ok l ->
  exists x lr, f t = Ok x /\ concat_res f r = Ok lr /\ l = x ++ lr.
Proof.
  cbn [concat_res]. destruct (f t) as [x|e]; [|discriminate].
  destruct (concat_res f r) as [lr|e]; [|discriminate].
  intro E. injection E as <-. eauto.
Qed.

Lemma concat_res_In {A B} (f : A -> res (list B)) l r t :
  concat_res f l = Ok r -> In t l -> exists x, f t = Ok x.
Proof.
  revert r; induction l as [|u l IH]; intros r E It; [destruct It|].
  apply concat_res_cons_inv in E. destruct E as (x & lr & Ex & Er & _).
  destruct It as [<-|It]; eauto.
Qed.

(** More fuel flattens to the same leaves. *)
Lemma flatten_mono h : forall k i l,
  flatten k h i = Ok l -> forall k', (k <= k')%nat -> flatten k' h i = Ok l.
Proof.
  induction k as [|k IH]; intros i l E k' Hk; [discriminate|].
  destruct k' as [|k']; [lia|]. rewrite flatten_S in *. unfold expand in *.
  revert l E. generalize (sql.tokens (deref h i)) as ts.
  induction ts as [|t ts IHt]; intros l E; [exact E|].
  apply concat_res_cons_inv in E. destruct E as (x & lr & Ex & Er & ->).
  cbn [concat_res]. rewrite (IHt lr Er).
  revert Ex. destruct (is_group (deref h t)); intro Ex.
  - rewrite (IH t x Ex k') by lia. reflexivity.
  - injection Ex as <-. reflexivity.
Qed.

Lemma expand_mono h k l r :
  expand k h l = Ok r -> forall k', (k <= k')%nat -> expand k' h l = Ok r.
Proof.
  unfold expand. revert r; induction l as [|t l IH]; intros r E k' Hk;
    [exact E|].
  apply concat_res_cons_inv in E. destruct E as (x & lr & Ex & Er & ->).
  cbn [concat_res]. rewrite (IH lr Er k' Hk).
  revert Ex. destruct (is_group (deref h t)); intro Ex.
  - rewrite (flatten_mono h k t x Ex k' Hk). reflexivity.
  - injection Ex as <-. reflexivity.
Qed.

(** An object that flattens lies on no cycle. *)
Lemma fin_no_cycle h : forall k a l,
  flatten k h a = Ok l ->
  forall t, In t (sql.tokens (deref h a)) -> is_group (deref h t) = true ->
            reach h t a -> False.
Proof.
  induction k as [|k IH]; intros a l E t It Gt R; [discriminate|].
  rewrite flatten_S in E. unfold expand in E.
  destruct (concat_res_In _ _ _ t E It) as [x Ex]. rewrite Gt in Ex.
  inversion R as [i|i t' j It' Gt' R']; subst.
  - apply (IH a x Ex a It Gt). apply reach_refl.
  - apply (IH t x Ex t' It' Gt').
    eapply reach_trans; [exact R'|]. apply reach_child; assumption.
Qed.

(** [flatten] reads only the objects it reaches. *)
Lemma flatten_local h h' :
  well_formed h ->
  (forall t, (t < length h)%nat ->
             is_group (deref h' t) = is_group (deref h t)) ->
  forall k i, (i < length h)%nat ->
    (forall j, reach h i j -> sql.tokens (deref h' j) = sql.tokens (deref h j)) ->
    flatten k h' i = flatten k h i.
Proof.
  intros [Cl _] Hg. induction k as [|k IH]; intros i Li Ht; [reflexivity|].
  rewrite !flatten_S. unfold expand. rewrite (Ht i (reach_refl h i)).
  apply concat_res_ext. intros t It.
  pose proof (Cl i t Li It) as Lt. rewrite (Hg t Lt).
  destruct (is_group (deref h t)) eqn:Gt; [|reflexivity].
  apply IH; [exact Lt|]. intros j R. apply Ht.
  eapply reach_step; eauto.
Qed.

Lemma rdepth_mono c h : forall k i,
  rdepth c k h i -> forall k', (k <= k')%nat -> rdepth c k' h i.
Proof.
  induction k as [|k IH]; intros i H k' Hk; [destruct H|].
  destruct k' as [|k']; [lia|]. cbn [rdepth] in *.
  intros t It Rt. apply (IH t (H t It Rt)). lia.
Qed.

Lemma recursed_is_group c n : recursed c n = true -> is_group n = true.
Proof. unfold recursed. intro H. apply andb_prop in H. apply H. Qed.

Lemma rdepth_of_flatten c h : forall k i l,
  flatten k h i = Ok l -> rdepth c k h i.
Proof.
  induction k as [|k IH]; intros i l E; [discriminate|].
  cbn [rdepth]. intros t It Rt.
  rewrite flatten_S in E. unfold expand in E.
  destruct (concat_res_In _ _ _ t E It) as [x Ex].
  rewrite (recursed_is_group _ _ Rt) in Ex. eapply IH; eauto.
Qed.

Lemma attrs_recursed c a b : attrs a = attrs b -> recursed c a = recursed c b.
Proof.
  intro H. unfold recursed.
  now rewrite (attrs_is_group _ _ H), (attrs_isinstance _ _ _ H).
Qed.

Lemma evolves_refl c h : well_formed h -> evolves c h h.
Proof.
  intro W. split; [lia|]. split; [auto|]. split.
  - intros j k l _ E. now rewrite Nat.sub_diag, Nat.add_0_r.
  - split; [auto|]. split; [auto|exact W].
Qed.

Lemma evolves_trans c h1 h2 h3 :
  evolves c h1 h2 -> evolves c h2 h3 -> evolves c h1 h3.
Proof.
  intros (L1 & A1 & F1 & R1 & D1 & W1) (L2 & A2 & F2 & R2 & D2 & W2).
  split; [lia|]. split; [|split; [|split; [|split; [|exact W2]]]].
  - intros j Lj. rewrite A2 by lia. now apply A1.
  - intros j k l Lj E.
    replace (k + (length h3 - length h1))%nat
      with (k + (length h2 - length h1) + (length h3 - length h2))%nat by lia.
    apply F2; [lia|]. now apply F1.
  - intros a b La Lb R. apply R1; auto. apply R2; auto; lia.
  - intros k j Lj H. apply D2; [lia|]. now apply D1.
Qed.

Lemma reach_closed h i j :
  well_formed h -> (i < length h)%nat -> reach h i j -> (j < length h)%nat.
Proof.
  intros [Cl _] Li R. induction R as [i|i t j It Gt R IH]; [exact Li|].
  apply IH. apply (Cl i t Li It).
Qed.

Lemma attrs_ttype a b : attrs a = attrs b -> ttype_ a = ttype_ b.
Proof.
  intro H. change (ttype_ (attrs a) = ttype_ (attrs b)). now rewrite H.
Qed.

(** The constructor on a heap of any shape, for children that flatten
    within the recursion limit. *)
Lemma new_group_gen h c l ll :
  well_formed h ->
  (forall t, In t l -> (t < length h)%nat) ->
  expand (pred recursion_limit) h l = Ok ll ->
  exists h', new_group c l h = Ok (length h, h')
    /\ length h' = S (length h)
    /\ (forall j, (j < length h)%nat -> same_but_parent (deref h' j) (deref h j))
    /\ class_ (deref h' (length h)) = c
    /\ is_group (deref h' (length h)) = true
    /\ sql.tokens (deref h' (length h)) = l
    /\ ttype_ (deref h' (length h)) = None
    /\ is_whitespace (deref h' (length h)) = false.
Proof.
  intros W C Ex.
  unfold new_group, TokenList__init__.
  unfold bind at 1. unfold alloc at 1.
  set (fresh := mkNode c "" None None "" false false false []).
  set (g := length h).
  destruct (set_parents_frame g l (h ++ [fresh])) as (h2 & E2 & [L2 S2] & O2 & _).
  unfold bind at 1. rewrite E2.
  assert (L2' : length h2 = S g) by (rewrite L2, length_app; simpl; lia).
  unfold bind at 1. unfold setattr at 1, bind at 1, get at 1, put at 1.
  set (h3 := list_set h2 g (sql.set_tokens (deref h2 g) l)).
  assert (L3 : length h3 = S g) by (unfold h3; now rewrite length_list_set).
  assert (D3 : deref h3 g = sql.set_tokens (deref h2 g) l)
    by (unfold h3; apply deref_put_same; lia).
  assert (O3 : forall j, (j < g)%nat -> same_but_parent (deref h3 j) (deref h j)).
  { intros j Lj. unfold h3. rewrite deref_put_other by lia.
    eapply sbp_trans; [apply S2|]. rewrite deref_app_old by exact Lj.
    apply sbp_refl. }
  assert (T3 : sql.tokens (deref h3 g) = l)
    by (rewrite D3; now destruct (deref h2 g)).
  assert (Ev : exists v, text_type g h3 = Ok (v, h3)).
  { unfold text_type, bind, get.
    destruct (cls_beq (class_ (deref h3 g)) Token); [unfold ret; eauto|].
    unfold __str__. destruct recursion_limit_S as [k0 Ek].
    rewrite Ek in *. cbn [pred] in Ex. rewrite flatten_S, T3.
    assert (Ee : expand k0 h3 l = expand k0 h l).
    { unfold expand. apply concat_res_ext. intros t It.
      pose proof (C t It) as Lt. fold g in Lt.
      rewrite (sbp_is_group _ _ (O3 t Lt)).
      destruct (is_group (deref h t)); [|reflexivity].
      apply (flatten_local h h3 W).
      - intros u Lu. apply sbp_is_group, O3, Lu.
      - exact Lt.
      - intros j R. apply sbp_tokens, O3.
        apply (reach_closed h t j W Lt R). }
    rewrite Ee, Ex. eauto. }
  destruct Ev as [v Ev].
  unfold bind at 1. rewrite Ev.
  unfold bind, get, put, ret.
  eexists; split; [reflexivity|].
  split; [now rewrite length_list_set|].
  split; [|rewrite deref_put_same by lia; rewrite D3].
  - intros j Lj. rewrite deref_put_other by lia. now apply O3.
  - assert (Cg : class_ (deref h2 g) = c).
    { rewrite (attrs_class _ _ (sbp_attrs _ _ (S2 g))).
      unfold deref, g. now rewrite nth_middle. }
    destruct (deref h2 g); simpl in *; auto 10.
Qed.

(** [group_tokens] without [extend] on a list of any children that
    flatten within the recursion limit. *)
Lemma group_tokens_gen h self c o e ll :
  (self < length h)%nat ->
  well_formed h ->
  0 <= o <= e -> e < len (sql.tokens (deref h self)) ->
  expand (pred recursion_limit) h
         (firstn (Z.to_nat (e + 1) - Z.to_nat o)
                 (skipn (Z.to_nat o) (sql.tokens (deref h self)))) = Ok ll ->
  exists h',
    group_tokens self c (Some o) (Some e) true false h = Ok (length h, h')
    /\ length h' = S (length h)
    /\ (forall j, (j < length h)%nat -> attrs (deref h' j) = attrs (deref h j))
    /\ (forall j, (j < length h)%nat -> j <> self ->
          sql.tokens (deref h' j) = sql.tokens (deref h j))
    /\ sql.tokens (deref h' self)
       = firstn (Z.to_nat o) (sql.tokens (deref h self)) ++ [length h]
         ++ skipn (Z.to_nat (e + 1)) (sql.tokens (deref h self))
    /\ class_ (deref h' (length h)) = c
    /\ is_group (deref h' (length h)) = true
    /\ sql.tokens (deref h' (length h))
       = firstn (Z.to_nat (e + 1) - Z.to_nat o)
                (skipn (Z.to_nat o) (sql.tokens (deref h self)))
    /\ ttype_ (deref h' (length h)) = None
    /\ is_whitespace (deref h' (length h)) = false.
Proof.
  intros Hs W Ho He Ex.
  set (cur := sql.tokens (deref h self)) in *.
  set (sub := firstn (Z.to_nat (e + 1) - Z.to_nat o) (skipn (Z.to_nat o) cur))
    in *.
  assert (Csub : forall t, In t sub -> (t < length h)%nat).
  { intros t Ht. apply (proj1 W self t Hs). fold cur. unfold sub in Ht.
    apply In_firstn in Ht. eapply In_skipn; eauto. }
  destruct (new_group_gen h c sub ll W Csub Ex)
    as (h1 & E1 & L1 & S1 & K1 & I1 & T1 & Y1 & W1).
  set (g := length h) in *.
  unfold group_tokens.
  unfold bind at 1, get at 1. fold cur.
  unfold bind at 1. rewrite (py_index_ok cur o 0%nat) by lia. unfold lift at 1.
  unfold bind at 1, get at 1.
  cbn [andb]. rewrite (py_slice_ok cur o e) by lia. fold sub.
  unfold bind at 1. rewrite E1.
  unfold bind at 1, setattr at 1, bind at 1, get at 1, put at 1.
  assert (Tc : sql.tokens (deref h1 self) = cur)
    by (apply sbp_tokens, S1; lia).
  rewrite Tc, (py_slice_assign_ok cur [g] o e) by lia.
  set (cur' := firstn (Z.to_nat o) cur ++ [g] ++ skipn (Z.to_nat (e + 1)) cur).
  set (h2 := list_set h1 self (sql.set_tokens (deref h1 self) cur')).
  unfold bind at 1, setattr at 1, bind at 1, get at 1, put at 1.
  set (h3 := list_set h2 g (set_parent (deref h2 g) (Some self))).
  destruct (for_each_parent_frame sub (Some g) h3) as (h4 & E4 & [L4 S4] & O4 & P4).
  unfold bind at 1. rewrite E4. unfold ret.
  exists h4. split; [reflexivity|].
  assert (L2 : length h2 = S g) by (unfold h2; now rewrite length_list_set).
  assert (L3 : length h3 = S g) by (unfold h3; now rewrite length_list_set).
  assert (D2s : deref h2 self = sql.set_tokens (deref h1 self) cur')
    by (unfold h2; apply deref_put_same; lia).
  assert (D2o : forall j, j <> self -> deref h2 j = deref h1 j)
    by (intros; unfold h2; apply deref_put_other; auto).
  assert (D3g : deref h3 g = set_parent (deref h1 g) (Some self)).
  { unfold h3. rewrite deref_put_same by lia. rewrite D2o by lia. reflexivity. }
  assert (D3o : forall j, j <> g -> deref h3 j = deref h2 j)
    by (intros; unfold h3; apply deref_put_other; auto).
  split; [congruence|].
  split; [|split; [|split; [|split; [|split; [|split; [|split]]]]]].
  - intros j Lj. rewrite (sbp_attrs _ _ (S4 j)), D3o by lia.
    destruct (Nat.eq_dec j self) as [->|N].
    + rewrite D2s, attrs_set_tokens. apply sbp_attrs, S1; lia.
    + rewrite D2o by auto. apply sbp_attrs, S1; lia.
  - intros j Lj N. rewrite (sbp_tokens _ _ (S4 j)), D3o, D2o by lia.
    apply sbp_tokens, S1; lia.
  - rewrite (sbp_tokens _ _ (S4 self)), D3o, D2s by lia.
    now destruct (deref h1 self).
  - rewrite (attrs_class _ _ (sbp_attrs _ _ (S4 g))), D3g.
    rewrite <- K1. now destruct (deref h1 g).
  - rewrite (sbp_is_group _ _ (S4 g)), D3g.
    rewrite <- I1. now destruct (deref h1 g).
  - rewrite (sbp_tokens _ _ (S4 g)), D3g.
    rewrite <- T1. now destruct (deref h1 g).
  - change (ttype_ (attrs (deref h4 g)) = None).
    rewrite (sbp_attrs _ _ (S4 g)), D3g, attrs_set_parent. exact Y1.
  - rewrite (attrs_is_whitespace _ _ (sbp_attrs _ _ (S4 g))), D3g.
    rewrite <- W1. now destruct (deref h1 g).
Qed.

(** One more group: what [group_tokens] makes of the heap is an
    evolution of it. *)
Lemma group_step_evolves c h h' L pre sub post :
  well_formed h -> (L < length h)%nat ->
  sql.tokens (deref h L) = pre ++ sub ++ post ->
  length h' = S (length h) ->
  (forall j, (j < length h)%nat -> attrs (deref h' j) = attrs (deref h j)) ->
  (forall j, (j < length h)%nat -> j <> L ->
     sql.tokens (deref h' j) = sql.tokens (deref h j)) ->
  sql.tokens (deref h' L) = pre ++ [length h] ++ post ->
  class_ (deref h' (length h)) = c ->
  is_group (deref h' (length h)) = true ->
  sql.tokens (deref h' (length h)) = sub ->
  ttype_ (deref h' (length h)) = None ->
  evolves c h h'.
Proof.
  intros W LL Tl L' A T Tl' Kg Ig Tg Yg.
  set (g := length h) in *.
  destruct W as [Cl Un].
  assert (Hcur : forall t, In t (pre ++ sub ++ post) -> (t < g)%nat).
  { intros t It. apply (Cl L t LL). now rewrite Tl. }
  assert (Hpre : forall t, In t pre -> (t < g)%nat)
    by (intros; apply Hcur, in_or_app; auto).
  assert (Hsub : forall t, In t sub -> (t < g)%nat)
    by (intros; apply Hcur, in_or_app; right; apply in_or_app; auto).
  assert (Hpost : forall t, In t post -> (t < g)%nat)
    by (intros; apply Hcur, in_or_app; right; apply in_or_app; auto).
  assert (Ig' : forall t, (t < g)%nat ->
            is_group (deref h' t) = is_group (deref h t))
    by (intros; apply attrs_is_group, A; assumption).
  split; [lia|]. split; [exact A|].
  split; [|split; [|split]].
  - (* the leaves stay, one level deeper at most *)
    replace (length h' - length h)%nat with 1%nat by (unfold g in L'; lia).
    intros j k. revert j. induction k as [|k IH]; intros j l Lj E;
      [discriminate|].
    rewrite Nat.add_1_r. rewrite flatten_S in *.
    assert (X : forall ts r, (forall t, In t ts -> (t < g)%nat) ->
              expand k h ts = Ok r -> expand (S k) h' ts = Ok r).
    { unfold expand. induction ts as [|t ts IHt]; intros r Hts Er; [exact Er|].
      apply concat_res_cons_inv in Er. destruct Er as (x & lr & Ex & Er & ->).
      cbn [concat_res]. rewrite (IHt lr) by (auto; intros; apply Hts; now right).
      rewrite Ig' by (apply Hts; now left).
      revert Ex. destruct (is_group (deref h t)); intro Ex.
      - pose proof (IH t x (Hts t (or_introl eq_refl)) Ex) as Hx.
        rewrite Nat.add_1_r in Hx. rewrite Hx. reflexivity.
      - injection Ex as <-. reflexivity. }
    destruct (Nat.eq_dec j L) as [->|N].
    + rewrite Tl'. rewrite Tl in E.
      unfold expand in E.
      destruct (concat_res_app_ok _ _ _ _ E) as (la & lsp & Ea & Esp & ->).
      destruct (concat_res_app_ok _ _ _ _ Esp) as (ls & lp & Es & Ep & ->).
      unfold expand. apply concat_res_app_eq; [apply (X pre la Hpre Ea)|].
      apply concat_res_app_eq; [|apply (X post lp Hpost Ep)].
      cbn [concat_res]. rewrite Ig, flatten_S, Tg.
      assert (Es' : expand k h' sub = Ok ls).
      { unfold expand. rewrite <- Es. apply concat_res_ext. intros s Is.
        rewrite Ig' by (apply Hsub, Is).
        destruct (is_group (deref h s)) eqn:Gs; [|reflexivity].
        apply (flatten_local h h' (conj Cl Un) Ig' k s (Hsub s Is)).
        intros u R. apply T.
        - apply (reach_closed h s u (conj Cl Un) (Hsub s Is) R).
        - intros ->.
          assert (EL : flatten (S k) h L = Ok (la ++ ls ++ lp)).
          { rewrite flatten_S, Tl. exact E. }
          apply (fin_no_cycle h (S k) L _ EL s); auto.
          rewrite Tl. apply in_or_app. right. apply in_or_app. now left. }
      rewrite Es'. now rewrite app_nil_r.
    + rewrite T by auto. apply X; [|exact E].
      intros t It. apply (Cl j t Lj It).
  - (* nothing new is reached *)
    assert (Rb : forall a b, reach h' a b -> (b < g)%nat ->
              ((a < g)%nat -> reach h a b) /\ (a = g -> reach h L b)).
    { induction 1 as [i|i t j It Gt R IH]; intro Lb.
      - split; [intros; apply reach_refl|intros ->; lia].
      - destruct (IH Lb) as [IH1 IH2]. split.
        + intro Li. destruct (Nat.eq_dec i L) as [->|N].
          * rewrite Tl' in It. apply in_app_or in It.
            destruct It as [It|[<-|It]].
            -- apply (reach_step h L t j); [rewrite Tl; apply in_or_app; auto| |].
               ++ rewrite <- Ig' by (apply Hpre, It). exact Gt.
               ++ apply IH1, Hpre, It.
            -- apply IH2. reflexivity.
            -- apply (reach_step h L t j).
               ++ rewrite Tl. apply in_or_app. right. apply in_or_app. auto.
               ++ rewrite <- Ig' by (apply Hpost, It). exact Gt.
               ++ apply IH1, Hpost, It.
          * rewrite T in It by auto.
            pose proof (Cl i t Li It) as Lt.
            apply (reach_step h i t j); [exact It| |apply IH1, Lt].
            rewrite <- Ig' by exact Lt. exact Gt.
        + intros ->. rewrite Tg in It.
          apply (reach_step h L t j).
          * rewrite Tl. apply in_or_app. right. apply in_or_app. auto.
          * rewrite <- Ig' by (apply Hsub, It). exact Gt.
          * apply IH1, Hsub, It. }
    intros a b La Lb R. apply (Rb a b R Lb). exact La.
  - (* the search goes no deeper *)
    induction k as [|k IH]; intros j Lj H; [destruct H|].
    cbn [rdepth] in *. intros t It Rt.
    assert (Old : forall t, (t < g)%nat -> In t (sql.tokens (deref h j)) ->
              recursed c (deref h' t) = true -> rdepth c k h' t).
    { intros u Lu Iu Ru. apply IH; [exact Lu|]. apply (H u Iu).
      rewrite <- (attrs_recursed c _ _ (A u Lu)). exact Ru. }
    destruct (Nat.eq_dec j L) as [->|N].
    + rewrite Tl' in It. rewrite Tl in Old.
      apply in_app_or in It. destruct It as [It|[<-|It]].
      * apply Old; auto. apply in_or_app. now left.
      * exfalso. unfold recursed, isinstance in Rt. cbn [existsb] in Rt.
        rewrite Kg, issubclass_refl in Rt. cbn in Rt.
        rewrite andb_false_r in Rt. discriminate.
      * apply Old; auto. apply in_or_app. right. apply in_or_app. now right.
    + rewrite T in It by auto. apply Old; auto. apply (Cl j t Lj It).
  - (* well-formedness *)
    split.
    + intros j t Lj It. rewrite L' in *.
      destruct (Nat.eq_dec j g) as [->|Ng].
      * rewrite Tg in It. pose proof (Hsub t It). lia.
      * assert (Lj' : (j < g)%nat) by lia.
        destruct (Nat.eq_dec j L) as [->|N].
        -- rewrite Tl' in It. apply in_app_or in It.
           destruct It as [It|[<-|It]].
           ++ pose proof (Hpre t It). lia.
           ++ lia.
           ++ pose proof (Hpost t It). lia.
        -- rewrite T in It by auto. pose proof (Cl j t Lj' It). lia.
    + intros j Lj Gj. rewrite L' in Lj.
      destruct (Nat.eq_dec j g) as [->|Ng]; [exact Yg|].
      assert (Lj' : (j < g)%nat) by lia.
      rewrite (attrs_ttype _ _ (A j Lj')). apply Un; [exact Lj'|].
      rewrite <- Ig' by exact Lj'. exact Gj.
Qed.

Lemma opens_sat_weaken h cur po b b' opens :
  b <= b' -> opens_sat h cur po b opens -> opens_sat h cur po b' opens.
Proof.
  destruct opens as [|o r]; simpl; auto.
  intros Hb (Ho & Ht & Hr). split; [lia|auto].
Qed.

Lemma opens_sat_change h h' cur cur' po b opens :
  (forall x y, attrs x = attrs y -> po x = po y) ->
  (forall i, (Z.of_nat i < b) -> nth_error cur' i = nth_error cur i) ->
  (forall t, In t cur -> attrs (deref h' t) = attrs (deref h t)) ->
  opens_sat h cur po b opens -> opens_sat h' cur' po b opens.
Proof.
  intro Hpo. revert b; induction opens as [|o r IH]; intros b Hn Ha; simpl; auto.
  intros (Ho & (t & Et & Mt) & Hr). split; [exact Ho|]. split.
  - exists t. rewrite Hn by lia. split; [exact Et|].
    rewrite (Hpo _ _ (Ha t (nth_error_In _ _ Et))). exact Mt.
  - apply IH; auto. intros i Hi. apply Hn. lia.
Qed.

Lemma enclosed_preserved c po pc h h' g :
  (forall x y, attrs x = attrs y -> po x = po y) ->
  (forall x y, attrs x = attrs y -> pc x = pc y) ->
  well_formed h -> (g < length h)%nat ->
  (forall j, (j < length h)%nat -> attrs (deref h' j) = attrs (deref h j)) ->
  sql.tokens (deref h' g) = sql.tokens (deref h g) ->
  enclosed h g c po pc -> enclosed h' g c po pc.
Proof.
  intros Hpo Hpc [Cl _] Lg A T (Kc & Ig & Hf & Hl).
  assert (Old : forall t, In t (sql.tokens (deref h g)) -> (t < length h)%nat)
    by (intros t It; apply (Cl g t Lg It)).
  split; [|split; [|split]].
  - rewrite (attrs_class _ _ (A g Lg)). exact Kc.
  - rewrite (attrs_is_group _ _ (A g Lg)). exact Ig.
  - unfold first_is in *. rewrite T.
    destruct (sql.tokens (deref h g)) as [|t r]; [discriminate|].
    rewrite (Hpo _ _ (A t (Old t (or_introl eq_refl)))). exact Hf.
  - unfold last_is in *. rewrite T.
    destruct (rev (sql.tokens (deref h g))) as [|t r] eqn:Er; [discriminate|].
    assert (It : In t (sql.tokens (deref h g))).
    { apply in_rev. rewrite Er. now left. }
    rewrite (Hpc _ _ (A t (Old t It))). exact Hl.
Qed.

Lemma expand_evolves c h h' k l r :
  evolves c h h' -> (forall t, In t l -> (t < length h)%nat) ->
  expand k h l = Ok r ->
  expand (k + (length h' - length h)) h' l = Ok r.
Proof.
  intros (_ & A & F & _). unfold expand.
  revert r; induction l as [|t l IH]; intros r Hl E; [exact E|].
  apply concat_res_cons_inv in E. destruct E as (x & lr & Ex & Er & ->).
  cbn [concat_res].
  rewrite (IH lr) by (auto; intros; apply Hl; now right).
  pose proof (Hl t (or_introl eq_refl)) as Lt.
  rewrite (attrs_is_group _ _ (A t Lt)).
  revert Ex. destruct (is_group (deref h t)); intro Ex.
  - rewrite (F t k x Lt Ex). reflexivity.
  - injection Ex as <-. reflexivity.
Qed.

(** The leaves of a slice of a list that flattens. *)
Lemma expand_slice h k (l : list nat) a b r :
  (a <= b)%nat -> expand k h l = Ok r ->
  exists rs, expand k h (firstn (b - a) (skipn a l)) = Ok rs.
Proof.
  intros Hab E. rewrite (slice_decompose l a b Hab) in E. unfold expand in E.
  destruct (concat_res_app_ok _ _ _ _ E) as (la & lsp & _ & Esp & _).
  destruct (concat_res_app_ok _ _ _ _ Esp) as (ls & lp & Es & _ & _).
  exists ls. exact Es.
Qed.

Section Matcher.

Variable c : cls.
Variables po pc : node -> bool.
Hypothesis po_attrs : forall x y, attrs x = attrs y -> po x = po y.
Hypothesis pc_attrs : forall x y, attrs x = attrs y -> pc x = pc y.
Hypothesis pc_leaf : forall n, ttype_ n = None -> pc n = false.

Variable St : Type.
Variable opens_of : St -> list Z.
Variable off_of : St -> Z.
Variable body : St -> Z * nat -> M St.
Variable self_ : nat -> M unit.
Variable tlist : nat.
Variable F : nat.

(** One round of the loop: the token is passed over, with its index
    pushed or not; or it is a group of another class, searched by the
    call [self_]; or it closes, and the tokens from the last open index
    on are grouped. *)
Hypothesis body_cases : forall st k token h,
  (exists st',
     body st (k, token) h = Ok (st', h)
     /\ off_of st' = off_of st
     /\ (opens_of st' = opens_of st
         \/ (opens_of st' = (k - off_of st) :: opens_of st
             /\ po (deref h token) = true)))
  \/ (recursed c (deref h token) = true
      /\ body st (k, token) h
         = match self_ token h with
           | Ok (_, h') => Ok (st, h')
           | Raise e => Raise e
           end)
  \/ (exists o r st',
        opens_of st = o :: r
        /\ pc (deref h token) = true
        /\ opens_of st' = r
        /\ off_of st' = off_of st + (k - off_of st - o)
        /\ body st (k, token) h
           = match group_tokens tlist c (Some o) (Some (k - off_of st))
                                true false h with
             | Ok (_, h') => Ok (st', h')
             | Raise e => Raise e
             end).

Hypothesis self_searches : forall t h1 d1 l1,
  (t < length h1)%nat -> well_formed h1 ->
  flatten d1 h1 t = Ok l1 ->
  (d1 + length l1 <= recursion_limit)%nat ->
  rdepth c F h1 t ->
  exists h2, self_ t h1 = Ok (tt, h2) /\ searched c po pc h1 h2 t l1.

Lemma matcher_fold :
  forall rest k st h dd L lr,
    (tlist < length h)%nat -> well_formed h ->
    0 <= k - off_of st ->
    len (sql.tokens (deref h tlist)) = k - off_of st + len rest ->
    skipn (Z.to_nat (k - off_of st)) (sql.tokens (deref h tlist)) = rest ->
    opens_sat h (sql.tokens (deref h tlist)) po (k - off_of st) (opens_of st) ->
    flatten (S dd) h tlist = Ok L ->
    expand dd h rest = Ok lr ->
    (dd + length lr < recursion_limit)%nat ->
    (forall t, In t rest -> recursed c (deref h t) = true -> rdepth c F h t) ->
    exists st' h',
      fold_m (enumerate_from k rest) body st h = Ok (st', h')
      /\ evolves c h h'
      /\ (length h' - length h <= length lr)%nat
      /\ (forall g, (length h <= g < length h')%nat -> enclosed h' g c po pc)
      /\ (forall j, (j < length h)%nat -> j <> tlist ->
            ~ (exists t, In t rest /\ recursed c (deref h t) = true
                         /\ reach h t j)
            \/ isinstance (deref h j) [c] = true ->
            sql.tokens (deref h' j) = sql.tokens (deref h j)).
Proof.
  induction rest as [|token rest IH];
    intros k st h dd L lr Hs W Hk Hl Hsk Hop HL Hr Hb Hd.
  - cbn [enumerate_from fold_m]. unfold ret. exists st, h.
    split; [reflexivity|]. split; [apply evolves_refl, W|].
    split; [lia|]. split; [intros g Hg; lia|]. auto.
  - destruct (skipn_cons_inv _ _ _ _ Hsk) as [Hnth Hsk'].
    set (cur := sql.tokens (deref h tlist)) in *.
    assert (Icur : In token cur) by (eapply nth_error_In; eauto).
    assert (Lt : (token < length h)%nat) by (apply (proj1 W tlist token Hs Icur)).
    assert (Rold : forall t, In t rest -> (t < length h)%nat).
    { intros t It. apply (proj1 W tlist t Hs). fold cur.
      rewrite <- (firstn_skipn (Z.to_nat (k - off_of st)) cur), Hsk.
      apply in_or_app. right. now right. }
    unfold expand in Hr. apply concat_res_cons_inv in Hr. destruct Hr as (x & lr' & Ex & Er & ->).
    rewrite length_app in Hb.
    cbn [enumerate_from fold_m]. unfold bind at 1.
    destruct (body_cases st k token h)
      as [(st1 & Eb & Eoff & Eop)|[(Rt & Eb)|(o & r & st1 & Eo & Pt & Eop & Eoff & Eb)]].
    + (* the token is passed over *)
      rewrite Eb.
      destruct (IH (k + 1) st1 h dd L lr') as (st' & h' & E' & Ev & Lc & En & Fr).
      * exact Hs.
      * exact W.
      * rewrite Eoff. lia.
      * fold cur. rewrite Eoff, Hl. unfold len. cbn [length]. lia.
      * rewrite Eoff.
        replace (Z.to_nat (k + 1 - off_of st))
          with (S (Z.to_nat (k - off_of st))) by lia.
        exact Hsk'.
      * fold cur. rewrite Eoff. destruct Eop as [->|[-> Pt]].
        -- eapply opens_sat_weaken; [|exact Hop]. lia.
        -- cbn [opens_sat]. split; [lia|]. split; [|exact Hop].
           exists token. split; [exact Hnth|exact Pt].
      * exact HL.
      * exact Er.
      * lia.
      * intros t It. apply Hd. now right.
      * exists st', h'. split; [exact E'|]. split; [exact Ev|].
        split; [rewrite length_app; lia|]. split; [exact En|].
        intros j Lj Nj Hj. apply Fr; auto.
        destruct Hj as [Hj|Hj]; [left|now right].
        intros (t & It & Rc & Re). apply Hj. exists t. split; [now right|auto].
    + (* a group of another class is searched *)
      rewrite Eb.
      pose proof (recursed_is_group _ _ Rt) as Gt. rewrite Gt in Ex.
      destruct (self_searches token h dd x Lt W Ex ltac:(lia)
                  (Hd token (or_introl eq_refl) Rt))
        as (h1 & E1 & Ev1 & Lc1 & En1 & Fr1).
      rewrite E1.
      pose proof Ev1 as (Le1 & A1 & F1 & R1 & D1 & W1).
      assert (Ncyc : ~ reach h token tlist).
      { intro R. apply (fin_no_cycle h (S dd) tlist L HL token Icur Gt R). }
      assert (Nt : tlist <> token).
      { intros <-. apply Ncyc, reach_refl. }
      assert (Tc : sql.tokens (deref h1 tlist) = cur).
      { apply Fr1; auto. }
      set (c1 := (length h1 - length h)%nat) in *.
      destruct (IH (k + 1) st h1 (dd + c1)%nat L lr')
        as (st' & h' & E' & Ev & Lc & En & Fr).
      * lia.
      * exact W1.
      * lia.
      * rewrite Tc, Hl. unfold len. cbn [length]. lia.
      * rewrite Tc.
        replace (Z.to_nat (k + 1 - off_of st))
          with (S (Z.to_nat (k - off_of st))) by lia.
        exact Hsk'.
      * rewrite Tc. apply (opens_sat_change h h1 cur cur po); auto.
        -- intros t It. apply A1. apply (proj1 W tlist t Hs It).
        -- eapply opens_sat_weaken; [|exact Hop]. lia.
      * replace (S (dd + c1)) with (S dd + c1)%nat by lia.
        apply F1; auto.
      * apply (expand_evolves c h h1 dd rest lr' Ev1 Rold Er).
      * lia.
      * intros t It Rc. apply D1; [apply Rold, It|].
        apply Hd; [now right|].
        rewrite <- (attrs_recursed c _ _ (A1 t (Rold t It))). exact Rc.
      * exists st', h'. split; [exact E'|].
        split; [eapply evolves_trans; eauto|].
        split; [destruct Ev as [Le _]; unfold c1 in *; rewrite length_app; lia|].
        pose proof Ev as (Le & A2 & _).
        split.
        -- intros g Hg.
           destruct (Nat.lt_ge_cases g (length h1)) as [Lo|Hi];
             [|apply En; lia].
           apply (enclosed_preserved c po pc h1 h' g); auto.
           ++ apply Fr; [exact Lo|lia|]. right.
              destruct (En1 g ltac:(lia)) as (Kg & _).
              unfold isinstance. cbn [existsb]. rewrite Kg, issubclass_refl.
              reflexivity.
           ++ apply En1. lia.
        -- intros j Lj Nj Hj.
           assert (Hj1 : sql.tokens (deref h1 j) = sql.tokens (deref h j)).
           { apply Fr1; [exact Lj| |].
             - intros ->. destruct Hj as [Hj|Hj].
               + apply Hj. exists token. split; [now left|].
                 split; [exact Rt|apply reach_refl].
               + unfold recursed in Rt. rewrite Hj in Rt.
                 rewrite andb_false_r in Rt. discriminate.
             - destruct Hj as [Hj|Hj]; [left|now right].
               intro Re. apply Hj. exists token. split; [now left|auto]. }
           rewrite <- Hj1. apply Fr; [lia|exact Nj|].
           destruct Hj as [Hj|Hj].
           ++ left. intros (t & It & Rc & Re). apply Hj.
              exists t. split; [now right|]. split.
              ** rewrite <- (attrs_recursed c _ _ (A1 t (Rold t It))). exact Rc.
              ** apply R1; auto.
           ++ right. rewrite (attrs_isinstance _ _ _ (A1 j Lj)). exact Hj.
    + (* the token closes a group *)
      rewrite Eb. rewrite Eo in Hop. cbn [opens_sat] in Hop.
      destruct Hop as (Ho & (to & Eto & Mto) & Hop').
      assert (Gt : is_group (deref h token) = false).
      { destruct (is_group (deref h token)) eqn:E; [|reflexivity].
        rewrite (pc_leaf _ (proj2 W token Lt E)) in Pt. discriminate. }
      rewrite Gt in Ex. injection Ex as <-.
      cbn [length app] in Hb.
      set (e := k - off_of st) in *.
      pose proof HL as HL'. rewrite flatten_S in HL'. fold cur in HL'.
      destruct (expand_slice h dd cur (Z.to_nat o) (Z.to_nat (e + 1)) L
                  ltac:(lia) HL') as (ls & Es).
      assert (Es' : expand (pred recursion_limit) h
                      (firstn (Z.to_nat (e + 1) - Z.to_nat o)
                              (skipn (Z.to_nat o) cur)) = Ok ls)
        by (apply (expand_mono h dd _ _ Es); lia).
      assert (He : e < len cur)
        by (rewrite Hl; unfold len; cbn [length]; lia).
      destruct (group_tokens_gen h tlist c o e ls Hs W ltac:(lia) He Es')
        as (h1 & E1 & L1 & A1 & T1 & Tl1 & K1 & I1 & Tg1 & Y1 & Wh1).
      fold cur in Tl1, Tg1. rewrite E1.
      assert (Ev1 : evolves c h h1).
      { apply (group_step_evolves c h h1 tlist (firstn (Z.to_nat o) cur)
                 (firstn (Z.to_nat (e + 1) - Z.to_nat o) (skipn (Z.to_nat o) cur))
                 (skipn (Z.to_nat (e + 1)) cur)); auto.
        fold cur. apply slice_decompose. lia. }
      pose proof Ev1 as (Le1 & _ & F1 & R1 & D1 & W1).
      assert (Lo : (Z.to_nat o <= length cur)%nat)
        by (unfold len in He; lia).
      destruct (IH (k + 1) st1 h1 (dd + 1)%nat L lr')
        as (st' & h' & E' & Ev & Lc & En & Fr).
      * lia.
      * exact W1.
      * rewrite Eoff. lia.
      * rewrite Eoff, Tl1. unfold len in *.
        rewrite !length_app, length_firstn, length_skipn.
        cbn [length] in *. lia.
      * rewrite Eoff, Tl1.
        replace (k + 1 - (off_of st + (k - off_of st - o))) with (o + 1) by lia.
        rewrite skipn_middle by (rewrite length_firstn; lia).
        rewrite <- Hsk'. f_equal. unfold e. lia.
      * rewrite Eoff, Eop, Tl1.
        replace (k + 1 - (off_of st + (k - off_of st - o))) with (o + 1) by lia.
        apply (opens_sat_weaken _ _ _ o); [lia|].
        apply (opens_sat_change h h1 cur); auto.
        -- intros i Hi. apply nth_error_firstn_app; lia.
        -- intros t It. apply A1. apply (proj1 W tlist t Hs It).
      * replace (S (dd + 1)) with (S dd + (length h1 - length h))%nat by lia.
        apply F1; auto.
      * replace (dd + 1)%nat with (dd + (length h1 - length h))%nat by lia.
        apply (expand_evolves c h h1 dd rest lr' Ev1 Rold Er).
      * lia.
      * intros t It Rc. apply D1; [apply Rold, It|].
        apply Hd; [now right|].
        rewrite <- (attrs_recursed c _ _ (A1 t (Rold t It))). exact Rc.
      * exists st', h'. split; [exact E'|].
        split; [eapply evolves_trans; eauto|].
        split; [destruct Ev as [Le _]; rewrite length_app; cbn [length]; lia|].
        pose proof Ev as (Le & A2 & _).
        split.
        -- intros g Hg.
           destruct (Nat.lt_ge_cases g (length h1)) as [Lg|Hi];
             [|apply En; lia].
           assert (g = length h) by lia. subst g.
           apply (enclosed_preserved c po pc h1 h' (length h)); auto.
           ++ apply Fr; [lia|lia|]. right.
              unfold isinstance. cbn [existsb]. rewrite K1, issubclass_refl.
              reflexivity.
           ++ split; [exact K1|]. split; [exact I1|].
              destruct (slice_ends cur (Z.to_nat o) (Z.to_nat e) to token
                          ltac:(lia) Eto Hnth) as [[m Em] [m' Em']].
              replace (Z.to_nat (e + 1) - Z.to_nat o)%nat
                with (S (Z.to_nat e) - Z.to_nat o)%nat in Tg1 by lia.
              unfold first_is, last_is. rewrite Tg1, Em', Em.
              assert (Hto : (to < length h)%nat)
                by (apply (proj1 W tlist to Hs); eapply nth_error_In; eauto).
              rewrite (po_attrs _ _ (A1 to Hto)), Mto.
              rewrite (pc_attrs _ _ (A1 token Lt)), Pt. auto.
        -- intros j Lj Nj Hj. rewrite <- (T1 j Lj Nj).
           apply Fr; [lia|exact Nj|].
           destruct Hj as [Hj|Hj].
           ++ left. intros (t & It & Rc & Re). apply Hj.
              exists t. split; [now right|]. split.
              ** rewrite <- (attrs_recursed c _ _ (A1 t (Rold t It))). exact Rc.
              ** apply R1; auto.
           ++ right. rewrite (attrs_isinstance _ _ _ (A1 j Lj)). exact Hj.
Qed.

End Matcher.

Lemma enclosed_delimited h g c mo mc :
  enclosed h g c (fun n => match_spec n mo) (fun n => match_spec n mc) ->
  delimited h g c mo mc.
Proof.
  intros (Kc & _ & Hf & Hl). split; [exact Kc|].
  unfold first_matches, last_matches, first_is, last_is in *.
  split.
  - destruct (sql.tokens (deref h g)); [discriminate|exact Hf].
  - destruct (rev (sql.tokens (deref h g))); [discriminate|exact Hl].
Qed.

Lemma delimited_enclosed h g c mo mc :
  is_group (deref h g) = true ->
  delimited h g c mo mc ->
  enclosed h g c (fun n => match_spec n mo) (fun n => match_spec n mc).
Proof.
  intros Ig (Kc & Hf & Hl). split; [exact Kc|]. split; [exact Ig|].
  unfold first_matches, last_matches, first_is, last_is in *.
  split.
  - destruct (sql.tokens (deref h g)); [discriminate|exact Hf].
  - destruct (rev (sql.tokens (deref h g))); [discriminate|exact Hl].
Qed.

(** The search that a call of a matcher makes: from the frame of the
    loop to the frame of the call. *)
Lemma searched_of_fold c po pc h h' tlist l :
  evolves c h h' ->
  (length h' - length h <= length l)%nat ->
  (forall g, (length h <= g < length h')%nat -> enclosed h' g c po pc) ->
  (forall j, (j < length h)%nat -> j <> tlist ->
     ~ (exists t, In t (sql.tokens (deref h tlist))
                  /\ recursed c (deref h t) = true /\ reach h t j)
     \/ isinstance (deref h j) [c] = true ->
     sql.tokens (deref h' j) = sql.tokens (deref h j)) ->
  searched c po pc h h' tlist l.
Proof.
  intros Ev Lc En Fr. split; [exact Ev|]. split; [exact Lc|].
  split; [exact En|].
  intros j Lj Nj Hj. apply Fr; auto.
  destruct Hj as [Hj|Hj]; [left|now right].
  intros (t & It & Rc & Re). apply Hj.
  eapply reach_step; eauto. apply (recursed_is_group _ _ Rc).
Qed.

Lemma group_matching_searches c mo mc :
  M_OPEN c = Ok (Tuple mo) -> M_CLOSE c = Ok (Tuple mc) ->
  forall F tlist h d l,
    (tlist < length h)%nat -> well_formed h ->
    flatten d h tlist = Ok l ->
    (d + length l <= recursion_limit)%nat ->
    rdepth c F h tlist ->
    exists h',
      _group_matching F tlist c h = Ok (tt, h')
      /\ searched c (fun n => match_spec n mo) (fun n => match_spec n mc)
                  h h' tlist l.
Proof.
  intros Mo Mc. induction F as [|F IH]; intros tlist h d l Hs W Fl Hb Hd;
    [destruct Hd|].
  destruct d as [|dd]; [discriminate|].
  cbn [_group_matching]. unfold bind at 1, get at 1.
  destruct (matcher_fold c (fun n => match_spec n mo) (fun n => match_spec n mc)
              (fun x y H => attrs_match x y mo H)
              (fun x y H => attrs_match x y mc H)
              (fun n H => match_spec_no_ttype n mc H)
              (list Z * Z)%type fst snd
              (_group_matching_body (fun token => _group_matching F token c)
                                    tlist c)
              (fun token => _group_matching F token c) tlist F)
    with (rest := sql.tokens (deref h tlist)) (k := 0) (st := ([] : list Z, 0))
         (h := h) (dd := dd) (L := l) (lr := l)
    as (st' & h' & E & Ev & Lc & En & Fr).
  - (* the rounds of the loop *)
    intros [opens off] k token h0. cbn [fst snd].
    rewrite (group_matching_body_eq _ _ _ mo mc) by auto.
    destruct (is_whitespace (deref h0 token)).
    { left. exists (opens, off). auto. }
    fold (recursed c (deref h0 token)).
    destruct (recursed c (deref h0 token)) eqn:Rc.
    { right. left. split; [reflexivity|]. reflexivity. }
    destruct (match_spec (deref h0 token) mo) eqn:Emo.
    { left. exists (k - off :: opens, off). cbn [fst snd]. auto. }
    destruct (match_spec (deref h0 token) mc) eqn:Emc.
    2:{ left. exists (opens, off). auto. }
    destruct opens as [|o r].
    { left. exists ([], off). auto. }
    right. right. exists o, r, (r, off + (k - off - o)). cbn [fst snd]. auto.
  - (* the calls on the groups below *)
    intros t h1 d1 l1 Lt W1 F1 B1 D1. apply (IH t h1 d1 l1); auto.
  - exact Hs.
  - exact W.
  - cbn [fst snd]. lia.
  - cbn [fst snd]. lia.
  - reflexivity.
  - exact I.
  - exact Fl.
  - rewrite flatten_S in Fl. exact Fl.
  - lia.
  - intros t It Rc. cbn [rdepth] in Hd. apply Hd; auto.
  - exists h'. unfold bind. rewrite E. unfold ret.
    split; [reflexivity|]. apply searched_of_fold; auto.
Qed.

Lemma attrs_match_any x y ms :
  attrs x = attrs y -> existsb (match_spec x) ms = existsb (match_spec y) ms.
Proof.
  intro H. induction ms as [|m ms IH]; [reflexivity|].
  cbn [existsb]. now rewrite (attrs_match x y m H), IH.
Qed.

Lemma group_for_searches :
  forall F tlist h d l,
    (tlist < length h)%nat -> well_formed h ->
    flatten d h tlist = Ok l ->
    (d + length l <= recursion_limit)%nat ->
    rdepth For F h tlist ->
    exists h',
      group_for F tlist h = Ok (tt, h')
      /\ searched For (fun n => existsb (match_spec n) For_M_OPEN)
                  (fun n => match_spec n (m2 T.Keyword ["END LOOP"]))
                  h h' tlist l.
Proof.
  induction F as [|F IH]; intros tlist h d l Hs W Fl Hb Hd; [destruct Hd|].
  destruct d as [|dd]; [discriminate|].
  cbn [group_for]. unfold bind at 1, get at 1.
  match goal with |- context [fold_m _ ?b _] => set (bdy := b) end.
  destruct (matcher_fold For (fun n => existsb (match_spec n) For_M_OPEN)
              (fun n => match_spec n (m2 T.Keyword ["END LOOP"]))
              (fun x y H => attrs_match_any x y For_M_OPEN H)
              (fun x y H => attrs_match x y _ H)
              (fun n H => match_spec_no_ttype n _ H)
              (list Z * Z * bool)%type (fun st => fst (fst st))
              (fun st => snd (fst st)) bdy
              (fun token => group_for F token) tlist F)
    with (rest := sql.tokens (deref h tlist)) (k := 0)
         (st := ([] : list Z, 0, false))
         (h := h) (dd := dd) (L := l) (lr := l)
    as (st' & h' & E & Ev & Lc & En & Fr).
  - (* the rounds of the loop *)
    intros [[opens off] inf] k token h0. cbn [fst snd].
    unfold bdy, bind, get, lift, ret. cbn [M_CLOSE tuple].
    destruct (is_whitespace (deref h0 token)).
    { left. exists (opens, off, inf). auto. }
    fold (recursed For (deref h0 token)).
    destruct (recursed For (deref h0 token)) eqn:Rc.
    { right. left. split; [reflexivity|].
      destruct (group_for F token h0) as [[[] h1]|e]; reflexivity. }
    destruct (existsb (match_spec (deref h0 token)) For_M_OPEN) eqn:Emo.
    { left. destruct (ttype_is (ttype_ (deref h0 token)) T.ForIn).
      - exists (k - off :: opens, off, true). cbn [fst snd]. auto.
      - destruct inf; cbn [negb].
        + exists (opens, off, false). cbn [fst snd]. auto.
        + exists (k - off :: opens, off, false). cbn [fst snd]. auto. }
    destruct (match_spec (deref h0 token) (m2 T.Keyword ["END LOOP"])) eqn:Emc.
    2:{ left. exists (opens, off, inf). auto. }
    destruct opens as [|o r].
    { left. exists ([], off, inf). auto. }
    right. right. exists o, r, (r, off + (k - off - o), inf). cbn [fst snd].
    split; [reflexivity|]. split; [reflexivity|]. split; [reflexivity|].
    split; [reflexivity|].
    destruct (group_tokens tlist For (Some o) (Some (k - off)) true false h0)
      as [[g1 h1]|e]; reflexivity.
  - (* the calls on the groups below *)
    intros t h1 d1 l1 Lt W1 F1 B1 D1. apply (IH t h1 d1 l1); auto.
  - exact Hs.
  - exact W.
  - cbn [fst snd]. lia.
  - cbn [fst snd]. lia.
  - reflexivity.
  - exact I.
  - exact Fl.
  - rewrite flatten_S in Fl. exact Fl.
  - lia.
  - intros t It Rc. cbn [rdepth] in Hd. apply Hd; auto.
  - exists h'. unfold bind. rewrite E. unfold ret.
    split; [reflexivity|]. apply searched_of_fold; auto.
Qed.

Lemma well_formedb_ok h : well_formedb h = true -> well_formed h.
Proof.
  unfold well_formedb. intro H. rewrite forallb_forall in H.
  assert (N : forall j, (j < length h)%nat -> In (deref h j) h).
  { intros j Lj. unfold deref. now apply nth_In. }
  split.
  - intros j t Lj It. specialize (H _ (N j Lj)).
    apply andb_prop in H. destruct H as [H _].
    rewrite forallb_forall in H. apply Nat.ltb_lt. now apply H.
  - intros j Lj Ig. specialize (H _ (N j Lj)).
    apply andb_prop in H. destruct H as [_ H]. rewrite Ig in H.
    cbn [negb orb] in H. destruct (ttype_ (deref h j)); [discriminate|reflexivity].
Qed.

(** What a search leaves of the groups that were enclosed before it. *)
Lemma searched_keeps_enclosed c po pc h h' tlist l :
  (forall x y, attrs x = attrs y -> po x = po y) ->
  (forall x y, attrs x = attrs y -> pc x = pc y) ->
  well_formed h ->
  searched c po pc h h' tlist l ->
  forall j, (j < length h)%nat -> j <> tlist ->
    enclosed h j c po pc -> enclosed h' j c po pc.
Proof.
  intros Hpo Hpc W (Ev & _ & _ & Fr) j Lj Nj En.
  destruct Ev as (_ & A & _).
  apply (enclosed_preserved c po pc h h' j Hpo Hpc W Lj A); [|exact En].
  apply Fr; auto. right. destruct En as (Kc & _).
  unfold isinstance. cbn [existsb]. rewrite Kc, issubclass_refl. reflexivity.
Qed.

Lemma searched_keeps_leaves c po pc h h' tlist l d :
  (tlist < length h)%nat ->
  flatten d h tlist = Ok l ->
  searched c po pc h h' tlist l ->
  (length h <= length h')%nat
  /\ flatten (d + (length h' - length h)) h' tlist = Ok l.
Proof.
  intros Lt Fl (Ev & _). destruct Ev as (Ln & _ & Fk & _).
  split; [exact Ln|]. apply Fk; auto.
Qed.

(** ** After the later passes *)

(** The statement [(] [::] [x] [)]: [group_typecasts] takes the opening
    parenthesis into an identifier, so after the pipeline the
    [Parenthesis] group does not begin with its opening sentinel. *)
Lemma parenthesis_loses_opener :
  exists st h,
    FilterStack.run 200 Props.stream_paren_typecast [] = Ok ([st], h)
    /\ Props.shape 50 h st
       = Props.Group Statement
           [Props.Group Parenthesis
              [Props.Group Identifier
                 [Props.Leaf "("; Props.Leaf "::"; Props.Leaf "x"];
               Props.Leaf ")"]]
    /\ Props.balanced_nests 50 h st = false.
Proof. do 2 eexists. split; [|split]; vm_compute; reflexivity. Qed.

(** The statement [LOOP y::END LOOP]: [group_typecasts] takes [END LOOP]
    into an identifier, so after the pipeline the [For] group does not end
    with [END LOOP]. *)
Lemma for_loses_end_loop :
  exists st h,
    FilterStack.run 200 Props.stream_loop_typecast [] = Ok ([st], h)
    /\ Props.shape 50 h st
       = Props.Group Statement
           [Props.Group For
              [Props.Leaf "LOOP"; Props.Leaf " ";
               Props.Group Identifier
                 [Props.Leaf "y"; Props.Leaf "::"; Props.Leaf "END LOOP"]]]
    /\ Props.balanced_nests 50 h st = false.
Proof. do 2 eexists. split; [|split]; vm_compute; reflexivity. Qed.

(** ** The matchers on any tree *)



(** What the two passes make of the nested statement: the parentheses
    are grouped inside the inner statement, around the comment group; the
    loop is grouped there as well. *)
Lemma matchers_on_nested_statement :
  (exists h', _group_matching 3 8 Parenthesis heap_nested = Ok (tt, h')
     /\ shape 50 h' 8
        = Group Statement
            [Group Statement
               [Group Parenthesis
                  [Leaf "("; Leaf "LOOP"; Group Comment [Leaf "--c"];
                   Leaf "END LOOP"; Leaf ")"]];
             Leaf ";"])
  /\ (exists h', group_for 3 8 heap_nested = Ok (tt, h')
        /\ shape 50 h' 8
           = Group Statement
               [Group Statement
                  [Leaf "(";
                   Group For
                     [Leaf "LOOP"; Group Comment [Leaf "--c"];
                      Leaf "END LOOP"];
                   Leaf ")"];
                Leaf ";"]).
Proof. split; eexists; split; vm_compute; reflexivity. Qed.

(** ** Idempotence *)

(** The statement [f(1) --c;]: a second run of the pipeline on the grouped
    statement changes its shape (the comment moves into the parenthesis
    and the parameter is wrapped once more). *)
Lemma second_grouping_changes_shape :
  exists st h st2 h2,
    FilterStack.run 200 Props.stream_call_comment [] = Ok ([st], h)
    /\ grouping.group 200 st h = Ok (st2, h2)
    /\ Props.shape 50 h st <> Props.shape 50 h2 st2.
Proof.
  do 4 eexists. split; [vm_compute; reflexivity|].
  split; [vm_compute; reflexivity|].
  vm_compute. discriminate.
Qed.
(** ** The bracket matcher, run twice *)

(** [_group_matching] is idempotent on a list of leaves that is no longer
    than the recursion limit: the first run returns, and a second run on
    the list it has just grouped returns and leaves every object as it
    is (the groups of its class are neither opened nor searched, and no
    closing token is left after an opening one). *)
Theorem group_matching_twice :
  forall (c : cls) (mo mc : mspec) (fuel : nat) (h : heap) (tlist : nat),
    M_OPEN c = Ok (Tuple mo) -> M_CLOSE c = Ok (Tuple mc) ->
    (tlist < length h)%nat ->
    (forall t, In t (sql.tokens (deref h tlist)) ->
       (t < length h)%nat /\ is_group (deref h t) = false) ->
    (length (sql.tokens (deref h tlist)) <= recursion_limit)%nat ->
    exists h',
      _group_matching (S fuel) tlist c h = Ok (tt, h')
      /\ forall fuel', _group_matching (S fuel') tlist c h' = Ok (tt, h').
Proof.
  intros c mo mc fuel h tlist Mo Mc Lt Leaves Hd.
  cbn [_group_matching]. unfold bind at 1, get at 1.
  destruct (group_matching_fold False c mo mc
              (fun token => _group_matching fuel token c) tlist (length h)
              (sql.tokens (deref h tlist)) Mo Mc (sql.tokens (deref h tlist)) 0 [] 0 h)
    as (st & h' & E & L & D & (opens' & S) & _).
  - lia.
  - intros g Hg. lia.
  - intros g Hg. lia.
  - intros t It. destruct (Leaves t It). auto.
  - intros t It. destruct (Leaves t It). auto.
  - lia.
  - lia.
  - reflexivity.
  - exact I.
  - split; [reflexivity|exact I].
  - intros k' _. unfold expand. apply concat_res_leaves.
    intros t It. apply (Leaves t It).
  - intros [].
  - intros [].
  - lia.
  - unfold len. lia.
  - exists h'. split; [unfold bind; rewrite E; reflexivity|].
    intro fuel'. cbn [_group_matching]. unfold bind, get.
    rewrite (scan_fold h' c mo mc _ tlist Mo Mc _ 0 [] opens' S).
    reflexivity.
Qed.

Lemma group_matching_twice_witness :
  exists h',
    _group_matching 1 3 Parenthesis heap_paren_pair = Ok (tt, h')
    /\ forall fuel', _group_matching (S fuel') 3 Parenthesis h' = Ok (tt, h').
Proof.
  apply (group_matching_twice Parenthesis (m2 T.Punctuation ["("])
           (m2 T.Punctuation [")"]) 0 heap_paren_pair 3).
  - reflexivity.
  - reflexivity.
  - vm_compute. lia.
  - intros t It. vm_compute in It.
    destruct It as [<-|[<-|[<-|[]]]]; split; vm_compute; (lia || reflexivity).
  - apply Nat.leb_le. vm_compute. reflexivity.
Defined.

(** ** The bracket matcher keeps the leaves *)

Lemma attrs_value a b : attrs a = attrs b -> value a = value b.
Proof.
  intro H. change (value (attrs a) = value (attrs b)). now rewrite H.
Qed.

Lemma join_values_same h h' l :
  (forall t, In t l -> value (deref h' t) = value (deref h t)) ->
  join_values h' l = join_values h l.
Proof.
  unfold join_values.
  induction l as [|t l IH]; intro H; cbn [fold_right]; [reflexivity|].
  rewrite H by (now left). rewrite IH by (intros; apply H; now right).
  reflexivity.
Qed.

(** [_group_matching] neither loses nor reorders tokens: run on a list of
    leaves that is no longer than the recursion limit, it returns, the
    list flattens to the same leaves in the same order afterwards, each
    leaf keeps its value, and so the text of the list is unchanged. *)
Theorem group_matching_keeps_leaves :
  forall (c : cls) (mo mc : mspec) (fuel : nat) (h : heap) (tlist : nat),
    M_OPEN c = Ok (Tuple mo) -> M_CLOSE c = Ok (Tuple mc) ->
    (tlist < length h)%nat ->
    (forall t, In t (sql.tokens (deref h tlist)) ->
       (t < length h)%nat /\ is_group (deref h t) = false) ->
    (length (sql.tokens (deref h tlist)) <= recursion_limit)%nat ->
    exists h',
      _group_matching (S fuel) tlist c h = Ok (tt, h')
      /\ flatten (S (length h')) h' tlist = Ok (sql.tokens (deref h tlist))
      /\ (forall t, In t (sql.tokens (deref h tlist)) ->
            value (deref h' t) = value (deref h t))
      /\ leaves_text h' tlist = leaves_text h tlist.
Proof.
  intros c mo mc fuel h tlist Mo Mc Lt Leaves Hd.
  cbn [_group_matching]. unfold bind at 1, get at 1.
  destruct (group_matching_fold False c mo mc
              (fun token => _group_matching fuel token c) tlist (length h)
              (sql.tokens (deref h tlist)) Mo Mc
              (sql.tokens (deref h tlist)) 0 [] 0 h)
    as (st & h' & E & L & _ & _ & K & A & _).
  - lia.
  - intros g Hg. lia.
  - intros g Hg. lia.
  - intros t It. destruct (Leaves t It). auto.
  - intros t It. destruct (Leaves t It). auto.
  - lia.
  - lia.
  - reflexivity.
  - exact I.
  - split; [reflexivity|exact I].
  - intros k' _. unfold expand. apply concat_res_leaves.
    intros t It. apply (Leaves t It).
  - intros [].
  - intros [].
  - lia.
  - unfold len. lia.
  - exists h'. split; [unfold bind; rewrite E; reflexivity|].
    assert (F' : flatten (S (length h')) h' tlist
                 = Ok (sql.tokens (deref h tlist))).
    { rewrite flatten_S. apply K. lia. }
    assert (V : forall t, In t (sql.tokens (deref h tlist)) ->
                          value (deref h' t) = value (deref h t)).
    { intros t It. apply attrs_value, A. apply (Leaves t It). }
    split; [exact F'|]. split; [exact V|].
    unfold leaves_text. rewrite F'.
    rewrite flatten_S. unfold expand.
    rewrite concat_res_leaves by (intros t It; apply (Leaves t It)).
    f_equal. apply join_values_same, V.
Qed.

Lemma group_matching_keeps_leaves_witness :
  exists h',
    _group_matching 1 3 Parenthesis heap_paren_pair = Ok (tt, h')
    /\ flatten (S (length h')) h' 3 = Ok (sql.tokens (deref heap_paren_pair 3))
    /\ (forall t, In t (sql.tokens (deref heap_paren_pair 3)) ->
          value (deref h' t) = value (deref heap_paren_pair t))
    /\ leaves_text h' 3 = leaves_text heap_paren_pair 3.
Proof.
  apply (group_matching_keeps_leaves Parenthesis (m2 T.Punctuation ["("])
           (m2 T.Punctuation [")"]) 0 heap_paren_pair 3).
  - reflexivity.
  - reflexivity.
  - vm_compute. lia.
  - intros t It. vm_compute in It.
    destruct It as [<-|[<-|[<-|[]]]]; split; vm_compute; (lia || reflexivity).
  - apply Nat.leb_le. vm_compute. reflexivity.
Defined.

(** ** The bracket matcher keeps the parents *)

Lemma linked_children_ok h p : linked h p -> children_ok h p = true.
Proof.
  intros [Nd Pp]. unfold children_ok. apply forallb_forall. intros c Ic.
  apply andb_true_intro. split.
  - unfold parent_is. rewrite (Pp c Ic). apply Nat.eqb_refl.
  - apply Nat.eqb_eq. apply (proj1 (NoDup_count_occ' Nat.eq_dec _) Nd c Ic).
Qed.

(** [_group_matching] keeps the tree parent-consistent: run on a list,
    no longer than the recursion limit, of leaves that are distinct and
    have the list as parent, it returns, and afterwards every node of the tree below the list has each of its
    children exactly once, with the node as the child's parent. *)
Theorem group_matching_links_parents :
  forall (c : cls) (mo mc : mspec) (fuel : nat) (h : heap) (tlist : nat),
    M_OPEN c = Ok (Tuple mo) -> M_CLOSE c = Ok (Tuple mc) ->
    (tlist < length h)%nat ->
    is_group (deref h tlist) = true ->
    (forall j, is_group (deref h j) = false -> sql.tokens (deref h j) = []) ->
    (forall t, In t (sql.tokens (deref h tlist)) ->
       (t < length h)%nat /\ is_group (deref h t) = false) ->
    linked h tlist ->
    (length (sql.tokens (deref h tlist)) <= recursion_limit)%nat ->
    exists h',
      _group_matching (S fuel) tlist c h = Ok (tt, h')
      /\ forall fuel', parents_ok fuel' h' tlist = true.
Proof.
  intros c mo mc fuel h tlist Mo Mc Lt Gt Hleaf Leaves Lk Hd.
  cbn [_group_matching]. unfold bind at 1, get at 1.
  destruct (group_matching_fold True c mo mc
              (fun token => _group_matching fuel token c) tlist (length h)
              (sql.tokens (deref h tlist)) Mo Mc
              (sql.tokens (deref h tlist)) 0 [] 0 h)
    as (st & h' & E & L & _ & _ & _ & A & Pt & Pc & T & G & C).
  - lia.
  - intros g Hg. lia.
  - intros g Hg. lia.
  - intros t It. destruct (Leaves t It). auto.
  - intros t It. destruct (Leaves t It). auto.
  - lia.
  - lia.
  - reflexivity.
  - exact I.
  - split; [reflexivity|exact I].
  - intros k' _. unfold expand. apply concat_res_leaves.
    intros t It. apply (Leaves t It).
  - intros _. exact Lk.
  - intros _ g Hg. lia.
  - lia.
  - unfold len. lia.
  - exists h'. split; [unfold bind; rewrite E; reflexivity|].
    set (good := fun x => x = tlist \/ (length h <= x < length h')%nat
                          \/ ((x < length h)%nat
                              /\ is_group (deref h x) = false)).
    assert (Gchild : forall x, good x ->
              forall y, In y (sql.tokens (deref h' x)) -> good y).
    { intros x Hx y Iy.
      assert (Cl : (y < length h')%nat
                   /\ (is_group (deref h' y) = false \/ (length h <= y)%nat) ->
                   good y).
      { intros [Ly [Dy|Dy]].
        - destruct (Nat.lt_ge_cases y (length h)) as [Lo|Hi].
          + right. right. split; [exact Lo|].
            rewrite <- (attrs_is_group _ _ (A y Lo)). exact Dy.
          + right. left. lia.
        - right. left. lia. }
      destruct Hx as [->|[Hx|[Lx Gx]]].
      - apply Cl, C, Iy.
      - apply Cl. destruct (G x Hx y Iy) as [Ly D]. split; [lia|exact D].
      - assert (Nx : x <> tlist) by (intro; subst; congruence).
        rewrite T, (Hleaf x Gx) in Iy by auto. destruct Iy. }
    assert (Gok : forall x, good x -> children_ok h' x = true).
    { intros x [->|[Hx|[Lx Gx]]].
      - apply linked_children_ok, Pt, I.
      - apply linked_children_ok, Pc; [exact I|exact Hx].
      - assert (Nx : x <> tlist) by (intro; subst; congruence).
        unfold children_ok. rewrite T, (Hleaf x Gx) by auto. reflexivity. }
    intro fuel'. unfold parents_ok. apply forallb_forall.
    assert (N : forall f x, good x ->
              forall y, In y (nodes f h' x) -> children_ok h' y = true).
    { induction f as [|f IH]; intros x Hx y Iy; cbn [nodes] in Iy.
      - destruct Iy as [<-|[]]. apply Gok, Hx.
      - destruct Iy as [<-|Iy]; [apply Gok, Hx|].
        apply in_flat_map in Iy. destruct Iy as (z & Iz & Iy).
        apply (IH z); [|exact Iy]. eapply Gchild; eauto. }
    apply (N fuel' tlist). now left.
Qed.

Lemma group_matching_links_parents_witness :
  exists h',
    _group_matching 1 3 Parenthesis heap_paren_pair = Ok (tt, h')
    /\ forall fuel', parents_ok fuel' h' 3 = true.
Proof.
  apply (group_matching_links_parents Parenthesis (m2 T.Punctuation ["("])
           (m2 T.Punctuation [")"]) 0 heap_paren_pair 3).
  - reflexivity.
  - reflexivity.
  - vm_compute. lia.
  - reflexivity.
  - intros j. destruct j as [|[|[|[|j]]]]; vm_compute; try discriminate;
      try reflexivity. now destruct j.
  - intros t It. vm_compute in It.
    destruct It as [<-|[<-|[<-|[]]]]; split; vm_compute; (lia || reflexivity).
  - split.
    + vm_compute. repeat constructor; cbn; intuition discriminate.
    + intros t It. vm_compute in It.
      destruct It as [<-|[<-|[<-|[]]]]; reflexivity.
  - apply Nat.leb_le. vm_compute. reflexivity.
Defined.

(** * Further properties of the code *)

(** ** The splitter: one step of the level *)

(** Whatever the token, [_change_splitlevel] moves the level by at most
    one, keeps [_begin_depth] non-negative and touches neither the token
    frames nor the level itself. *)
Theorem change_splitlevel_step :
  forall (ForIn : ttype) (self : StatementSplitter.splitter) (tt : ttype)
         (value : string),
    0 <= StatementSplitter._begin_depth self ->
    let r := StatementSplitter._change_splitlevel ForIn self tt value in
    (fst r = -1 \/ fst r = 0 \/ fst r = 1)
    /\ 0 <= StatementSplitter._begin_depth (snd r)
    /\ StatementSplitter.tokens (snd r) = StatementSplitter.tokens self
    /\ StatementSplitter.level (snd r) = StatementSplitter.level self.
Proof.
  intros ForIn self tt value H. unfold StatementSplitter._change_splitlevel.
  destruct self; cbn [StatementSplitter._begin_depth] in H.
  repeat match goal with
         | |- context [if ?b then _ else _] => destruct b
         end; cbn; repeat split; auto; lia.
Qed.

Lemma change_splitlevel_step_witness :
  let r := StatementSplitter._change_splitlevel T.ForIn StatementSplitter._reset
             T.Keyword "END" in
  (fst r = -1 \/ fst r = 0 \/ fst r = 1)
  /\ 0 <= StatementSplitter._begin_depth (snd r)
  /\ StatementSplitter.tokens (snd r) = StatementSplitter.tokens StatementSplitter._reset
  /\ StatementSplitter.level (snd r) = StatementSplitter.level StatementSplitter._reset.
Proof.
  apply (change_splitlevel_step T.ForIn StatementSplitter._reset T.Keyword "END").
  vm_compute. discriminate.
Defined.

(** ** [Token.match] *)

Lemma ttype_eqb_refl (t : ttype) : ttype_eqb t t = true.
Proof. induction t as [|x t IH]; simpl; [reflexivity|]. now rewrite String.eqb_refl. Qed.

(** [Token.match] compares a keyword token with the given value up to
    case, and every other token exactly: for the token that
    [Token(ttype, value)] builds, [match(ttype, v)] holds iff the upper-cased
    values agree (keyword) or the values are equal (any other type). *)
Theorem match_value_case :
  forall (tt : ttype) (v v' : string),
    match_ (Token__init__ dummy (Some tt) v) tt (Some [v']) false false
    = if ttype_in (Some tt) T.Keyword then upper v' =s? upper v
      else v' =s? v.
Proof.
  intros tt v v'. unfold match_, Token__init__.
  cbn [ttype_ is_keyword normalized ttype_is]. rewrite ttype_eqb_refl.
  cbn [negb]. destruct (ttype_in (Some tt) T.Keyword); cbn [map str_in existsb];
    now rewrite orb_false_r.
Qed.

(** A token never matches a type other than its own, whatever the values:
    the test is [self.ttype is ttype], so a [Keyword.DML] token does not
    match [Keyword]. *)
Theorem match_needs_same_type :
  forall (tk : node) (tt : ttype) (values : option (list string))
         (regex ignorecase : bool),
    match_ tk tt values regex ignorecase = true -> ttype_ tk = Some tt.
Proof.
  intros tk tt values regex ic. unfold match_, ttype_is.
  destruct (ttype_ tk) as [t|].
  - assert (E : ttype_eqb t tt = true -> Some t = Some tt).
    { clear. revert tt; induction t as [|x t IH]; intros [|y tt]; simpl;
        try discriminate; auto.
      intro H. apply andb_prop in H. destruct H as [H1 H2].
      apply String.eqb_eq in H1. subst. f_equal. f_equal.
      specialize (IH tt H2). congruence. }
    destruct (ttype_eqb t tt); [auto|].
    destruct values; simpl; discriminate.
  - destruct values; simpl; discriminate.
Qed.

Lemma match_needs_same_type_witness :
  ttype_ (Token__init__ dummy (Some T.Punctuation) "(") = Some T.Punctuation.
Proof.
  apply (match_needs_same_type _ T.Punctuation (Some ["("]) false false).
  reflexivity.
Defined.

(** ** [TokenList.token_index] *)

Lemma py_slice_from_0 {A} (l : list A) : py_slice l (Some 0) None = l.
Proof.
  unfold py_slice, slice_range, slice_bound, len. cbn.
  destruct (Z.ltb_spec (Z.of_nat (length l)) 0); [lia|].
  rewrite Z.max_r by lia. rewrite Nat2Z.id, Nat.sub_0_r.
  cbn. apply firstn_all.
Qed.

Lemma list_index_spec (l : list nat) (x : nat) :
  match list_index l x with
  | Some k => 0 <= k /\ nth_error l (Z.to_nat k) = Some x
              /\ forall j, (j < Z.to_nat k)%nat -> nth_error l j <> Some x
  | None => ~ In x l
  end.
Proof.
  induction l as [|y l IH]; simpl; [tauto|].
  destruct (Nat.eqb_spec y x) as [->|N].
  - split; [lia|]. split; [reflexivity|]. intros j Hj. simpl in Hj. lia.
  - destruct (list_index l x) as [k|].
    + destruct IH as (Hk & Hn & Hf). split; [lia|].
      replace (Z.to_nat (k + 1)) with (S (Z.to_nat k)) by lia.
      split; [exact Hn|]. intros [|j] Hj; simpl; [congruence|].
      apply Hf. lia.
    + intros [E|I]; [congruence|tauto].
Qed.

(** [token_index(token)] is the index of the first occurrence of the
    token among the children, and raises [ValueError] exactly when the
    token is not a child. *)
Theorem token_index_first_occurrence :
  forall (h : heap) (self t : nat),
    match token_index h self (Some t) 0 with
    | Ok k => 0 <= k
              /\ nth_error (tokens (deref h self)) (Z.to_nat k) = Some t
              /\ forall j, (j < Z.to_nat k)%nat ->
                           nth_error (tokens (deref h self)) j <> Some t
    | Raise e => e = ValueError /\ ~ In t (tokens (deref h self))
    end.
Proof.
  intros h self t. unfold token_index. rewrite py_slice_from_0.
  pose proof (list_index_spec (tokens (deref h self)) t) as H.
  destruct (list_index (tokens (deref h self)) t) as [k|]; [|auto].
  rewrite Z.add_0_l. exact H.
Qed.

(** ** Insertion and removal *)

Lemma py_pop_insert {A} (l : list A) (i : Z) (x : A) :
  0 <= i <= len l -> py_pop (py_insert l i x) i = Ok (x, l).
Proof.
  intros Hi. unfold py_pop, py_insert, slice_bound, len in *.
  destruct (Z.ltb_spec i 0); [lia|].
  destruct (Z.ltb_spec i 0); [lia|].
  destruct (Z.ltb_spec (Z.of_nat (length l)) i); [lia|].
  remember (Z.to_nat i) as n eqn:En.
  assert (Hn : (n <= length l)%nat) by lia.
  assert (Lf : length (firstn n l) = n) by (rewrite length_firstn; lia).
  rewrite length_app, Lf. cbn [length]. rewrite length_skipn.
  destruct (Z.leb_spec (Z.of_nat (n + S (length l - n))) i); [lia|].
  cbn [orb].
  rewrite nth_error_app2 by (rewrite Lf; lia). rewrite Lf, Nat.sub_diag. cbn [nth_error].
  f_equal. f_equal.
  rewrite (firstn_app_exact (firstn n l) (x :: skipn n l) n) by auto.
  change (x :: skipn n l) with ([x] ++ skipn n l).
  rewrite (skipn_middle (firstn n l) (skipn n l) x (S n)) by (now rewrite Lf).
  apply firstn_skipn.
Qed.

(** Round trip: [insert_before(i, token)] followed by [pop(i)], for an index
    [0 <= i <= len(tokens)], gives the token back and restores the list of
    children; the token's parent is then the list (insertion alone sets
    it, removal does not reset it). *)
Theorem insert_before_pop :
  forall (h : heap) (self tok : nat) (i : Z),
    (self < length h)%nat ->
    0 <= i <= len (tokens (deref h self)) ->
    exists h',
      (insert_before self i tok ;;; pop self i) h = Ok (tok, h')
      /\ length h' = length h
      /\ tokens (deref h' self) = tokens (deref h self)
      /\ ((tok < length h)%nat -> parent (deref h' tok) = Some self).
Proof.
  intros h self tok i Ls Hi.
  unfold insert_before, pop, bind, setattr, bind, get, put, lift, ret.
  set (h1 := list_set h tok (set_parent (deref h tok) (Some self))).
  assert (L1 : length h1 = length h) by (unfold h1; apply length_list_set).
  assert (T1 : tokens (deref h1 self) = tokens (deref h self)).
  { unfold h1. destruct (Nat.eq_dec tok self) as [->|N].
    - rewrite deref_put_same by lia. now destruct (deref h self).
    - now rewrite deref_put_other by auto. }
  set (h2 := list_set h1 self
               (set_tokens (deref h1 self)
                           (py_insert (tokens (deref h1 self)) i tok))).
  assert (D2 : deref h2 self
               = set_tokens (deref h1 self)
                            (py_insert (tokens (deref h1 self)) i tok))
    by (unfold h2; apply deref_put_same; lia).
  rewrite D2. cbn [tokens set_tokens]. rewrite T1, py_pop_insert by exact Hi.
  eexists. split; [reflexivity|].
  split; [unfold h2; now rewrite !length_list_set|].
  split.
  - rewrite deref_put_same by (unfold h2; rewrite length_list_set; lia).
    reflexivity.
  - intro Lt. destruct (Nat.eq_dec tok self) as [->|N].
    + rewrite deref_put_same by (unfold h2; rewrite length_list_set; lia).
      cbn [parent set_tokens]. unfold h1. rewrite deref_put_same by lia.
      reflexivity.
    + rewrite deref_put_other by auto. unfold h2.
      rewrite deref_put_other by auto. unfold h1.
      rewrite deref_put_same by lia. reflexivity.
Qed.

Lemma insert_before_pop_witness :
  exists h',
    (insert_before 3 1 0 ;;; pop 3 1) Props.heap_paren_pair = Ok (0%nat, h')
    /\ length h' = length Props.heap_paren_pair
    /\ tokens (deref h' 3) = tokens (deref Props.heap_paren_pair 3)
    /\ ((0 < length Props.heap_paren_pair)%nat -> parent (deref h' 0) = Some 3%nat).
Proof.
  apply (insert_before_pop Props.heap_paren_pair 3 0 1).
  - vm_compute. lia.
  - vm_compute. split; discriminate.
Defined.

(** ** Scans over the children *)

Lemma py_slice_from {A} (l : list A) (s : Z) :
  0 <= s -> py_slice l (Some s) None = skipn (Z.to_nat s) l.
Proof.
  intro Hs. unfold py_slice, slice_range, slice_bound, len.
  destruct (Z.ltb_spec s 0); [lia|].
  destruct (Z.ltb_spec s 0); [lia|].
  destruct (Z.ltb_spec (Z.of_nat (length l)) s).
  - rewrite Z.max_l by lia. rewrite Nat2Z.id, Nat.sub_diag.
    rewrite skipn_all, skipn_all2 by lia. reflexivity.
  - rewrite Z.max_r by lia. rewrite Nat2Z.id.
    apply firstn_all2. rewrite length_skipn. lia.
Qed.

Lemma find_enumerate {A} (P : A -> bool) (l : list A) (s : Z) :
  match find (fun it => P (snd it)) (enumerate_from s l) with
  | Some (idx, t) =>
      s <= idx
      /\ nth_error l (Z.to_nat (idx - s)) = Some t
      /\ P t = true
      /\ forall j x, (j < Z.to_nat (idx - s))%nat -> nth_error l j = Some x ->
                     P x = false
  | None => forall x, In x l -> P x = false
  end.
Proof.
  revert s; induction l as [|y l IH]; intro s; simpl; [tauto|].
  destruct (P y) eqn:Ey.
  - split; [lia|]. rewrite Z.sub_diag. simpl. split; [reflexivity|].
    split; [exact Ey|]. intros j x Hj. lia.
  - specialize (IH (s + 1)).
    destruct (find (fun it => P (snd it)) (enumerate_from (s + 1) l))
      as [[idx t]|].
    + destruct IH as (H1 & H2 & H3 & H4). split; [lia|].
      replace (Z.to_nat (idx - s)) with (S (Z.to_nat (idx - (s + 1)))) by lia.
      simpl. split; [exact H2|]. split; [exact H3|].
      intros [|j] x Hj Hx; simpl in Hx.
      * inversion Hx; subst. exact Ey.
      * eapply H4; eauto. lia.
    + intros x [<-|I]; auto.
Qed.

Lemma nth_error_skipn {A} (l : list A) (n j : nat) :
  nth_error (skipn n l) j = nth_error l (n + j).
Proof.
  revert l; induction n as [|n IH]; intros [|y l]; simpl; auto.
  now destruct j.
Qed.

Lemma token_matching_forward :
  forall (h : heap) (self : nat) (funcs : list (node -> bool)) (start : Z),
    0 <= start ->
    let toks := tokens (deref h self) in
    match _token_matching h self funcs start None false with
    | Ok (Some idx, Some t) =>
        start <= idx
        /\ nth_error toks (Z.to_nat idx) = Some t
        /\ any_func funcs (deref h t) = true
        /\ forall j x, start <= j < idx -> nth_error toks (Z.to_nat j) = Some x ->
                       any_func funcs (deref h x) = false
    | Ok (None, None) =>
        forall j x, start <= j -> nth_error toks (Z.to_nat j) = Some x ->
                    any_func funcs (deref h x) = false
    | _ => False
    end.
Proof.
  intros h self funcs start Hs toks. unfold _token_matching. fold toks.
  rewrite py_slice_from by exact Hs.
  pose proof (find_enumerate (fun t => any_func funcs (deref h t))
                (skipn (Z.to_nat start) toks) start) as H.
  cbv beta in H.
  destruct (find _ (enumerate_from start (skipn (Z.to_nat start) toks)))
    as [[idx t]|].
  - destruct H as (H1 & H2 & H3 & H4). split; [exact H1|].
    rewrite nth_error_skipn in H2.
    replace (Z.to_nat start + Z.to_nat (idx - start))%nat with (Z.to_nat idx)
      in H2 by lia.
    split; [exact H2|]. split; [exact H3|].
    intros j x Hj Hx. apply (H4 (Z.to_nat (j - start)) x); [lia|].
    rewrite nth_error_skipn.
    replace (Z.to_nat start + Z.to_nat (j - start))%nat with (Z.to_nat j) by lia.
    exact Hx.
  - intros j x Hj Hx. apply H.
    apply (nth_error_In _ (Z.to_nat (j - start))).
    rewrite nth_error_skipn.
    replace (Z.to_nat start + Z.to_nat (j - start))%nat with (Z.to_nat j) by lia.
    exact Hx.
Qed.


(** The forward scan [_token_matching(funcs, start)], for [start >= 0] and
    no [end], never raises: it returns the first child at an index
    [>= start] that one of [funcs] accepts, with that index, and
    [(None, None)] when no child from [start] on is accepted. *)
Theorem token_matching_first :
  forall (h : heap) (self : nat) (funcs : list (node -> bool)) (start : Z),
    0 <= start ->
    let toks := tokens (deref h self) in
    match _token_matching h self funcs start None false with
    | Ok (Some idx, Some t) =>
        start <= idx
        /\ nth_error toks (Z.to_nat idx) = Some t
        /\ any_func funcs (deref h t) = true
        /\ forall j x, start <= j < idx -> nth_error toks (Z.to_nat j) = Some x ->
                       any_func funcs (deref h x) = false
    | Ok (None, None) =>
        forall j x, start <= j -> nth_error toks (Z.to_nat j) = Some x ->
                    any_func funcs (deref h x) = false
    | _ => False
    end.
Proof. exact token_matching_forward. Qed.

Lemma token_matching_first_witness :
  let toks := tokens (deref Props.heap_paren_pair 3) in
  match _token_matching Props.heap_paren_pair 3
          [fun tk => negb (is_whitespace tk)] 1 None false with
  | Ok (Some idx, Some t) =>
      1 <= idx
      /\ nth_error toks (Z.to_nat idx) = Some t
      /\ any_func [fun tk => negb (is_whitespace tk)]
                  (deref Props.heap_paren_pair t) = true
      /\ forall j x, 1 <= j < idx -> nth_error toks (Z.to_nat j) = Some x ->
                     any_func [fun tk => negb (is_whitespace tk)]
                              (deref Props.heap_paren_pair x) = false
  | Ok (None, None) =>
      forall j x, 1 <= j -> nth_error toks (Z.to_nat j) = Some x ->
                  any_func [fun tk => negb (is_whitespace tk)]
                           (deref Props.heap_paren_pair x) = false
  | _ => False
  end.
Proof.
  apply (token_matching_first Props.heap_paren_pair 3
           [fun tk => negb (is_whitespace tk)] 1).
  lia.
Defined.

(** ** The backward scan *)

Lemma range_down_neg (a : Z) : a < 0 -> range_down a = [].
Proof.
  intro H. unfold range_down.
  replace (Z.to_nat (a + 1)) with 0%nat by lia. reflexivity.
Qed.

Lemma range_down_cons (a : Z) : 0 <= a -> range_down a = a :: range_down (a - 1).
Proof.
  intro H. unfold range_down.
  replace (Z.to_nat (a + 1)) with (S (Z.to_nat (a - 1 + 1))) by lia.
  cbn [seq map]. f_equal; [lia|].
  rewrite <- seq_shift, map_map. apply map_ext. intro k. lia.
Qed.

(** The backward scan [token_prev(idx)] for [0 <= idx <= len(tokens)] never
    raises: it returns the last child before [idx] that is not skipped,
    with its index, and [(None, None)] when every child before [idx] is
    skipped. *)
Theorem token_prev_last_before :
  forall (h : heap) (self : nat) (idx : Z) (skip_ws skip_cm : bool),
    let toks := tokens (deref h self) in
    0 <= idx <= len toks ->
    match token_prev h self (Some idx) skip_ws skip_cm with
    | Ok (Some j, Some t) =>
        0 <= j < idx
        /\ nth_error toks (Z.to_nat j) = Some t
        /\ not_skipped skip_ws skip_cm (deref h t) = true
        /\ forall k x, j < k < idx -> nth_error toks (Z.to_nat k) = Some x ->
                       not_skipped skip_ws skip_cm (deref h x) = false
    | Ok (None, None) =>
        forall k x, 0 <= k < idx -> nth_error toks (Z.to_nat k) = Some x ->
                    not_skipped skip_ws skip_cm (deref h x) = false
    | _ => False
    end.
Proof.
  intros h self idx ws cm toks Hidx.
  unfold token_prev, token_next, _token_matching. fold toks.
  replace (idx + 1 - 2) with (idx - 1) by lia.
  set (go := fix go (idxs : list Z) : res (option Z * option nat) :=
         match idxs with
         | [] => Ok (None, None)
         | i :: r =>
             match py_index toks i with
             | Raise e => Raise e
             | Ok t => if any_func [not_skipped ws cm] (deref h t)
                       then Ok (Some i, Some t) else go r
             end
         end).
  assert (G : forall n a, Z.to_nat (a + 1) = n -> -1 <= a < idx ->
            match go (range_down a) with
            | Ok (Some j, Some t) =>
                0 <= j <= a
                /\ nth_error toks (Z.to_nat j) = Some t
                /\ not_skipped ws cm (deref h t) = true
                /\ forall k x, j < k <= a -> nth_error toks (Z.to_nat k) = Some x ->
                               not_skipped ws cm (deref h x) = false
            | Ok (None, None) =>
                forall k x, 0 <= k <= a -> nth_error toks (Z.to_nat k) = Some x ->
                            not_skipped ws cm (deref h x) = false
            | _ => False
            end).
  { induction n as [|n IH]; intros a Hn Ha.
    - rewrite range_down_neg by lia. cbn. intros k x Hk. lia.
    - rewrite range_down_cons by lia. cbn [go].
      rewrite (py_index_ok toks a 0%nat) by lia.
      assert (Ea : nth_error toks (Z.to_nat a)
                   = Some (nth (Z.to_nat a) toks 0%nat)).
      { apply nth_error_nth'. unfold len in Hidx. lia. }
      unfold any_func. cbn [existsb]. rewrite orb_false_r.
      destruct (not_skipped ws cm (deref h (nth (Z.to_nat a) toks 0%nat))) eqn:E.
      + split; [lia|]. split; [exact Ea|]. split; [exact E|].
        intros k x Hk. lia.
      + specialize (IH (a - 1) ltac:(lia) ltac:(lia)).
        destruct (go (range_down (a - 1))) as [[[j|] [t|]]|]; try exact IH.
        * destruct IH as (H1 & H2 & H3 & H4). split; [lia|].
          split; [exact H2|]. split; [exact H3|].
          intros k x Hk Hx. destruct (Z.eq_dec k a) as [->|N].
          -- rewrite Ea in Hx. inversion Hx; subst. exact E.
          -- apply (H4 k x); [lia|exact Hx].
        * intros k x Hk Hx. destruct (Z.eq_dec k a) as [->|N].
          -- rewrite Ea in Hx. inversion Hx; subst. exact E.
          -- apply (IH k x); [lia|exact Hx]. }
  specialize (G (Z.to_nat (idx - 1 + 1)) (idx - 1) eq_refl ltac:(lia)).
  destruct (go (range_down (idx - 1))) as [[[j|] [t|]]|]; try exact G.
  - destruct G as (H1 & H2 & H3 & H4). split; [lia|]. split; [exact H2|].
    split; [exact H3|]. intros k x Hk. apply H4. lia.
  - intros k x Hk. apply G. lia.
Qed.

Lemma token_prev_last_before_witness :
  let toks := tokens (deref Props.heap_paren_pair 3) in
  match token_prev Props.heap_paren_pair 3 (Some 2) true false with
  | Ok (Some j, Some t) =>
      0 <= j < 2
      /\ nth_error toks (Z.to_nat j) = Some t
      /\ not_skipped true false (deref Props.heap_paren_pair t) = true
      /\ forall k x, j < k < 2 -> nth_error toks (Z.to_nat k) = Some x ->
                     not_skipped true false (deref Props.heap_paren_pair x) = false
  | Ok (None, None) =>
      forall k x, 0 <= k < 2 -> nth_error toks (Z.to_nat k) = Some x ->
                  not_skipped true false (deref Props.heap_paren_pair x) = false
  | _ => False
  end.
Proof.
  apply (token_prev_last_before Props.heap_paren_pair 3 2 true false).
  vm_compute. split; discriminate.
Defined.

(** ** The splitter and the recursion limit *)

Lemma frames_mono n n' k l : (n <= n')%nat -> frames n k l -> frames n' k l.
Proof.
  intro Hn. revert l; induction k as [|k IH]; intros l; cbn [frames].
  - intros (ids & -> & H). exists ids. split; [reflexivity|].
    intros i Hi. specialize (H i Hi). lia.
  - intros (ids & last & -> & H & F). exists ids, last.
    split; [reflexivity|]. split; [|apply IH, F].
    intros i Hi. specialize (H i Hi). lia.
Qed.

(** Walking down [k] frames and running [f] on the frame reached. *)
Lemma at_depth_frames (Q : heap -> Prop) k j j' f l h :
  frames (length h) (k + j) l ->
  (forall l0, frames (length h) j l0 ->
     exists l0' h', f l0 h = Ok (l0', h')
                    /\ (length h <= length h')%nat
                    /\ frames (length h') j' l0' /\ Q h') ->
  exists l' h', StatementSplitter.at_depth k f (PyList l) h = Ok (PyList l', h')
                /\ (length h <= length h')%nat
                /\ frames (length h') (k + j') l' /\ Q h'.
Proof.
  revert l; induction k as [|k IH]; intros l F Hf.
  - cbn [StatementSplitter.at_depth]. destruct (Hf l F) as (l' & h' & E & L & F' & q).
    exists l', h'. unfold bind. rewrite E. unfold ret. auto.
  - cbn [Nat.add frames] in F. destruct F as (ids & last & -> & Hids & F).
    cbn [StatementSplitter.at_depth]. rewrite rev_app_distr. cbn [rev app].
    destruct (IH last F Hf) as (l' & h' & E & L & F' & q).
    unfold bind. rewrite E. unfold ret. rewrite rev_involutive.
    exists (map Obj ids ++ [PyList l']), h'. split; [reflexivity|].
    split; [exact L|]. split; [|exact q].
    cbn [Nat.add frames]. exists ids, l'. split; [reflexivity|].
    split; [|exact F']. intros i Hi. specialize (Hids i Hi). lia.
Qed.

Lemma on_frame_frames (Q : heap -> Prop) self k j j' f h :
  frames (length h) (k + j) (StatementSplitter.tokens self) ->
  (forall l0, frames (length h) j l0 ->
     exists l0' h', f l0 h = Ok (l0', h')
                    /\ (length h <= length h')%nat
                    /\ frames (length h') j' l0' /\ Q h') ->
  exists l' h', StatementSplitter.on_frame self k f h = Ok (StatementSplitter.set_tokens self l', h')
                /\ (length h <= length h')%nat
                /\ frames (length h') (k + j') l' /\ Q h'.
Proof.
  intros F Hf. unfold StatementSplitter.on_frame.
  destruct (at_depth_frames Q k j j' f _ h F Hf) as (l' & h' & E & L & F' & q).
  unfold bind. rewrite E. unfold ret. eauto 10.
Qed.

Lemma change_splitlevel_cases ForIn self tt value :
  let r := StatementSplitter._change_splitlevel ForIn self tt value in
  (fst r = -1 \/ fst r = 0 \/ fst r = 1)
  /\ StatementSplitter.tokens (snd r) = StatementSplitter.tokens self
  /\ StatementSplitter.level (snd r) = StatementSplitter.level self.
Proof.
  unfold StatementSplitter._change_splitlevel. destruct self.
  repeat match goal with
         | |- context [if ?b then _ else _] => destruct b
         end; cbn; repeat split; auto.
Qed.

Lemma graded_alloc_leaf h n :
  graded h 0 -> sql.tokens n = [] -> graded (h ++ [n]) 0.
Proof.
  intros G Hn g Hg t Ht. rewrite length_app in Hg. cbn in Hg.
  destruct (Nat.eq_dec g (length h)) as [->|N].
  - unfold deref in Ht. rewrite nth_middle, Hn in Ht. destruct Ht.
  - rewrite deref_app_old in Ht by lia.
    destruct (G g ltac:(lia) t Ht) as [Lt _]. split; [exact Lt|]. right. lia.
Qed.

Lemma add_new_token_array_at_ok self depth h :
  graded h 0 ->
  frames (length h) (Z.to_nat (depth - 1)) (StatementSplitter.tokens self) ->
  exists l',
    StatementSplitter.add_new_token_array_at self depth h
    = Ok (StatementSplitter.set_tokens self l', h)
    /\ frames (length h) (Z.to_nat depth) l'.
Proof.
  intros G F. unfold StatementSplitter.add_new_token_array_at.
  destruct (Z.leb_spec depth 0).
  - exists (StatementSplitter.tokens self). unfold ret.
    split; [now destruct self|].
    replace (Z.to_nat depth) with (Z.to_nat (depth - 1)) by lia. exact F.
  - destruct (on_frame_frames (fun h' => h' = h) self (Z.to_nat (depth - 1)) 0 1
                (fun l => ret (l ++ [PyList []])) h)
      as (l' & h' & E & L & F' & ->).
    + now rewrite Nat.add_0_r.
    + intros l0 (ids & -> & Hids). exists (map Obj ids ++ [PyList []]), h.
      unfold ret. split; [reflexivity|]. split; [lia|]. split; [|reflexivity].
      cbn [frames]. exists ids, []. split; [reflexivity|]. split; [exact Hids|].
      exists []. split; [reflexivity|]. intros i [].
    + exists l'. split; [exact E|].
      replace (Z.to_nat depth) with (Z.to_nat (depth - 1) + 1)%nat by lia.
      exact F'.
Qed.

Lemma append_token_at_depth_ok self depth tok h :
  (tok < length h)%nat ->
  frames (length h) (Z.to_nat depth) (StatementSplitter.tokens self) ->
  exists l',
    StatementSplitter.append_token_at_depth self depth tok h
    = Ok (StatementSplitter.set_tokens self l', h)
    /\ frames (length h) (Z.to_nat depth) l'.
Proof.
  intros Lt F. unfold StatementSplitter.append_token_at_depth.
  destruct (Z.leb_spec (depth + 1) 0).
  - exists (StatementSplitter.tokens self). unfold ret.
    split; [now destruct self|exact F].
  - destruct (on_frame_frames (fun h' => h' = h) self (Z.to_nat depth) 0 0
                (fun l => ret (l ++ [Obj tok])) h)
      as (l' & h' & E & L & F' & ->).
    + now rewrite Nat.add_0_r.
    + intros l0 (ids & -> & Hids). exists (map Obj ids ++ [Obj tok]), h.
      unfold ret. split; [reflexivity|]. split; [lia|]. split; [|reflexivity].
      cbn [frames]. exists (ids ++ [tok]). split; [now rewrite map_app|].
      intros i Hi. apply in_app_or in Hi. destruct Hi as [Hi|[<-|[]]]; auto.
    + exists l'. split; [exact E|]. now rewrite Nat.add_0_r in F'.
Qed.

(** Walking down [k] frames and running an [f] that may raise. *)
Lemma at_depth_cases (Q : heap -> Prop) (R : exn -> Prop) k j j' f l h :
  frames (length h) (k + j) l ->
  (forall l0, frames (length h) j l0 ->
     match f l0 h with
     | Ok (l0', h') =>
         (length h <= length h')%nat /\ frames (length h') j' l0' /\ Q h'
     | Raise e => R e
     end) ->
  match StatementSplitter.at_depth k f (PyList l) h with
  | Ok (PyList l', h') =>
      (length h <= length h')%nat /\ frames (length h') (k + j') l' /\ Q h'
  | Ok (Obj _, _) => False
  | Raise e => R e
  end.
Proof.
  revert l; induction k as [|k IH]; intros l F Hf.
  - cbn [StatementSplitter.at_depth]. specialize (Hf l F). unfold bind.
    destruct (f l h) as [[l' h']|e]; [|exact Hf]. exact Hf.
  - cbn [Nat.add frames] in F. destruct F as (ids & last & -> & Hids & F).
    cbn [StatementSplitter.at_depth]. rewrite rev_app_distr. cbn [rev app].
    specialize (IH last F Hf). unfold bind.
    destruct (StatementSplitter.at_depth k f (PyList last) h)
      as [[[i|l'] h']|e]; [destruct IH| |exact IH].
    destruct IH as (L & F' & q). unfold ret. rewrite rev_involutive.
    split; [exact L|]. split; [|exact q].
    cbn [Nat.add frames]. exists ids, l'. split; [reflexivity|].
    split; [|exact F']. intros i Hi. specialize (Hids i Hi). lia.
Qed.

Lemma on_frame_cases (Q : heap -> Prop) (R : exn -> Prop) self k j j' f h :
  frames (length h) (k + j) (StatementSplitter.tokens self) ->
  (forall l0, frames (length h) j l0 ->
     match f l0 h with
     | Ok (l0', h') =>
         (length h <= length h')%nat /\ frames (length h') j' l0' /\ Q h'
     | Raise e => R e
     end) ->
  match StatementSplitter.on_frame self k f h with
  | Ok (self', h') =>
      exists l', self' = StatementSplitter.set_tokens self l'
                 /\ frames (length h') (k + j') l' /\ Q h'
  | Raise e => R e
  end.
Proof.
  intros F Hf. unfold StatementSplitter.on_frame.
  pose proof (at_depth_cases Q R k j j' f _ h F Hf) as H. unfold bind.
  destruct (StatementSplitter.at_depth k f
              (PyList (StatementSplitter.tokens self)) h)
    as [[[i|l'] h']|e]; [destruct H| |exact H].
  destruct H as (L & F' & q). unfold ret. eauto.
Qed.

(** Wrapping the frame at [depth]: one new [Statement], unless its text is
    nested deeper than the interpreter allows. *)
Lemma process_list_at_depth_cases self depth h :
  graded h 0 ->
  frames (length h) (Z.to_nat depth) (StatementSplitter.tokens self) ->
  match StatementSplitter.process_list_at_depth self depth h with
  | Ok (self', h') =>
      exists l', self' = StatementSplitter.set_tokens self l'
                 /\ graded h' 0
                 /\ frames (length h') (Z.to_nat (depth - 1)) l'
                 /\ Z.of_nat (length h')
                    = Z.of_nat (length h) + (if 0 <? depth then 1 else 0)
  | Raise e =>
      e = RecursionError /\ (recursion_limit <= length h)%nat /\ 0 < depth
  end.
Proof.
  intros G F. unfold StatementSplitter.process_list_at_depth.
  destruct (Z.leb_spec depth 0) as [Hd|Hd].
  - unfold ret. exists (StatementSplitter.tokens self).
    split; [now destruct self|]. split; [exact G|]. split.
    + replace (Z.to_nat (depth - 1)) with (Z.to_nat depth) by lia. exact F.
    + destruct (Z.ltb_spec 0 depth); lia.
  - match goal with
    | |- context [StatementSplitter.on_frame self _ ?f] => set (f0 := f)
    end.
    set (Q := fun h' => graded h' 0 /\ length h' = S (length h)).
    set (R := fun e => e = RecursionError
                       /\ (recursion_limit <= length h)%nat /\ 0 < depth).
    assert (F1 : frames (length h) (Z.to_nat (depth - 1) + 1)
                        (StatementSplitter.tokens self)).
    { replace (Z.to_nat (depth - 1) + 1)%nat with (Z.to_nat depth) by lia.
      exact F. }
    assert (Hf0 : forall l0, frames (length h) 1 l0 ->
              match f0 l0 h with
              | Ok (l0', h') =>
                  (length h <= length h')%nat /\ frames (length h') 0 l0' /\ Q h'
              | Raise e => R e
              end).
    { intros l0 (ids & last & -> & Hids & (ids' & -> & Hids')).
      unfold f0. rewrite rev_app_distr. cbn [rev app].
      change (TokenList__init__ Statement (Some (map Obj ids')))
        with (new_group Statement ids').
      destruct (new_group_cases h Statement ids' 0 ltac:(lia) G)
        as [(h1 & E & L & S & K & I & T & _)|[E Hl]].
      { intros t Ht. split; [auto|right; lia]. }
      - unfold bind. rewrite E. unfold ret. rewrite rev_involutive.
        split; [lia|]. split; [|split; [|exact L]].
        + cbn [frames]. exists (ids ++ [length h]).
          split; [now rewrite map_app|].
          intros i Hi. apply in_app_or in Hi. destruct Hi as [Hi|[<-|[]]].
          * specialize (Hids i Hi). lia.
          * lia.
        + apply (graded_extend h h1 0 ids'); auto.
          * lia.
          * intros j Lj. apply sbp_is_group, S, Lj.
          * intros j Lj. apply sbp_tokens, S. lia.
          * intros t Ht. split; [auto|right; lia].
      - unfold bind. rewrite E. split; [reflexivity|]. split; lia. }
    pose proof (on_frame_cases Q R self (Z.to_nat (depth - 1)) 1 0 f0 h F1 Hf0)
      as H.
    destruct (StatementSplitter.on_frame self (Z.to_nat (depth - 1)) f0 h)
      as [[self' h']|e]; [|exact H].
    destruct H as (l' & -> & F' & G' & L').
    exists l'. split; [reflexivity|]. split; [exact G'|]. split.
    + now rewrite Nat.add_0_r in F'.
    + destruct (Z.ltb_spec 0 depth); lia.
Qed.

Lemma new_Token_ok ty value h :
  graded h 0 ->
  exists h', new_Token ty value h = Ok (length h, h')
             /\ length h' = S (length h) /\ graded h' 0.
Proof.
  intro G. unfold new_Token, alloc. eexists. split; [reflexivity|].
  split; [rewrite length_app; cbn; lia|].
  apply graded_alloc_leaf; auto.
Qed.


(** One round of the loop: the state stays well formed and the heap and
    the level together grow by two at most, or the text of the frame just
    closed is nested deeper than the interpreter allows. *)
Lemma process_token_cases ForIn self tv h :
  splitter_ok self h ->
  match StatementSplitter.process_token ForIn self tv h with
  | Ok (self', h') =>
      splitter_ok self' h'
      /\ Z.of_nat (length h') + Z.max 0 (StatementSplitter.level self')
         <= Z.of_nat (length h) + Z.max 0 (StatementSplitter.level self) + 2
  | Raise e =>
      e = RecursionError
      /\ Z.of_nat recursion_limit
         <= Z.of_nat (length h) + Z.max 0 (StatementSplitter.level self) + 1
  end.
Proof.
  intros [G F]. destruct tv as [ty value].
  unfold StatementSplitter.process_token.
  pose proof (change_splitlevel_cases ForIn self ty value) as H.
  destruct (StatementSplitter._change_splitlevel ForIn self ty value)
    as [csl s1].
  cbn [fst snd] in H. destruct H as (Hc & Ht & Hl).
  set (s2 := StatementSplitter.set_level s1 (StatementSplitter.level s1 + csl)).
  assert (T2 : StatementSplitter.tokens s2 = StatementSplitter.tokens self)
    by (unfold s2; destruct s1; exact Ht).
  assert (L2 : StatementSplitter.level s2 = StatementSplitter.level self + csl)
    by (unfold s2; destruct s1; cbn in *; lia).
  destruct (new_Token_ok ty value h G) as (h1 & E1 & Lh1 & G1).
  destruct Hc as [->|[->| ->]]; cbn [Z.eqb Pos.eqb].
  - (* the level goes down *)
    unfold bind at 1. rewrite E1.
    destruct (append_token_at_depth_ok s2 (StatementSplitter.level s2 + 1)
                (length h) h1) as (l1 & Ea & Fa).
    { lia. }
    { rewrite T2, L2. replace (StatementSplitter.level self + -1 + 1)
        with (StatementSplitter.level self) by lia.
      apply (frames_mono (length h)); [lia|exact F]. }
    unfold bind at 1. rewrite Ea.
    assert (Ls : StatementSplitter.level (StatementSplitter.set_tokens s2 l1)
                 = StatementSplitter.level s2) by (now destruct s2).
    rewrite Ls.
    pose proof (process_list_at_depth_cases (StatementSplitter.set_tokens s2 l1)
                  (StatementSplitter.level s2 + 1) h1 G1) as Hp.
    destruct (StatementSplitter.process_list_at_depth
                (StatementSplitter.set_tokens s2 l1)
                (StatementSplitter.level s2 + 1) h1) as [[s3 h3]|e].
    + destruct Hp as (l2 & -> & Gp & Fp & Lp).
      { replace (StatementSplitter.tokens (StatementSplitter.set_tokens s2 l1))
          with l1 by (now destruct s2). exact Fa. }
      split.
      * split; [exact Gp|].
        replace (StatementSplitter.level s2 + 1 - 1)
          with (StatementSplitter.level s2) in Fp by lia.
        destruct s2; exact Fp.
      * assert (Ll : StatementSplitter.level
                       (StatementSplitter.set_tokens
                          (StatementSplitter.set_tokens s2 l1) l2)
                     = StatementSplitter.level self + -1)
          by (destruct s2; exact L2).
        rewrite Ll.
        destruct (Z.ltb_spec 0 (StatementSplitter.level s2 + 1)); lia.
    + destruct Hp as (-> & Hr & Hd).
      { replace (StatementSplitter.tokens (StatementSplitter.set_tokens s2 l1))
          with l1 by (now destruct s2). exact Fa. }
      split; [reflexivity|]. lia.
  - (* the level stays *)
    unfold bind at 1. rewrite E1.
    destruct (append_token_at_depth_ok s2 (StatementSplitter.level s2)
                (length h) h1) as (l1 & Ea & Fa).
    { lia. }
    { rewrite T2, L2, Z.add_0_r.
      apply (frames_mono (length h)); [lia|exact F]. }
    rewrite Ea. split.
    + split; [exact G1|]. destruct s2; exact Fa.
    + replace (StatementSplitter.level (StatementSplitter.set_tokens s2 l1))
        with (StatementSplitter.level self + 0) by (destruct s2; now rewrite <- L2).
      lia.
  - (* the level goes up *)
    destruct (add_new_token_array_at_ok s2 (StatementSplitter.level s2) h G)
      as (l0 & E0 & F0).
    { rewrite T2, L2. replace (StatementSplitter.level self + 1 - 1)
        with (StatementSplitter.level self) by lia. exact F. }
    unfold bind at 1. rewrite E0. unfold bind at 1. rewrite E1.
    assert (Ls : StatementSplitter.level (StatementSplitter.set_tokens s2 l0)
                 = StatementSplitter.level s2) by (now destruct s2).
    rewrite Ls.
    destruct (append_token_at_depth_ok (StatementSplitter.set_tokens s2 l0)
                (StatementSplitter.level s2) (length h) h1)
      as (l1 & Ea & Fa).
    { lia. }
    { replace (StatementSplitter.tokens (StatementSplitter.set_tokens s2 l0))
        with l0 by (now destruct s2).
      apply (frames_mono (length h)); [lia|exact F0]. }
    rewrite Ea. split.
    + split; [exact G1|]. destruct s2; exact Fa.
    + replace (StatementSplitter.level
                 (StatementSplitter.set_tokens
                    (StatementSplitter.set_tokens s2 l0) l1))
        with (StatementSplitter.level self + 1) by (destruct s2; now rewrite <- L2).
      lia.
Qed.

Lemma process_stream_cases ForIn stream :
  forall self h,
    splitter_ok self h ->
    match StatementSplitter.process_stream ForIn self stream h with
    | Ok (self', h') =>
        splitter_ok self' h'
        /\ Z.of_nat (length h') + Z.max 0 (StatementSplitter.level self')
           <= Z.of_nat (length h) + Z.max 0 (StatementSplitter.level self)
              + 2 * Z.of_nat (length stream)
    | Raise e =>
        e = RecursionError
        /\ Z.of_nat recursion_limit
           <= Z.of_nat (length h) + Z.max 0 (StatementSplitter.level self)
              + 2 * Z.of_nat (length stream)
    end.
Proof.
  induction stream as [|tv r IH]; intros self h Hok.
  - cbn [StatementSplitter.process_stream]. unfold ret.
    split; [exact Hok|]. cbn [length]. lia.
  - cbn [StatementSplitter.process_stream].
    pose proof (process_token_cases ForIn self tv h Hok) as H1.
    unfold bind.
    destruct (StatementSplitter.process_token ForIn self tv h)
      as [[s1 h1]|e].
    + destruct H1 as [Hok1 M1]. specialize (IH s1 h1 Hok1).
      destruct (StatementSplitter.process_stream ForIn s1 r h1)
        as [[s2 h2]|e].
      * destruct IH as [Hok2 M2]. split; [exact Hok2|]. cbn [length]. lia.
      * destruct IH as [-> M2]. split; [reflexivity|]. cbn [length]. lia.
    + destruct H1 as [-> M1]. split; [reflexivity|]. cbn [length]. lia.
Qed.

Lemma drain_cases fuel :
  forall self h,
    splitter_ok self h ->
    (Z.to_nat (StatementSplitter.level self) <= fuel)%nat ->
    match StatementSplitter.drain fuel self h with
    | Ok (self', h') =>
        splitter_ok self' h'
        /\ StatementSplitter.level self' <= 0
        /\ Z.of_nat (length h')
           <= Z.of_nat (length h) + Z.max 0 (StatementSplitter.level self)
    | Raise e =>
        e = RecursionError
        /\ Z.of_nat recursion_limit
           <= Z.of_nat (length h) + Z.max 0 (StatementSplitter.level self)
    end.
Proof.
  induction fuel as [|fuel IH]; intros self h [G F] Hf.
  - cbn [StatementSplitter.drain].
    destruct (Z.ltb_spec 0 (StatementSplitter.level self)); [lia|].
    unfold ret. split; [split; auto|lia].
  - cbn [StatementSplitter.drain].
    destruct (Z.ltb_spec 0 (StatementSplitter.level self)).
    2:{ unfold ret. split; [split; auto|lia]. }
    set (s1 := StatementSplitter.set_level self
                 (StatementSplitter.level self - 1)).
    assert (T1 : StatementSplitter.tokens s1 = StatementSplitter.tokens self)
      by (unfold s1; now destruct self).
    assert (L1 : StatementSplitter.level s1 = StatementSplitter.level self - 1)
      by (unfold s1; now destruct self).
    pose proof (process_list_at_depth_cases s1 (StatementSplitter.level s1 + 1)
                  h G) as Hp.
    unfold bind.
    destruct (StatementSplitter.process_list_at_depth s1
                (StatementSplitter.level s1 + 1) h) as [[s2 h2]|e].
    + destruct Hp as (l' & -> & G' & F' & L').
      { rewrite T1, L1.
        replace (StatementSplitter.level self - 1 + 1)
          with (StatementSplitter.level self) by lia. exact F. }
      assert (Ls : StatementSplitter.level (StatementSplitter.set_tokens s1 l')
                   = StatementSplitter.level s1) by (now destruct s1).
      specialize (IH (StatementSplitter.set_tokens s1 l') h2).
      destruct (Z.ltb_spec 0 (StatementSplitter.level s1 + 1)); [|lia].
      destruct (StatementSplitter.drain fuel
                  (StatementSplitter.set_tokens s1 l') h2) as [[s3 h3]|e].
      * destruct IH as (Hok3 & L3 & M3).
        { split; [exact G'|].
          replace (StatementSplitter.level s1 + 1 - 1)
            with (StatementSplitter.level s1) in F' by lia.
          destruct s1; exact F'. }
        { rewrite Ls. lia. }
        split; [exact Hok3|]. split; [exact L3|]. rewrite Ls in M3. lia.
      * destruct IH as (-> & M3).
        { split; [exact G'|].
          replace (StatementSplitter.level s1 + 1 - 1)
            with (StatementSplitter.level s1) in F' by lia.
          destruct s1; exact F'. }
        { rewrite Ls. lia. }
        split; [reflexivity|]. rewrite Ls in M3. lia.
    + destruct Hp as (-> & Hr & Hd).
      { rewrite T1, L1.
        replace (StatementSplitter.level self - 1 + 1)
          with (StatementSplitter.level self) by lia. exact F. }
      split; [reflexivity|]. lia.
Qed.

Lemma process_cases ForIn stream :
  match StatementSplitter.process ForIn StatementSplitter._reset stream [] with
  | Ok ((stmts, self'), h') =>
      stmts = []
      \/ exists st, stmts = [st]
                    /\ class_ (deref h' st) = Statement
                    /\ is_group (deref h' st) = true
  | Raise e =>
      e = RecursionError /\ (recursion_limit <= 2 * length stream)%nat
  end.
Proof.
  unfold StatementSplitter.process.
  assert (Hok0 : splitter_ok StatementSplitter._reset []).
  { split.
    - intros g Hg. cbn in Hg. lia.
    - cbn. exists []. split; [reflexivity|]. intros i []. }
  pose proof (process_stream_cases ForIn stream _ _ Hok0) as H1.
  change (StatementSplitter.level StatementSplitter._reset) with 0 in H1.
  cbn [length] in H1.
  unfold bind at 1.
  destruct (StatementSplitter.process_stream ForIn StatementSplitter._reset
              stream []) as [[s1 h1]|e].
  2:{ destruct H1 as [-> M1]. split; [reflexivity|]. lia. }
  destruct H1 as [Hok1 M1].
  pose proof (drain_cases (Z.to_nat (StatementSplitter.level s1)) s1 h1 Hok1
                ltac:(lia)) as H2.
  unfold bind at 1.
  destruct (StatementSplitter.drain (Z.to_nat (StatementSplitter.level s1))
              s1 h1) as [[s2 h2]|e].
  2:{ destruct H2 as [-> M2]. split; [reflexivity|]. lia. }
  destruct H2 as ([G2 F2] & L2 & M2).
  replace (Z.to_nat (StatementSplitter.level s2)) with 0%nat in F2 by lia.
  cbn [frames] in F2. destruct F2 as (ids & Eids & Hids).
  rewrite Eids. destruct ids as [|i ids].
  - cbn [map]. unfold ret. now left.
  - cbn [map]. change (Obj i :: map Obj ids) with (map Obj (i :: ids)).
    change (TokenList__init__ Statement (Some (map Obj (i :: ids))))
      with (new_group Statement (i :: ids)).
    destruct (new_group_cases h2 Statement (i :: ids) 0 ltac:(lia) G2)
      as [(h3 & E3 & L3 & S3 & K3 & I3 & _)|[E3 Hl]].
    { intros t Ht. split; [auto|right; lia]. }
    + unfold bind. rewrite E3. unfold ret. right. eauto.
    + unfold bind. rewrite E3. split; [reflexivity|]. lia.
Qed.

(** [StatementSplitter.process] raises nothing but [RecursionError], and
    that only for a stream of at least half as many tokens as the
    interpreter allows nested calls: on every other stream a fresh
    splitter returns, with no statement or with one, which is a
    [Statement] group (closers without an opener, openers left open and
    the empty stream included). *)
Theorem process_raises_only_beyond_limit :
  forall (ForIn : ttype) (stream : list (ttype * string)),
    (exists stmts self' h',
       StatementSplitter.process ForIn StatementSplitter._reset stream []
       = Ok ((stmts, self'), h')
       /\ (stmts = []
           \/ exists st, stmts = [st]
                         /\ class_ (deref h' st) = Statement
                         /\ is_group (deref h' st) = true))
    \/ (StatementSplitter.process ForIn StatementSplitter._reset stream []
        = Raise RecursionError
        /\ (recursion_limit <= 2 * length stream)%nat).
Proof.
  intros ForIn stream. pose proof (process_cases ForIn stream) as H.
  destruct (StatementSplitter.process ForIn StatementSplitter._reset stream [])
    as [[[stmts self'] h']|e].
  - left. exists stmts, self', h'. split; [reflexivity|exact H].
  - destruct H as [-> H]. right. split; [reflexivity|exact H].
Qed.

(** ** Construction of a group over leaves *)

Lemma join_values_ext h h' l :
  (forall t, In t l -> value (deref h' t) = value (deref h t)) ->
  join_values h' l = join_values h l.
Proof.
  unfold join_values.
  induction l as [|t l IH]; intro H; cbn [fold_right]; [reflexivity|].
  rewrite H by (now left). rewrite IH by (intros; apply H; now right).
  reflexivity.
Qed.

Lemma sbp_value a b : same_but_parent a b -> value a = value b.
Proof.
  unfold same_but_parent. intro H.
  change (value (set_parent a None) = value (set_parent b None)). now rewrite H.
Qed.

Lemma sbp_with_parent a b p :
  same_but_parent a b -> parent a = p -> a = set_parent b p.
Proof.
  intros S P. rewrite <- (sbp_parent_irrelevant a b p S).
  subst p. now destruct a.
Qed.

Lemma new_group_leaves :
  forall (h : heap) (c : cls) (l : list nat),
    c <> Token ->
    (forall t, In t l -> (t < length h)%nat /\ is_group (deref h t) = false) ->
    exists h',
      new_group c l h = Ok (length h, h')
      /\ length h' = S (length h)
      /\ deref h' (length h)
         = mkNode c (join_values h l) None None (join_values h l)
                  false true false l
      /\ (forall t, In t l ->
            deref h' t = set_parent (deref h t) (Some (length h)))
      /\ (forall j, (j < length h)%nat -> ~ In j l -> deref h' j = deref h j).
Proof.
  intros h c l Hc Hl.
  unfold new_group, TokenList__init__.
  unfold bind at 1. unfold alloc at 1.
  set (fresh := mkNode c "" None None "" false false false []).
  set (g := length h).
  destruct (set_parents_frame g l (h ++ [fresh])) as (h2 & E2 & [L2 S2] & O2 & P2).
  unfold bind at 1. rewrite E2.
  assert (L2' : length h2 = S g) by (rewrite L2, length_app; cbn; lia).
  assert (Ng : ~ In g l) by (intro I; destruct (Hl g I); unfold g in *; lia).
  assert (D2g : deref h2 g = fresh).
  { rewrite O2 by exact Ng. unfold deref, g. now rewrite nth_middle. }
  assert (D2 : forall j, (j < g)%nat -> same_but_parent (deref h2 j) (deref h j)).
  { intros j Lj. eapply sbp_trans; [apply S2|].
    rewrite deref_app_old by exact Lj. apply sbp_refl. }
  unfold bind at 1. unfold setattr at 1, bind at 1, get at 1, put at 1.
  rewrite D2g.
  set (h3 := list_set h2 g (set_tokens fresh l)).
  assert (L3 : length h3 = S g) by (unfold h3; now rewrite length_list_set).
  assert (D3g : deref h3 g = set_tokens fresh l)
    by (unfold h3; apply deref_put_same; lia).
  assert (D3 : forall j, j <> g -> deref h3 j = deref h2 j)
    by (intros; unfold h3; apply deref_put_other; auto).
  assert (Ev : text_type g h3 = Ok (join_values h l, h3)).
  { unfold text_type, bind, get. rewrite D3g. cbn [class_ set_tokens fresh].
    replace (cls_beq c Token) with false
      by (clear - Hc; destruct c; try reflexivity; congruence).
    unfold __str__. destruct recursion_limit_S as [k0 ->].
    cbn [flatten]. rewrite D3g. cbn [tokens set_tokens].
    rewrite concat_res_leaves.
    - f_equal. f_equal. apply join_values_ext. intros t It.
      destruct (Hl t It) as [Lt _]. rewrite D3 by (unfold g; lia).
      apply sbp_value, D2, Lt.
    - intros t It. destruct (Hl t It) as [Lt Gt].
      rewrite D3 by (unfold g; lia).
      rewrite (sbp_is_group _ _ (D2 t Lt)). exact Gt. }
  unfold bind at 1. rewrite Ev.
  unfold bind, get, put, ret. rewrite D3g.
  eexists; split; [reflexivity|].
  split; [now rewrite length_list_set|].
  split; [|split].
  - rewrite deref_put_same by lia. reflexivity.
  - intros t It. destruct (Hl t It) as [Lt _].
    rewrite deref_put_other by (unfold g; lia).
    rewrite D3 by (unfold g; lia).
    apply sbp_with_parent; [apply D2, Lt|].
    apply P2; [exact It|]. rewrite length_app. cbn. lia.
  - intros j Lj Nj. rewrite deref_put_other by (unfold g; lia).
    rewrite D3 by (unfold g; lia). rewrite O2 by exact Nj.
    apply deref_app_old, Lj.
Qed.


(** [grp_cls(tokens)] on a list of existing leaves returns a new object:
    a group of that class holding the list, whose value is the
    concatenation of the leaves' values and whose type is [None]; every
    listed leaf has the group as its parent afterwards, and nothing else
    changes. *)
Theorem new_group_of_leaves :
  forall (h : heap) (c : cls) (l : list nat),
    c <> Token ->
    (forall t, In t l -> (t < length h)%nat /\ is_group (deref h t) = false) ->
    exists h',
      new_group c l h = Ok (length h, h')
      /\ length h' = S (length h)
      /\ deref h' (length h)
         = mkNode c (join_values h l) None None (join_values h l)
                  false true false l
      /\ (forall t, In t l ->
            deref h' t = set_parent (deref h t) (Some (length h)))
      /\ (forall j, (j < length h)%nat -> ~ In j l -> deref h' j = deref h j).
Proof. exact new_group_leaves. Qed.

Lemma new_group_of_leaves_witness :
  exists h',
    new_group Parenthesis [0%nat; 1%nat; 2%nat] heap_paren_pair
    = Ok (length heap_paren_pair, h')
    /\ length h' = S (length heap_paren_pair)
    /\ deref h' (length heap_paren_pair)
       = mkNode Parenthesis (join_values heap_paren_pair [0%nat; 1%nat; 2%nat])
                None None (join_values heap_paren_pair [0%nat; 1%nat; 2%nat])
                false true false [0%nat; 1%nat; 2%nat]
    /\ (forall t, In t [0%nat; 1%nat; 2%nat] ->
          deref h' t = set_parent (deref heap_paren_pair t)
                                  (Some (length heap_paren_pair)))
    /\ (forall j, (j < length heap_paren_pair)%nat ->
                  ~ In j [0%nat; 1%nat; 2%nat] ->
                  deref h' j = deref heap_paren_pair j).
Proof.
  apply (new_group_of_leaves heap_paren_pair Parenthesis [0%nat; 1%nat; 2%nat]).
  - discriminate.
  - intros t It. destruct It as [<-|[<-|[<-|[]]]]; split; vm_compute;
      (lia || reflexivity).
Defined.

(** ** The splitter on plain streams *)

Lemma process_token_plain ForIn self ty v ids h :
  ttype_in (Some ty) T.Keyword = false ->
  StatementSplitter.level self = 0 ->
  StatementSplitter.tokens self = map Obj ids ->
  exists self',
    StatementSplitter.process_token ForIn self (ty, v) h
    = Ok (self', h ++ [Token__init__ dummy (Some ty) v])
    /\ StatementSplitter.level self' = 0
    /\ StatementSplitter.tokens self' = map Obj (ids ++ [length h]).
Proof.
  intros Hk Hl Ht. unfold StatementSplitter.process_token.
  unfold StatementSplitter._change_splitlevel. rewrite Hk. cbn [negb].
  rewrite Hl. cbn [Z.add Z.eqb Pos.eqb].
  unfold bind, new_Token, alloc.
  unfold StatementSplitter.append_token_at_depth.
  destruct self; cbn in Hl, Ht; subst.
  cbn [StatementSplitter.level StatementSplitter.set_level Z.add Z.leb
       Z.compare Pos.compare].
  unfold StatementSplitter.on_frame, bind. cbn. unfold ret.
  eexists. split; [reflexivity|]. split; [reflexivity|].
  cbn. now rewrite map_app.
Qed.

Lemma process_stream_plain ForIn stream :
  (forall ty v, In (ty, v) stream -> ttype_in (Some ty) T.Keyword = false) ->
  forall self ids h,
    StatementSplitter.level self = 0 ->
    StatementSplitter.tokens self = map Obj ids ->
    exists self',
      StatementSplitter.process_stream ForIn self stream h
      = Ok (self', h ++ map (fun tv => Token__init__ dummy (Some (fst tv)) (snd tv))
                            stream)
      /\ StatementSplitter.level self' = 0
      /\ StatementSplitter.tokens self'
         = map Obj (ids ++ seq (length h) (length stream)).
Proof.
  induction stream as [|[ty v] r IH]; intros Hk self ids h Hl Ht.
  - exists self. cbn. rewrite !app_nil_r. auto.
  - cbn [StatementSplitter.process_stream].
    destruct (process_token_plain ForIn self ty v ids h
                (Hk ty v (or_introl eq_refl)) Hl Ht) as (s1 & E1 & L1 & T1).
    unfold bind. rewrite E1.
    destruct (IH (fun ty' v' I => Hk ty' v' (or_intror I)) s1 _
                (h ++ [Token__init__ dummy (Some ty) v]) L1 T1)
      as (s2 & E2 & L2 & T2).
    exists s2. rewrite E2. split.
    + cbn [map fst snd]. now rewrite <- app_assoc.
    + split; [exact L2|]. rewrite T2. f_equal.
      rewrite <- app_assoc. f_equal. cbn [length seq app].
      f_equal. f_equal. rewrite length_app. cbn. lia.
Qed.

Lemma join_values_tokens (stream : list (ttype * string)) (pre : heap) :
  join_values (pre ++ map (fun tv => Token__init__ dummy (Some (fst tv)) (snd tv))
                          stream)
              (seq (length pre) (length stream))
  = text_of stream.
Proof.
  revert pre; induction stream as [|[ty v] r IH]; intro pre; [reflexivity|].
  cbn [length seq map]. unfold join_values, text_of. cbn [fold_right snd fst].
  f_equal.
  - unfold deref. rewrite nth_middle. reflexivity.
  - specialize (IH (pre ++ [Token__init__ dummy (Some ty) v])).
    rewrite <- app_assoc, length_app in IH. cbn [length app] in IH.
    replace (length pre + 1)%nat with (S (length pre)) in IH by lia.
    exact IH.
Qed.

(** Round trip on plain streams: a non-empty stream without keyword
    tokens is split into exactly one [Statement]; its children are the
    stream's tokens, in order and each with the stream's type and value,
    and its text is the concatenation of the values. *)
Theorem process_plain_stream :
  forall (ForIn : ttype) (stream : list (ttype * string)),
    stream <> [] ->
    (forall ty v, In (ty, v) stream -> ttype_in (Some ty) T.Keyword = false) ->
    let n := length stream in
    exists self' h',
      StatementSplitter.process ForIn StatementSplitter._reset stream []
      = Ok (([n], self'), h')
      /\ length h' = S n
      /\ deref h' n
         = mkNode Statement (text_of stream) None None (text_of stream)
                  false true false (seq 0 n)
      /\ forall k ty v, nth_error stream k = Some (ty, v) ->
           deref h' k = set_parent (Token__init__ dummy (Some ty) v) (Some n).
Proof.
  intros ForIn stream Hne Hk n.
  unfold StatementSplitter.process.
  destruct (process_stream_plain ForIn stream Hk StatementSplitter._reset []
              [] eq_refl eq_refl) as (s1 & E1 & L1 & T1).
  cbn [app length] in E1, T1.
  set (h1 := map (fun tv => Token__init__ dummy (Some (fst tv)) (snd tv)) stream)
    in *.
  assert (Lh1 : length h1 = n) by (unfold h1; apply length_map).
  unfold bind at 1. rewrite E1. rewrite L1. cbn [Z.to_nat].
  cbn [StatementSplitter.drain]. rewrite L1. cbn [Z.ltb Z.compare].
  unfold bind at 1. unfold ret at 1. rewrite T1.
  fold n. destruct stream as [|tv r]; [congruence|].
  cbn [length] in n. unfold n at 1. cbn [seq map].
  change (Obj 0%nat :: map Obj (seq 1 (length r)))
    with (map Obj (seq 0 n)).
  change (TokenList__init__ Statement (Some (map Obj (seq 0 n))))
    with (new_group Statement (seq 0 n)).
  assert (Hleaf : forall k, (k < n)%nat ->
            exists ty v, nth_error (tv :: r) k = Some (ty, v)
                         /\ deref h1 k = Token__init__ dummy (Some ty) v).
  { intros k Lk. destruct (nth_error (tv :: r) k) as [[ty v]|] eqn:E.
    - exists ty, v. split; [reflexivity|]. unfold deref, h1.
      rewrite (nth_error_nth _ _ dummy
                 (map_nth_error (fun tv => Token__init__ dummy (Some (fst tv)) (snd tv))
                                _ _ E)).
      reflexivity.
    - apply nth_error_None in E. unfold n in Lk. cbn [length] in E, Lk. lia. }
  destruct (new_group_leaves h1 Statement (seq 0 n) ltac:(discriminate))
    as (h' & E' & L' & D' & C' & O').
  { intros t It. apply in_seq in It. split; [lia|].
    destruct (Hleaf t ltac:(lia)) as (ty & v & _ & ->). reflexivity. }
  rewrite Lh1 in E', L', D'.
  unfold bind. rewrite E'. unfold ret.
  exists s1, h'. split; [reflexivity|]. split; [exact L'|]. split.
  - assert (J : join_values h1 (seq 0 n) = text_of (tv :: r))
      by exact (join_values_tokens (tv :: r) []).
    rewrite D', J. reflexivity.
  - intros k ty v Ek.
    assert (Lk : (k < n)%nat).
    { assert (k < length (tv :: r))%nat by (apply nth_error_Some; congruence).
      unfold n. cbn [length] in *. lia. }
    rewrite C' by (apply in_seq; lia). rewrite Lh1.
    destruct (Hleaf k Lk) as (ty' & v' & Ek' & ->).
    rewrite Ek in Ek'. inversion Ek'; subst. reflexivity.
Qed.

Lemma process_plain_stream_witness :
  let stream := [punct "("; name "a"; punct ")"] in
  let n := length stream in
  exists self' h',
    StatementSplitter.process T.ForIn StatementSplitter._reset stream []
    = Ok (([n], self'), h')
    /\ length h' = S n
    /\ deref h' n
       = mkNode Statement (text_of stream) None None (text_of stream)
                false true false (seq 0 n)
    /\ forall k ty v, nth_error stream k = Some (ty, v) ->
         deref h' k = set_parent (Token__init__ dummy (Some ty) v) (Some n).
Proof.
  apply (process_plain_stream T.ForIn [punct "("; name "a"; punct ")"]).
  - discriminate.
  - intros ty v [E|[E|[E|[]]]]; inversion E; reflexivity.
Defined.

(** ** Grouping a slice of leaves *)

Lemma concat_res_app {A B} (f : A -> res (list B)) l1 l2 :
  concat_res f (l1 ++ l2)
  = match concat_res f l1 with
    | Ok a => match concat_res f l2 with
              | Ok b => Ok (a ++ b)
              | Raise e => Raise e
              end
    | Raise e => Raise e
    end.
Proof.
  induction l1 as [|t l1 IH]; cbn [app concat_res].
  - now destruct (concat_res f l2).
  - destruct (f t) as [xs|e]; [|reflexivity]. rewrite IH.
    destruct (concat_res f l1); [|reflexivity].
    destruct (concat_res f l2); [|reflexivity].
    now rewrite app_assoc.
Qed.

(** [group_tokens(grp_cls, start, end)] on a list of leaves, for indices
    [0 <= start <= end < len(tokens)]: the slice [tokens[start:end+1]] is
    replaced by one new group of the class, which holds the slice, has the
    list as parent and the slice's text as value; the leaves of the slice
    get the group as parent, nothing else changes, and the list flattens
    to the same leaves as before. *)
Theorem group_tokens_of_leaves :
  forall (h : heap) (self : nat) (c : cls) (o e : Z),
    c <> Token ->
    (self < length h)%nat ->
    is_group (deref h self) = true ->
    (forall t, In t (tokens (deref h self)) ->
       (t < length h)%nat /\ is_group (deref h t) = false) ->
    0 <= o <= e -> e < len (tokens (deref h self)) ->
    let cur := tokens (deref h self) in
    let sub := firstn (Z.to_nat (e + 1) - Z.to_nat o) (skipn (Z.to_nat o) cur) in
    let cur' := firstn (Z.to_nat o) cur ++ [length h]
                ++ skipn (Z.to_nat (e + 1)) cur in
    exists h',
      group_tokens self c (Some o) (Some e) true false h = Ok (length h, h')
      /\ length h' = S (length h)
      /\ deref h' self = set_tokens (deref h self) cur'
      /\ deref h' (length h)
         = mkNode c (join_values h sub) None (Some self) (join_values h sub)
                  false true false sub
      /\ (forall t, In t sub ->
            deref h' t = set_parent (deref h t) (Some (length h)))
      /\ (forall j, (j < length h)%nat -> j <> self -> ~ In j sub ->
            deref h' j = deref h j)
      /\ flatten (S (length h')) h' self = Ok cur.
Proof.
  intros h self c o e Hc Ls Gs Hl Ho He cur sub cur'.
  fold cur in He, Hl.
  assert (Hsub : forall t, In t sub -> In t cur).
  { intros t It. unfold sub in It. apply In_firstn in It.
    eapply In_skipn; eauto. }
  assert (Nself : ~ In self cur).
  { intro I. destruct (Hl self I) as [_ E]. congruence. }
  destruct (new_group_leaves h c sub Hc (fun t It => Hl t (Hsub t It)))
    as (h1 & E1 & L1 & D1g & D1s & D1o).
  set (g := length h) in *.
  unfold group_tokens.
  unfold bind at 1, get at 1. fold cur.
  unfold bind at 1. rewrite (py_index_ok cur o 0%nat) by lia. unfold lift at 1.
  unfold bind at 1, get at 1.
  cbn [andb]. rewrite (py_slice_ok cur o e) by lia. fold sub.
  unfold bind at 1. rewrite E1.
  assert (D1self : deref h1 self = deref h self).
  { apply D1o; [exact Ls|]. intro I. apply Nself, Hsub, I. }
  unfold bind at 1, setattr at 1, bind at 1, get at 1, put at 1.
  rewrite D1self. fold cur. rewrite (py_slice_assign_ok cur [g] o e) by lia.
  fold cur'.
  set (h2 := list_set h1 self (set_tokens (deref h self) cur')).
  unfold bind at 1, setattr at 1, bind at 1, get at 1, put at 1.
  assert (D2g : deref h2 g = deref h1 g)
    by (unfold h2; apply deref_put_other; unfold g; lia).
  rewrite D2g, D1g.
  set (G := mkNode c (join_values h sub) None (Some self) (join_values h sub)
                   false true false sub).
  change (set_parent (mkNode c (join_values h sub) None None (join_values h sub)
                             false true false sub) (Some self)) with G.
  set (h3 := list_set h2 g G).
  destruct (for_each_parent_frame sub (Some g) h3) as (h4 & E4 & [L4 S4] & O4 & P4).
  unfold bind at 1. rewrite E4. unfold ret.
  assert (L2 : length h2 = S g) by (unfold h2; now rewrite length_list_set).
  assert (L3 : length h3 = S g) by (unfold h3; now rewrite length_list_set).
  assert (Ng : ~ In g sub).
  { intro I. destruct (Hl g (Hsub g I)). unfold g in *. lia. }
  assert (Ns : ~ In self sub) by (intro I; apply Nself, Hsub, I).
  assert (D4self : deref h4 self = set_tokens (deref h self) cur').
  { rewrite O4 by exact Ns. unfold h3. rewrite deref_put_other by (unfold g; lia).
    unfold h2. apply deref_put_same. lia. }
  assert (D4g : deref h4 g = G).
  { rewrite O4 by exact Ng. unfold h3. apply deref_put_same. lia. }
  assert (D4s : forall t, In t sub -> deref h4 t = set_parent (deref h t) (Some g)).
  { intros t It. destruct (Hl t (Hsub t It)) as [Lt _].
    assert (Nt : t <> self) by (intro; subst; auto).
    apply sbp_with_parent.
    - eapply sbp_trans; [apply S4|]. unfold h3.
      rewrite deref_put_other by (unfold g; lia). unfold h2.
      rewrite deref_put_other by auto. rewrite D1s by exact It.
      apply sbp_set_parent.
    - apply P4; [exact It|lia]. }
  assert (D4o : forall j, (j < g)%nat -> j <> self -> ~ In j sub ->
                          deref h4 j = deref h j).
  { intros j Lj Nj Ij. rewrite O4 by exact Ij. unfold h3.
    rewrite deref_put_other by (unfold g; lia). unfold h2.
    rewrite deref_put_other by auto. apply D1o; auto. }
  exists h4. split; [reflexivity|]. split; [congruence|].
  split; [exact D4self|]. split; [exact D4g|]. split; [exact D4s|].
  split; [exact D4o|].
  assert (Leaf4 : forall t, In t cur -> is_group (deref h4 t) = false).
  { intros t It. destruct (Hl t It) as [Lt Gt].
    rewrite (sbp_is_group _ _ (S4 t)). unfold h3.
    rewrite deref_put_other by (unfold g; lia). unfold h2.
    rewrite deref_put_other by (intro; subst; auto).
    destruct (in_dec Nat.eq_dec t sub) as [I|N].
    - rewrite D1s by exact I. now destruct (deref h t).
    - rewrite D1o by auto. exact Gt. }
  cbn [flatten]. rewrite D4self. cbn [tokens set_tokens]. unfold cur'.
  rewrite !concat_res_app.
  rewrite (concat_res_leaves h4 (firstn (Z.to_nat o) cur))
    by (intros t It; apply Leaf4; eapply In_firstn; eauto).
  rewrite (concat_res_leaves h4 (skipn (Z.to_nat (e + 1)) cur))
    by (intros t It; apply Leaf4; eapply In_skipn; eauto).
  cbn [concat_res]. rewrite D4g. cbn [is_group G].
  rewrite L4, L3. cbn [flatten]. rewrite D4g. cbn [tokens G].
  rewrite (concat_res_leaves h4 sub) by (intros t It; apply Leaf4, Hsub, It).
  rewrite app_nil_r. f_equal. unfold sub.
  symmetry. apply slice_decompose. lia.
Qed.

Lemma group_tokens_of_leaves_witness :
  exists h',
    group_tokens 3 Parenthesis (Some 0) (Some 2) true false heap_paren_pair
    = Ok (4%nat, h')
    /\ flatten (S (length h')) h' 3 = Ok [0%nat; 1%nat; 2%nat].
Proof.
  destruct (group_tokens_of_leaves heap_paren_pair 3 Parenthesis 0 2)
    as (h' & E & _ & _ & _ & _ & _ & F).
  - discriminate.
  - vm_compute. lia.
  - reflexivity.
  - intros t It. vm_compute in It.
    destruct It as [<-|[<-|[<-|[]]]]; split; vm_compute; (lia || reflexivity).
  - lia.
  - vm_compute. reflexivity.
  - exists h'. split; [exact E|exact F].
Defined.

(** ** Tokens below level zero *)

(** A token that arrives while the level is negative, and leaves it
    negative, is lost: the round allocates the token, raises nothing, and
    appends it to no frame ([self.level] is never clamped, and
    [append_token_at_depth] loops over an empty range). *)
Theorem token_lost_below_level_zero :
  forall (ForIn : ttype) (self : StatementSplitter.splitter) (ty : ttype)
         (value : string) (h : heap),
    StatementSplitter.level self < 0 ->
    StatementSplitter.level self
    + fst (StatementSplitter._change_splitlevel ForIn self ty value) < 0 ->
    exists self',
      StatementSplitter.process_token ForIn self (ty, value) h
      = Ok (self', h ++ [Token__init__ dummy (Some ty) value])
      /\ StatementSplitter.tokens self' = StatementSplitter.tokens self
      /\ StatementSplitter.level self'
         = StatementSplitter.level self
           + fst (StatementSplitter._change_splitlevel ForIn self ty value).
Proof.
  intros ForIn self ty value h Hneg Hnew.
  unfold StatementSplitter.process_token.
  pose proof (change_splitlevel_cases ForIn self ty value) as H.
  destruct (StatementSplitter._change_splitlevel ForIn self ty value)
    as [csl s1].
  cbn [fst snd] in *. destruct H as (Hc & Ht & Hl).
  set (s2 := StatementSplitter.set_level s1 (StatementSplitter.level s1 + csl)).
  assert (T2 : StatementSplitter.tokens s2 = StatementSplitter.tokens self)
    by (unfold s2; destruct s1; exact Ht).
  assert (L2 : StatementSplitter.level s2 = StatementSplitter.level self + csl)
    by (unfold s2; destruct s1; cbn in *; lia).
  unfold StatementSplitter.add_new_token_array_at,
    StatementSplitter.append_token_at_depth,
    StatementSplitter.process_list_at_depth, new_Token, alloc, bind, ret.
  destruct Hc as [->|[->| ->]]; cbn [Z.eqb Pos.eqb].
  - destruct (Z.leb_spec (StatementSplitter.level s2 + 1 + 1) 0); [|lia].
    destruct (Z.leb_spec (StatementSplitter.level s2 + 1) 0); [|lia].
    exists s2. auto.
  - destruct (Z.leb_spec (StatementSplitter.level s2 + 1) 0); [|lia].
    exists s2. auto.
  - destruct (Z.leb_spec (StatementSplitter.level s2) 0); [|lia].
    destruct (Z.leb_spec (StatementSplitter.level s2 + 1) 0); [|lia].
    exists s2. auto.
Qed.

Lemma token_lost_below_level_zero_witness :
  let self := StatementSplitter.set_level StatementSplitter._reset (-1) in
  exists self',
    StatementSplitter.process_token T.ForIn self (T.Punctuation, ";") []
    = Ok (self', [] ++ [Token__init__ dummy (Some T.Punctuation) ";"])
    /\ StatementSplitter.tokens self' = StatementSplitter.tokens self
    /\ StatementSplitter.level self'
       = StatementSplitter.level self
         + fst (StatementSplitter._change_splitlevel T.ForIn self
                  T.Punctuation ";").
Proof.
  apply (token_lost_below_level_zero T.ForIn
           (StatementSplitter.set_level StatementSplitter._reset (-1))
           T.Punctuation ";" []).
  - reflexivity.
  - reflexivity.
Defined.

(** ** The flatter *)

Lemma py_pop_ok {A} (l : list A) (i : Z) (d : A) :
  0 <= i < len l ->
  py_pop l i = Ok (nth (Z.to_nat i) l d,
                   firstn (Z.to_nat i) l ++ skipn (S (Z.to_nat i)) l).
Proof.
  intro Hi. unfold py_pop, len in *.
  destruct (Z.ltb_spec i 0); [lia|].
  destruct (Z.ltb_spec i 0); [lia|].
  destruct (Z.leb_spec (Z.of_nat (length l)) i); [lia|]. cbn [orb].
  destruct (nth_error l (Z.to_nat i)) eqn:E.
  - now rewrite (nth_error_nth _ _ d E).
  - apply nth_error_None in E. lia.
Qed.

Lemma py_insert_at {A} (a b : list A) (i : Z) (x : A) :
  i = len a -> py_insert (a ++ b) i x = a ++ x :: b.
Proof.
  intros ->. unfold py_insert, slice_bound, len.
  destruct (Z.ltb_spec (Z.of_nat (length a)) 0); [lia|].
  destruct (Z.ltb_spec (Z.of_nat (length a)) 0); [lia|].
  rewrite length_app.
  destruct (Z.ltb_spec (Z.of_nat (length a + length b)) (Z.of_nat (length a)));
    [lia|].
  rewrite Nat2Z.id.
  rewrite (firstn_app_exact a b) by reflexivity.
  replace (skipn (length a) (a ++ b)) with b; [reflexivity|].
  rewrite skipn_app, skipn_all, Nat.sub_diag. reflexivity.
Qed.

Lemma bind_eq {A B} (m : M A) (k : A -> M B) h a h1 :
  m h = Ok (a, h1) -> bind m k h = k a h1.
Proof. intro E. unfold bind. now rewrite E. Qed.

Lemma flatter_class_S c f stmt stmid :
  _flatter_class c (S f) stmt stmid
  = (n <- get stmt ;;
     if isinstance n [c] && (len (sql.tokens n) =? 1) then
       match parent n, stmid with
       | None, _ => raise AttributeError
       | Some _, None => raise TypeError
       | Some p, Some i =>
           pop p i ;;;
           n <- get stmt ;;
           par <- attr (Some stmt) parent ;;
           child <- lift (py_index (sql.tokens n) 0) ;;
           match par with
           | None => raise AttributeError
           | Some p' => insert_before p' i child
           end ;;;
           n <- get stmt ;;
           child <- lift (py_index (sql.tokens n) 0) ;;
           _flatter_class c f child stmid
       end
     else if is_group n then
       for_live f stmt 0 (fun sid stkn =>
         k <- get stkn ;;
         if isinstance k [c] then _flatter_class c f stkn (Some sid)
         else if is_group k then _flatter_class c f stkn (Some sid)
         else ret tt)
     else ret tt).
Proof. reflexivity. Qed.

Lemma pop_ok h p i :
  0 <= i < len (sql.tokens (deref h p)) ->
  pop p i h
  = Ok (nth (Z.to_nat i) (sql.tokens (deref h p)) 0%nat,
        list_set h p
          (set_tokens (deref h p)
             (firstn (Z.to_nat i) (sql.tokens (deref h p))
              ++ skipn (S (Z.to_nat i)) (sql.tokens (deref h p))))).
Proof.
  intro Hi. unfold pop, bind, get, lift, put, ret.
  now rewrite (py_pop_ok _ i 0%nat Hi).
Qed.

Lemma insert_before_eq h p i x :
  insert_before p i x h
  = Ok (tt,
        let h1 := list_set h x (set_parent (deref h x) (Some p)) in
        list_set h1 p (set_tokens (deref h1 p)
                                  (py_insert (sql.tokens (deref h1 p)) i x))).
Proof. reflexivity. Qed.

(** The flatter splices a wrapper: for a group of the class with a single
    child that is a leaf, sitting in its parent [p], [p.pop(i)] followed by
    [p.insert_before(i, child)] puts the child in place of the element at
    index [i] and makes [p] its parent; the popped wrapper keeps its stale
    parent and child, and nothing else changes. *)
Theorem flatter_splices_wrapper :
  forall (c : cls) (fuel : nat) (h : heap) (p stmt x : nat) (i : Z),
    (p < length h)%nat -> (x < length h)%nat ->
    stmt <> p -> x <> p -> x <> stmt ->
    isinstance (deref h stmt) [c] = true ->
    sql.tokens (deref h stmt) = [x] ->
    parent (deref h stmt) = Some p ->
    0 <= i < len (sql.tokens (deref h p)) ->
    isinstance (deref h x) [c] = false ->
    is_group (deref h x) = false ->
    let l := sql.tokens (deref h p) in
    exists h',
      _flatter_class c (S (S fuel)) stmt (Some i) h = Ok (tt, h')
      /\ length h' = length h
      /\ deref h' p
         = set_tokens (deref h p)
                      (firstn (Z.to_nat i) l ++ x :: skipn (S (Z.to_nat i)) l)
      /\ deref h' x = set_parent (deref h x) (Some p)
      /\ forall j, j <> p -> j <> x -> deref h' j = deref h j.
Proof.
  intros c fuel h p stmt x i Lp Lx Nsp Nxp Nxs Ic Tk Pa Hi Ix Gx l.
  set (l1 := firstn (Z.to_nat i) l ++ skipn (S (Z.to_nat i)) l).
  set (l2 := firstn (Z.to_nat i) l ++ x :: skipn (S (Z.to_nat i)) l).
  set (h1 := list_set h p (set_tokens (deref h p) l1)).
  set (h2 := list_set h1 x (set_parent (deref h x) (Some p))).
  set (h3 := list_set h2 p (set_tokens (deref h p) l2)).
  assert (D1 : forall j, j <> p -> deref h1 j = deref h j)
    by (intros; unfold h1; apply deref_put_other; auto).
  assert (D1p : deref h1 p = set_tokens (deref h p) l1)
    by (unfold h1; apply deref_put_same; lia).
  assert (D2p : deref h2 p = set_tokens (deref h p) l1)
    by (unfold h2; rewrite deref_put_other by auto; exact D1p).
  assert (L3 : length h3 = length h)
    by (unfold h3, h2, h1; now rewrite !length_list_set).
  assert (D3s : deref h3 stmt = deref h stmt).
  { unfold h3. rewrite deref_put_other by auto. unfold h2.
    rewrite deref_put_other by auto. apply D1; auto. }
  assert (D3x : deref h3 x = set_parent (deref h x) (Some p)).
  { unfold h3. rewrite deref_put_other by auto. unfold h2.
    apply deref_put_same. unfold h1. rewrite length_list_set. lia. }
  assert (Ei : insert_before p i x h1 = Ok (tt, h3)).
  { rewrite insert_before_eq. cbv zeta. rewrite (D1 x Nxp). fold h2.
    rewrite D2p. cbn [sql.tokens set_tokens]. unfold l1.
    rewrite (py_insert_at (firstn (Z.to_nat i) l) (skipn (S (Z.to_nat i)) l) i x).
    - fold l2. unfold h3. now destruct (deref h p).
    - unfold len in *. rewrite length_firstn. fold l in Hi. lia. }
  assert (Ex : py_index [x] 0 = Ok x) by reflexivity.
  rewrite flatter_class_S.
  rewrite (bind_eq _ _ h (deref h stmt) h eq_refl).
  rewrite Ic, Tk, Pa. cbn [len length Z.of_nat Pos.of_succ_nat Z.eqb Pos.eqb andb].
  rewrite (bind_eq _ _ h _ h1 (pop_ok h p i Hi)).
  rewrite (bind_eq _ _ h1 (deref h1 stmt) h1 eq_refl).
  rewrite (bind_eq _ _ h1 (parent (deref h1 stmt)) h1 eq_refl).
  rewrite (D1 stmt Nsp), Tk, Pa.
  rewrite (bind_eq (lift (py_index [x] 0)) _ h1 x h1)
    by (unfold lift; now rewrite Ex).
  rewrite (bind_eq _ _ h1 tt h3 Ei).
  rewrite (bind_eq _ _ h3 (deref h3 stmt) h3 eq_refl).
  rewrite D3s, Tk.
  rewrite (bind_eq (lift (py_index [x] 0)) _ h3 x h3)
    by (unfold lift; now rewrite Ex).
  rewrite flatter_class_S.
  rewrite (bind_eq _ _ h3 (deref h3 x) h3 eq_refl).
  rewrite D3x.
  replace (isinstance (set_parent (deref h x) (Some p)) [c])
    with (isinstance (deref h x) [c]) by (now destruct (deref h x)).
  rewrite Ix. cbn [andb].
  replace (is_group (set_parent (deref h x) (Some p)))
    with (is_group (deref h x)) by (now destruct (deref h x)).
  rewrite Gx. unfold ret.
  exists h3. split; [reflexivity|]. split; [exact L3|]. split; [|split].
  - unfold h3. apply deref_put_same. unfold h2, h1. rewrite !length_list_set. lia.
  - exact D3x.
  - intros j Njp Njx. unfold h3. rewrite deref_put_other by auto.
    unfold h2. rewrite deref_put_other by auto. apply D1; auto.
Qed.

Lemma flatter_splices_wrapper_witness :
  let l := sql.tokens (deref heap_wrapped 2) in
  exists h',
    _flatter_class Statement 2 1 (Some 0) heap_wrapped = Ok (tt, h')
    /\ length h' = length heap_wrapped
    /\ deref h' 2
       = set_tokens (deref heap_wrapped 2)
                    (firstn (Z.to_nat 0) l ++ 0%nat :: skipn (S (Z.to_nat 0)) l)
    /\ deref h' 0 = set_parent (deref heap_wrapped 0) (Some 2%nat)
    /\ forall j, j <> 2%nat -> j <> 0%nat -> deref h' j = deref heap_wrapped j.
Proof.
  apply (flatter_splices_wrapper Statement 0 heap_wrapped 2 1 0 0);
    try first [ discriminate
              | vm_compute; lia
              | vm_compute; reflexivity
              | vm_compute; split; discriminate ].
  split; [lia|vm_compute; reflexivity].
Defined.

(** ** Extending a group *)

Lemma slice_range_gen {A} (l : list A) (a b : Z) :
  0 <= a <= b -> b <= len l ->
  slice_range l (Some a) (Some b) = (Z.to_nat a, Z.to_nat b).
Proof.
  unfold slice_range, slice_bound, len. intros H1 H2.
  destruct (Z.ltb_spec a 0); [lia|].
  destruct (Z.ltb_spec a 0); [lia|].
  destruct (Z.ltb_spec (Z.of_nat (length l)) a); [lia|].
  destruct (Z.ltb_spec b 0); [lia|].
  destruct (Z.ltb_spec b 0); [lia|].
  destruct (Z.ltb_spec (Z.of_nat (length l)) b); [lia|].
  f_equal. f_equal. lia.
Qed.

(** [group_tokens(grp_cls, start, end, extend=True)] when the token at
    [start] is already a group of the class, over leaves: no group is
    created; the tokens after [start] up to [end] are moved from the list
    to the end of that group, get it as parent, and its value becomes the
    text of all its leaves; the list keeps the group and what follows
    [end]. *)
Theorem group_tokens_extends_group :
  forall (h : heap) (self g0 : nat) (c : cls) (o e : Z),
    (self < length h)%nat -> (g0 < length h)%nat -> g0 <> self ->
    0 <= o <= e -> e < len (sql.tokens (deref h self)) ->
    nth_error (sql.tokens (deref h self)) (Z.to_nat o) = Some g0 ->
    isinstance (deref h g0) [c] = true ->
    class_ (deref h g0) <> Token ->
    let cur := sql.tokens (deref h self) in
    let old := sql.tokens (deref h g0) in
    let sub := firstn (Z.to_nat (e + 1) - Z.to_nat (o + 1))
                      (skipn (Z.to_nat (o + 1)) cur) in
    (forall t, In t (old ++ sub) ->
       (t < length h)%nat /\ is_group (deref h t) = false
       /\ t <> g0 /\ t <> self) ->
    exists h',
      group_tokens self c (Some o) (Some e) true true h = Ok (g0, h')
      /\ length h' = length h
      /\ sql.tokens (deref h' self)
         = firstn (Z.to_nat (o + 1)) cur ++ skipn (Z.to_nat (e + 1)) cur
      /\ sql.tokens (deref h' g0) = old ++ sub
      /\ value (deref h' g0) = join_values h (old ++ sub)
      /\ (forall t, In t sub -> parent (deref h' t) = Some g0)
      /\ (forall j, j <> self -> j <> g0 -> ~ In j sub -> deref h' j = deref h j).
Proof.
  intros h self g0 c o e Ls Lg Ngs Ho He Hn Ic Hc cur old sub Hl.
  fold cur in He, Hn.
  unfold group_tokens.
  rewrite (bind_eq _ _ h (deref h self) h eq_refl). fold cur.
  rewrite (bind_eq (lift (py_index cur o)) _ h g0 h).
  2:{ unfold lift. rewrite (py_index_ok cur o 0%nat) by lia.
      now rewrite (nth_error_nth _ _ 0%nat Hn). }
  rewrite (bind_eq _ _ h (deref h g0) h eq_refl).
  rewrite Ic. cbn [andb].
  assert (Esub : py_slice cur (Some (o + 1)) (Some (e + 1)) = sub).
  { unfold py_slice. rewrite slice_range_gen by lia. reflexivity. }
  assert (Edel : py_slice_del cur (Some (o + 1)) (Some (e + 1))
                 = firstn (Z.to_nat (o + 1)) cur ++ skipn (Z.to_nat (e + 1)) cur).
  { unfold py_slice_del, py_slice_assign. rewrite slice_range_gen by lia.
    reflexivity. }
  rewrite Esub.
  set (cur' := firstn (Z.to_nat (o + 1)) cur ++ skipn (Z.to_nat (e + 1)) cur).
  set (h1 := list_set h g0 (set_tokens (deref h g0) (old ++ sub))).
  set (h2 := list_set h1 self (set_tokens (deref h self) cur')).
  assert (E1 : setattr g0 (fun n => set_tokens n (sql.tokens n ++ sub)) h
               = Ok (tt, h1)) by reflexivity.
  rewrite (bind_eq _ _ h tt h1 E1).
  assert (D1s : deref h1 self = deref h self)
    by (unfold h1; apply deref_put_other; auto).
  assert (E2 : setattr self
                 (fun n => set_tokens n
                    (py_slice_del (sql.tokens n) (Some (o + 1)) (Some (e + 1)))) h1
               = Ok (tt, h2)).
  { unfold setattr, bind, get, put. rewrite D1s. fold cur. rewrite Edel.
    reflexivity. }
  rewrite (bind_eq _ _ h1 tt h2 E2).
  assert (L2 : length h2 = length h)
    by (unfold h2, h1; now rewrite !length_list_set).
  assert (D2g : deref h2 g0 = set_tokens (deref h g0) (old ++ sub)).
  { unfold h2. rewrite deref_put_other by auto. unfold h1.
    apply deref_put_same. lia. }
  assert (D2o : forall j, j <> self -> j <> g0 -> deref h2 j = deref h j).
  { intros j N1 N2. unfold h2. rewrite deref_put_other by auto. unfold h1.
    apply deref_put_other. auto. }
  assert (Ev : text_type g0 h2 = Ok (join_values h (old ++ sub), h2)).
  { unfold text_type, bind, get. rewrite D2g.
    replace (class_ (set_tokens (deref h g0) (old ++ sub)))
      with (class_ (deref h g0)) by (now destruct (deref h g0)).
    replace (cls_beq (class_ (deref h g0)) Token) with false
      by (clear - Hc; destruct (class_ (deref h g0)); try reflexivity; congruence).
    unfold __str__. destruct recursion_limit_S as [k0 ->].
    rewrite flatten_S, D2g.
    replace (sql.tokens (set_tokens (deref h g0) (old ++ sub)))
      with (old ++ sub) by (now destruct (deref h g0)).
    unfold expand. rewrite concat_res_leaves.
    - f_equal. f_equal. apply join_values_ext. intros t It.
      destruct (Hl t It) as (_ & _ & N1 & N2). now rewrite D2o by auto.
    - intros t It. destruct (Hl t It) as (_ & Gt & N1 & N2).
      now rewrite D2o by auto. }
  rewrite (bind_eq _ _ h2 _ h2 Ev).
  set (v := join_values h (old ++ sub)).
  set (h3 := list_set h2 g0 (set_value (deref h2 g0) v)).
  assert (E3 : setattr g0 (fun n => set_value n v) h2 = Ok (tt, h3)) by reflexivity.
  rewrite (bind_eq _ _ h2 tt h3 E3).
  destruct (for_each_parent_frame sub (Some g0) h3) as (h4 & E4 & [L4 S4] & O4 & P4).
  rewrite (bind_eq _ _ h3 tt h4 E4). unfold ret.
  assert (L3 : length h3 = length h) by (unfold h3; now rewrite length_list_set).
  assert (D3g : deref h3 g0 = set_value (deref h2 g0) v)
    by (unfold h3; apply deref_put_same; lia).
  assert (D3o : forall j, j <> g0 -> deref h3 j = deref h2 j)
    by (intros; unfold h3; apply deref_put_other; auto).
  assert (Nsub : forall t, In t sub -> t <> g0 /\ t <> self /\ (t < length h)%nat).
  { intros t It. destruct (Hl t (in_or_app _ _ _ (or_intror It)))
      as (Lt & _ & N1 & N2). auto. }
  exists h4. split; [reflexivity|]. split; [congruence|].
  split; [|split; [|split; [|split]]].
  - rewrite (sbp_tokens _ _ (S4 self)), D3o by auto. unfold h2.
    rewrite deref_put_same by (unfold h1; rewrite length_list_set; lia).
    now destruct (deref h self).
  - rewrite (sbp_tokens _ _ (S4 g0)), D3g, D2g. now destruct (deref h g0).
  - rewrite (sbp_value _ _ (S4 g0)), D3g. now destruct (deref h2 g0).
  - intros t It. apply P4; [exact It|]. destruct (Nsub t It) as (_ & _ & Lt). lia.
  - intros j N1 N2 N3. rewrite O4 by exact N3. rewrite D3o by auto.
    apply D2o; auto.
Qed.

Lemma group_tokens_extends_group_witness :
  exists h',
    group_tokens 3 TokenList (Some 0) (Some 1) true true heap_group_comment
    = Ok (1%nat, h')
    /\ sql.tokens (deref h' 3) = [1%nat]
    /\ sql.tokens (deref h' 1) = [0%nat; 2%nat]
    /\ value (deref h' 1) = "(--c".
Proof.
  destruct (group_tokens_extends_group heap_group_comment 3 1 TokenList 0 1)
    as (h' & E & _ & Ts & Tg & V & _).
  - vm_compute. lia.
  - vm_compute. lia.
  - discriminate.
  - lia.
  - vm_compute. reflexivity.
  - reflexivity.
  - reflexivity.
  - vm_compute. discriminate.
  - intros t It. vm_compute in It.
    destruct It as [<-|[<-|[]]]; vm_compute;
      (split; [lia|split; [reflexivity|split; discriminate]]).
  - exists h'. split; [exact E|]. split; [exact Ts|]. split; [exact Tg|exact V].
Defined.

(** ** The token at an offset *)

Lemma string_length_app (a b : string) :
  String.length (a ++ b) = (String.length a + String.length b)%nat.
Proof. induction a as [|c a IH]; cbn; [reflexivity|]. now rewrite IH. Qed.

Lemma token_at_spec h offset :
  forall l idx,
    match token_at h offset idx l with
    | Some t =>
        exists pre post,
          l = pre ++ t :: post
          /\ idx + Z.of_nat (String.length (join_values h pre)) <= offset
          /\ offset < idx + Z.of_nat (String.length (join_values h pre))
                      + Z.of_nat (String.length (value (deref h t)))
    | None =>
        offset < idx
        \/ idx + Z.of_nat (String.length (join_values h l)) <= offset
    end.
Proof.
  induction l as [|t r IH]; intro idx; cbn [token_at].
  - cbn. lia.
  - destruct (Z.leb_spec idx offset) as [H1|H1]; cbn [andb].
    + destruct (Z.ltb_spec offset
                  (idx + Z.of_nat (String.length (value (deref h t))))) as [H2|H2].
      * exists [], r. cbn. split; [reflexivity|]. lia.
      * specialize (IH (idx + Z.of_nat (String.length (value (deref h t))))).
        destruct (token_at h offset _ r) as [u|].
        -- destruct IH as (pre & post & -> & Ha & Hb).
           exists (t :: pre), post. split; [reflexivity|].
           change (join_values h (t :: pre))
             with (value (deref h t) ++ join_values h pre)%string.
           rewrite string_length_app. lia.
        -- right.
           change (join_values h (t :: r))
             with (value (deref h t) ++ join_values h r)%string.
           rewrite string_length_app. lia.
    + specialize (IH (idx + Z.of_nat (String.length (value (deref h t))))).
      destruct (token_at h offset _ r) as [u|].
      * destruct IH as (pre & post & -> & Ha & Hb). lia.
      * left. exact H1.
Qed.

(** [get_token_at_offset(offset)] finds the leaf whose span in the text
    holds the offset: when the list flattens to [l], the result is a leaf
    [t] of [l] with [len(text before t) <= offset < len(text before t) +
    len(t.value)], and it is [None] exactly for an offset that is negative
    or not below the length of the text. *)
Theorem get_token_at_offset_span :
  forall (h : heap) (self : nat) (offset : Z) (l : list nat),
    flatten recursion_limit h self = Ok l ->
    match get_token_at_offset h self offset with
    | Ok (Some t) =>
        exists pre post,
          l = pre ++ t :: post
          /\ Z.of_nat (String.length (join_values h pre)) <= offset
          /\ offset < Z.of_nat (String.length (join_values h pre))
                      + Z.of_nat (String.length (value (deref h t)))
    | Ok None =>
        offset < 0 \/ Z.of_nat (String.length (join_values h l)) <= offset
    | Raise _ => False
    end.
Proof.
  intros h self offset l F. unfold get_token_at_offset. rewrite F.
  pose proof (token_at_spec h offset l 0) as H.
  destruct (token_at h offset 0 l) as [t|]; exact H.
Qed.

Lemma get_token_at_offset_span_witness :
  match get_token_at_offset heap_paren_pair 3 1 with
  | Ok (Some t) =>
      exists pre post,
        [0%nat; 1%nat; 2%nat] = pre ++ t :: post
        /\ Z.of_nat (String.length (join_values heap_paren_pair pre)) <= 1
        /\ 1 < Z.of_nat (String.length (join_values heap_paren_pair pre))
               + Z.of_nat (String.length (value (deref heap_paren_pair t)))
  | Ok None =>
      1 < 0 \/ Z.of_nat (String.length
                           (join_values heap_paren_pair [0%nat; 1%nat; 2%nat])) <= 1
  | Raise _ => False
  end.
Proof.
  apply (get_token_at_offset_span heap_paren_pair 3 1 [0%nat; 1%nat; 2%nat]).
  vm_compute. reflexivity.
Defined.

(** ** Insertion after a token *)

Lemma py_insert_ok {A} (l : list A) (i : Z) (x : A) :
  0 <= i <= len l ->
  py_insert l i x = firstn (Z.to_nat i) l ++ x :: skipn (Z.to_nat i) l.
Proof.
  intro Hi. unfold py_insert, slice_bound, len in *.
  destruct (Z.ltb_spec i 0); [lia|].
  destruct (Z.ltb_spec i 0); [lia|].
  destruct (Z.ltb_spec (Z.of_nat (length l)) i); [lia|]. reflexivity.
Qed.

(** [insert_after(where, token)] puts the token after [where] and after
    the run of skipped (whitespace) children that follows it, at the end
    when nothing else follows, and makes the list the token's parent. *)
Theorem insert_after_skips_whitespace :
  forall (h : heap) (self tok : nat) (w : Z) (skip_ws : bool),
    (self < length h)%nat -> (tok < length h)%nat -> tok <> self ->
    -1 <= w ->
    let l := tokens (deref h self) in
    exists h' k,
      insert_after self w tok skip_ws h = Ok (tt, h')
      /\ w < k /\ (k <= len l \/ k = w + 1)
      /\ tokens (deref h' self)
         = firstn (Z.to_nat k) l ++ tok :: skipn (Z.to_nat k) l
      /\ (forall j x, w < j < k -> nth_error l (Z.to_nat j) = Some x ->
            not_skipped skip_ws false (deref h x) = false)
      /\ (forall x, nth_error l (Z.to_nat k) = Some x ->
            not_skipped skip_ws false (deref h x) = true)
      /\ parent (deref h' tok) = Some self
      /\ forall j, j <> self -> j <> tok -> deref h' j = deref h j.
Proof.
  intros h self tok w ws Ls Lt Nts Hw l.
  unfold insert_after.
  pose proof (token_matching_forward h self [not_skipped ws false] (w + 1)
                ltac:(lia)) as H.
  cbv zeta in H. fold l in H.
  assert (Any : forall n, any_func [not_skipped ws false] n = not_skipped ws false n)
    by (intro n; unfold any_func; cbn [existsb]; apply orb_false_r).
  set (h1 := list_set h tok (set_parent (deref h tok) (Some self))).
  assert (D1s : deref h1 self = deref h self)
    by (unfold h1; apply deref_put_other; auto).
  assert (L1 : length h1 = length h) by (unfold h1; apply length_list_set).
  assert (Fin : forall k,
            exists h',
              setattr self (fun n => set_tokens n
                 (firstn (Z.to_nat k) l ++ tok :: skipn (Z.to_nat k) l)) h1
              = Ok (tt, h')
              /\ tokens (deref h' self)
                 = firstn (Z.to_nat k) l ++ tok :: skipn (Z.to_nat k) l
              /\ parent (deref h' tok) = Some self
              /\ forall j, j <> self -> j <> tok -> deref h' j = deref h j).
  { intro k. unfold setattr, bind, get, put. eexists. split; [reflexivity|].
    split; [|split].
    - rewrite deref_put_same by lia. now destruct (deref h1 self).
    - rewrite deref_put_other by auto. unfold h1.
      rewrite deref_put_same by lia. now destruct (deref h tok).
    - intros j N1 N2. rewrite deref_put_other by auto. unfold h1.
      apply deref_put_other. auto. }
  assert (Es : setattr tok (fun n => set_parent n (Some self)) h = Ok (tt, h1))
    by reflexivity.
  unfold rd at 1, token_next.
  rewrite (bind_eq _ _ h
             (match _token_matching h self [not_skipped ws false] (w + 1) None false
              with Ok a => a | Raise _ => (None, None) end) h).
  2:{ destruct (_token_matching h self [not_skipped ws false] (w + 1) None false)
        as [[[i|] [nx|]]|]; try reflexivity; destruct H. }
  destruct (_token_matching h self [not_skipped ws false] (w + 1) None false)
    as [[[i|] [nx|]]|]; try (destruct H; fail).
  - destruct H as (H1 & H2 & H3 & H4).
    assert (Li : i < len l).
    { unfold len. assert (Z.to_nat i < length l)%nat
        by (apply nth_error_Some; congruence). lia. }
    cbv beta iota zeta.
    rewrite (bind_eq _ _ h tt h1 Es).
    destruct (Fin i) as (h' & E & T' & P' & O').
    exists h', i.
    replace (setattr self (fun n => set_tokens n (py_insert (tokens n) i tok)) h1)
      with (Ok (tt, h')).
    2:{ rewrite <- E. unfold setattr, bind, get, put. rewrite D1s. fold l.
        now rewrite py_insert_ok by lia. }
    split; [reflexivity|]. split; [lia|]. split; [left; lia|].
    split; [exact T'|]. split.
    + intros j x Hj Hx. rewrite <- Any. apply (H4 j x); [lia|exact Hx].
    + split; [|split; [exact P'|exact O']].
      intros x Hx. rewrite H2 in Hx. inversion Hx; subst. now rewrite <- Any.
  - cbv beta iota zeta.
    rewrite (bind_eq _ _ h tt h1 Es).
    destruct (Z.le_gt_cases (w + 1) (len l)) as [Hle|Hgt].
    + destruct (Fin (len l)) as (h' & E & T' & P' & O').
      exists h', (len l).
      replace (setattr self (fun n => set_tokens n (tokens n ++ [tok])) h1)
        with (Ok (tt, h')).
      2:{ rewrite <- E. unfold setattr, bind, get, put. rewrite D1s. fold l.
          unfold len. rewrite Nat2Z.id, firstn_all, skipn_all. reflexivity. }
      split; [reflexivity|]. split; [lia|]. split; [left; lia|].
      split; [exact T'|]. split.
      * intros j x Hj Hx. rewrite <- Any. apply (H j x); [lia|exact Hx].
      * split; [|split; [exact P'|exact O']].
        intros x Hx. unfold len in Hx. rewrite Nat2Z.id in Hx.
        assert (length l < length l)%nat by (apply nth_error_Some; congruence).
        lia.
    + destruct (Fin (w + 1)) as (h' & E & T' & P' & O').
      exists h', (w + 1).
      replace (setattr self (fun n => set_tokens n (tokens n ++ [tok])) h1)
        with (Ok (tt, h')).
      2:{ rewrite <- E. unfold setattr, bind, get, put. rewrite D1s. fold l.
          unfold len in Hgt.
          rewrite firstn_all2, skipn_all2 by lia. reflexivity. }
      split; [reflexivity|]. split; [lia|]. split; [right; lia|].
      split; [exact T'|]. split.
      * intros j x Hj. lia.
      * split; [|split; [exact P'|exact O']].
        intros x Hx. unfold len in Hgt.
        assert (Z.to_nat (w + 1) < length l)%nat
          by (apply nth_error_Some; congruence).
        lia.
Qed.

Lemma insert_after_skips_whitespace_witness :
  let l := tokens (deref heap_paren_pair 3) in
  exists h' k,
    insert_after 3 0 0 true heap_paren_pair = Ok (tt, h')
    /\ 0 < k /\ (k <= len l \/ k = 0 + 1)
    /\ tokens (deref h' 3)
       = firstn (Z.to_nat k) l ++ 0%nat :: skipn (Z.to_nat k) l
    /\ (forall j x, 0 < j < k -> nth_error l (Z.to_nat j) = Some x ->
          not_skipped true false (deref heap_paren_pair x) = false)
    /\ (forall x, nth_error l (Z.to_nat k) = Some x ->
          not_skipped true false (deref heap_paren_pair x) = true)
    /\ parent (deref h' 0) = Some 3%nat
    /\ forall j, j <> 3%nat -> j <> 0%nat -> deref h' j = deref heap_paren_pair j.
Proof.
  apply (insert_after_skips_whitespace heap_paren_pair 3 0 0 true).
  - vm_compute. lia.
  - vm_compute. lia.
  - discriminate.
  - lia.
Defined.

(** ** When [get_type] raises *)

(** [Statement.get_type] raises in one situation only: the first token,
    whitespace and comments skipped, is of type [Keyword.CTE], the next
    token is an [Identifier] or [IdentifierList], and nothing follows it;
    the exception is then [AttributeError] ([dml_keyword] is [None]).  In
    every other case it returns. *)
Theorem get_type_raises_only_after_cte :
  forall (h : heap) (self : nat) (e : exn),
    get_type h self = Raise e ->
    e = AttributeError
    /\ exists ft fidx tidx t,
         token_first h self true true = Ok (Some ft)
         /\ ttype_ (deref h ft) = Some T.Keyword_CTE
         /\ token_index h self (Some ft) 0 = Ok fidx
         /\ token_next h self (Some fidx) true false false = Ok (Some tidx, Some t)
         /\ isinstance (deref h t) [Identifier; IdentifierList] = true
         /\ token_next h self (Some tidx) true false false = Ok (None, None).
Proof.
  intros h self e. unfold get_type.
  assert (Fwd : forall start, 0 <= start ->
            (exists i t, _token_matching h self [not_skipped true false] start
                           None false = Ok (Some i, Some t) /\ start <= i)
            \/ _token_matching h self [not_skipped true false] start None false
               = Ok (None, None)).
  { intros start Hs.
    pose proof (token_matching_forward h self [not_skipped true false] start Hs)
      as H. cbv zeta in H.
    destruct (_token_matching h self [not_skipped true false] start None false)
      as [[[i|] [t|]]|]; try (destruct H; fail).
    - left. exists i, t. split; [reflexivity|apply H].
    - now right. }
  unfold token_first.
  pose proof (token_matching_forward h self [not_skipped true true] 0
                ltac:(lia)) as H0. cbv zeta in H0.
  destruct (_token_matching h self [not_skipped true true] 0 None false)
    as [[[i|] [ft|]]|] eqn:E0; try (destruct H0; fail); [|discriminate].
  destruct H0 as (_ & Hn & _ & _).
  destruct (ttype_is (ttype_ (deref h ft)) T.Keyword_DML
            || ttype_is (ttype_ (deref h ft)) T.Keyword_DDL); [discriminate|].
  destruct (ttype_is (ttype_ (deref h ft)) T.Keyword_CTE) eqn:Ecte;
    [|discriminate].
  assert (Tcte : ttype_ (deref h ft) = Some T.Keyword_CTE).
  { unfold ttype_is in Ecte. destruct (ttype_ (deref h ft)) as [t|];
      [|discriminate].
    f_equal. clear - Ecte. revert Ecte. generalize T.Keyword_CTE as u.
    induction t as [|x t IH]; intros [|y u]; cbn; try discriminate; auto.
    intro H. apply andb_prop in H. destruct H as [H1 H2].
    apply String.eqb_eq in H1. subst. f_equal. now apply IH. }
  unfold token_index. rewrite py_slice_from_0.
  pose proof (list_index_spec (tokens (deref h self)) ft) as Hi.
  destruct (list_index (tokens (deref h self)) ft) as [k|] eqn:El.
  2:{ exfalso. apply Hi. eapply nth_error_In; eauto. }
  destruct Hi as (Hk & _ & _). rewrite Z.add_0_l.
  unfold token_next at 1.
  destruct (Fwd (k + 1) ltac:(lia)) as [(tidx & t & E1 & L1)|E1]; rewrite E1.
  2:{ discriminate. }
  destruct (isinstance (deref h t) [Identifier; IdentifierList]) eqn:Ei;
    [|discriminate].
  unfold token_next at 1.
  destruct (Fwd (tidx + 1) ltac:(lia)) as [(j & d & E2 & L2)|E2]; rewrite E2.
  { destruct (ttype_is (ttype_ (deref h d)) T.Keyword_DML); discriminate. }
  intro H. inversion H; subst. split; [reflexivity|].
  exists ft, k, tidx, t.
  split; [reflexivity|]. split; [exact Tcte|].
  split; [now rewrite El|].
  split; [unfold token_next; exact E1|]. split; [exact Ei|].
  unfold token_next. exact E2.
Qed.

Lemma get_type_raises_only_after_cte_witness :
  let st := fst parsed_with_ab in
  let h := snd parsed_with_ab in
  AttributeError = AttributeError
  /\ exists ft fidx tidx t,
       token_first h st true true = Ok (Some ft)
       /\ ttype_ (deref h ft) = Some T.Keyword_CTE
       /\ token_index h st (Some ft) 0 = Ok fidx
       /\ token_next h st (Some fidx) true false false = Ok (Some tidx, Some t)
       /\ isinstance (deref h t) [Identifier; IdentifierList] = true
       /\ token_next h st (Some tidx) true false false = Ok (None, None).
Proof.
  apply (get_type_raises_only_after_cte (snd parsed_with_ab)
           (fst parsed_with_ab) AttributeError).
  vm_compute. reflexivity.
Defined.

(** ** The splitter nests a block *)

Lemma process_token_plain_in_block ForIn self ty v ids h :
  ttype_in (Some ty) T.Keyword = false ->
  StatementSplitter.level self = 1 ->
  StatementSplitter.tokens self = [PyList (map Obj ids)] ->
  exists self',
    StatementSplitter.process_token ForIn self (ty, v) h
    = Ok (self', h ++ [Token__init__ dummy (Some ty) v])
    /\ StatementSplitter.level self' = 1
    /\ StatementSplitter.tokens self' = [PyList (map Obj (ids ++ [length h]))].
Proof.
  intros Hk Hl Ht. unfold StatementSplitter.process_token.
  unfold StatementSplitter._change_splitlevel. rewrite Hk. cbn [negb].
  rewrite Hl. cbn [Z.add Z.eqb Pos.eqb Pos.add].
  unfold bind, new_Token, alloc.
  unfold StatementSplitter.append_token_at_depth.
  destruct self; cbn in Hl, Ht; subst.
  cbn [StatementSplitter.level StatementSplitter.set_level Z.add Z.leb
       Z.compare Pos.compare Pos.add Pos.compare_cont].
  unfold StatementSplitter.on_frame, bind. cbn. unfold ret.
  eexists. split; [reflexivity|]. split; [reflexivity|].
  cbn. now rewrite map_app.
Qed.

Lemma process_stream_plain_in_block ForIn stream :
  (forall ty v, In (ty, v) stream -> ttype_in (Some ty) T.Keyword = false) ->
  forall self ids h,
    StatementSplitter.level self = 1 ->
    StatementSplitter.tokens self = [PyList (map Obj ids)] ->
    exists self',
      StatementSplitter.process_stream ForIn self stream h
      = Ok (self', h ++ map (fun tv => Token__init__ dummy (Some (fst tv)) (snd tv))
                            stream)
      /\ StatementSplitter.level self' = 1
      /\ StatementSplitter.tokens self'
         = [PyList (map Obj (ids ++ seq (length h) (length stream)))].
Proof.
  induction stream as [|[ty v] r IH]; intros Hk self ids h Hl Ht.
  - exists self. cbn. rewrite !app_nil_r. auto.
  - cbn [StatementSplitter.process_stream].
    destruct (process_token_plain_in_block ForIn self ty v ids h
                (Hk ty v (or_introl eq_refl)) Hl Ht) as (s1 & E1 & L1 & T1).
    unfold bind. rewrite E1.
    destruct (IH (fun ty' v' I => Hk ty' v' (or_intror I)) s1 _
                (h ++ [Token__init__ dummy (Some ty) v]) L1 T1)
      as (s2 & E2 & L2 & T2).
    exists s2. rewrite E2. split.
    + cbn [map fst snd]. now rewrite <- app_assoc.
    + split; [exact L2|]. rewrite T2. do 3 f_equal.
      rewrite <- app_assoc. f_equal. cbn [length seq app].
      f_equal. f_equal. rewrite length_app. cbn. lia.
Qed.

Lemma begin_step ForIn :
  exists s1,
    StatementSplitter.process_token ForIn StatementSplitter._reset
      (T.Keyword, "BEGIN") []
    = Ok (s1, [Token__init__ dummy (Some T.Keyword) "BEGIN"])
    /\ StatementSplitter.level s1 = 1
    /\ StatementSplitter.tokens s1 = [PyList (map Obj [0%nat])].
Proof. eexists. split; [vm_compute; reflexivity|]. split; reflexivity. Qed.

Lemma append_token_at_depth_1 s l tok h :
  StatementSplitter.tokens s = [PyList l] ->
  StatementSplitter.append_token_at_depth s 1 tok h
  = Ok (StatementSplitter.set_tokens s [PyList (l ++ [Obj tok])], h).
Proof. intros Ht. destruct s; cbn in Ht; subst. reflexivity. Qed.

Lemma process_list_at_depth_1 s xs h :
  StatementSplitter.tokens s = [PyList xs] ->
  StatementSplitter.process_list_at_depth s 1 h
  = match TokenList__init__ Statement (Some xs) h with
    | Ok (a, h') => Ok (StatementSplitter.set_tokens s [Obj a], h')
    | Raise e => Raise e
    end.
Proof.
  intros Ht. destruct s; cbn in Ht; subst.
  cbv - [TokenList__init__].
  destruct (TokenList__init__ Statement (Some xs) h) as [[a h']|e]; reflexivity.
Qed.

Lemma end_step ForIn s ids h :
  StatementSplitter.level s = 1 ->
  StatementSplitter.tokens s = [PyList (map Obj ids)] ->
  (forall t, In t ids -> (t < length h)%nat /\ is_group (deref h t) = false) ->
  exists s' h',
    StatementSplitter.process_token ForIn s (T.Keyword, "END") h = Ok (s', h')
    /\ StatementSplitter.level s' = 0
    /\ StatementSplitter.tokens s' = [Obj (S (length h))]
    /\ length h' = S (S (length h))
    /\ deref h' (length h) = set_parent (Token__init__ dummy (Some T.Keyword) "END")
                                        (Some (S (length h)))
    /\ class_ (deref h' (S (length h))) = Statement
    /\ is_group (deref h' (S (length h))) = true
    /\ sql.tokens (deref h' (S (length h))) = ids ++ [length h]
    /\ (forall t, In t ids ->
          deref h' t = set_parent (deref h t) (Some (S (length h)))).
Proof.
  intros Hl Ht Hleaf.
  set (leaf := Token__init__ dummy (Some T.Keyword) "END").
  set (h1 := h ++ [leaf]).
  assert (L1 : length h1 = S (length h))
    by (unfold h1; rewrite length_app; cbn; lia).
  destruct (new_group_leaves h1 Statement (ids ++ [length h])
              ltac:(discriminate)) as (h2 & E2 & L2 & D2 & C2 & O2).
  { intros t It. apply in_app_or in It. destruct It as [It|[<-|[]]].
    - destruct (Hleaf t It) as [Lt Gt]. split; [lia|].
      unfold h1. now rewrite deref_app_old by exact Lt.
    - split; [lia|]. unfold h1, deref. now rewrite nth_middle. }
  rewrite L1 in E2, D2, C2.
  unfold StatementSplitter.process_token.
  assert (Ec : exists s2,
            StatementSplitter._change_splitlevel ForIn s T.Keyword "END"
            = (-1, s2)
            /\ StatementSplitter.level s2 = 1
            /\ StatementSplitter.tokens s2 = [PyList (map Obj ids)]).
  { unfold StatementSplitter._change_splitlevel. cbn.
    destruct (0 <? StatementSplitter._in_case s); eexists;
      (split; [reflexivity|]); destruct s; cbn in *; auto. }
  destruct Ec as (s2 & -> & L2' & T2').
  cbn [Z.eqb Pos.eqb].
  unfold bind at 1, new_Token, alloc. fold leaf. fold h1.
  set (s3 := StatementSplitter.set_level s2 (StatementSplitter.level s2 + -1)).
  assert (Lv : StatementSplitter.level s3 = 0)
    by (unfold s3; destruct s2; cbn in *; lia).
  assert (Tv : StatementSplitter.tokens s3 = [PyList (map Obj ids)])
    by (unfold s3; destruct s2; cbn in *; congruence).
  rewrite Lv. cbn [Z.add].
  unfold bind at 1.
  rewrite (append_token_at_depth_1 s3 _ (length h) h1 Tv).
  set (s4 := StatementSplitter.set_tokens s3 _).
  assert (Lv4 : StatementSplitter.level s4 = 0)
    by (unfold s4; destruct s3; cbn in *; lia).
  rewrite Lv4. cbn [Z.add].
  rewrite (process_list_at_depth_1 s4 (map Obj (ids ++ [length h])) h1)
    by (unfold s4; destruct s3; cbn; now rewrite map_app).
  change (TokenList__init__ Statement (Some (map Obj (ids ++ [length h]))))
    with (new_group Statement (ids ++ [length h])).
  rewrite E2.
  do 2 eexists. split; [reflexivity|].
  split; [unfold s4; now destruct s3|]. split; [unfold s4; now destruct s3|].
  split; [lia|]. split.
  { rewrite C2 by (apply in_or_app; right; now left).
    unfold h1, deref. now rewrite nth_middle. }
  split; [now rewrite D2|]. split; [now rewrite D2|]. split; [now rewrite D2|].
  intros t It. rewrite C2 by (apply in_or_app; now left).
  unfold h1. rewrite deref_app_old by (apply (Hleaf t It)). reflexivity.
Qed.

Lemma process_stream_app ForIn a b self h :
  StatementSplitter.process_stream ForIn self (a ++ b) h
  = match StatementSplitter.process_stream ForIn self a h with
    | Ok (s, h') => StatementSplitter.process_stream ForIn s b h'
    | Raise e => Raise e
    end.
Proof.
  revert self h. induction a as [|tv a IH]; intros self h.
  - reflexivity.
  - cbn [app StatementSplitter.process_stream]. unfold bind.
    destruct (StatementSplitter.process_token ForIn self tv h) as [[s h']|e];
      [apply IH|reflexivity].
Qed.

(** A [BEGIN ... END] block is nested, not split: for a stream [body]
    without keyword tokens, the stream [BEGIN body END] gives one
    [Statement] whose only child is a [Statement] that holds [BEGIN], the
    tokens of [body] and [END], in order. *)
Theorem process_nests_block :
  forall (ForIn : ttype) (body : list (ttype * string)),
    (forall ty v, In (ty, v) body -> ttype_in (Some ty) T.Keyword = false) ->
    let n := length body in
    exists self' h',
      StatementSplitter.process ForIn StatementSplitter._reset
        ((T.Keyword, "BEGIN") :: body ++ [(T.Keyword, "END")]) []
      = Ok (([n + 3], self'), h')%nat
      /\ length h' = (n + 4)%nat
      /\ class_ (deref h' (n + 3)) = Statement
      /\ sql.tokens (deref h' (n + 3)) = [(n + 2)%nat]
      /\ class_ (deref h' (n + 2)) = Statement
      /\ sql.tokens (deref h' (n + 2)) = seq 0 (n + 2)
      /\ parent (deref h' (n + 2)) = Some (n + 3)%nat
      /\ deref h' 0
         = set_parent (Token__init__ dummy (Some T.Keyword) "BEGIN")
                      (Some (n + 2)%nat)
      /\ deref h' (n + 1)
         = set_parent (Token__init__ dummy (Some T.Keyword) "END")
                      (Some (n + 2)%nat)
      /\ forall k ty v, nth_error body k = Some (ty, v) ->
           deref h' (S k)
           = set_parent (Token__init__ dummy (Some ty) v) (Some (n + 2)%nat).
Proof.
  intros ForIn body Hk n.
  unfold StatementSplitter.process.
  change ((T.Keyword, "BEGIN") :: body ++ [(T.Keyword, "END")])
    with ([(T.Keyword, "BEGIN")] ++ body ++ [(T.Keyword, "END")]).
  destruct (begin_step ForIn) as (s1 & E1 & L1 & T1).
  set (h1 := [Token__init__ dummy (Some T.Keyword) "BEGIN"]) in *.
  destruct (process_stream_plain_in_block ForIn body Hk s1 [0%nat] h1 L1 T1)
    as (s2 & E2 & L2 & T2).
  set (h2 := h1 ++ map (fun tv => Token__init__ dummy (Some (fst tv)) (snd tv)) body)
    in *.
  assert (Lh2 : length h2 = S n)
    by (unfold h2; rewrite length_app, length_map; reflexivity).
  assert (Hleaf : forall t, (t < S n)%nat -> is_group (deref h2 t) = false).
  { intros t Lt. unfold h2. destruct t as [|t]; [reflexivity|].
    unfold deref. cbn [h1 app nth].
    destruct (nth_error body t) as [[ty v]|] eqn:E.
    - rewrite (nth_error_nth _ _ dummy
                 (map_nth_error (fun tv => Token__init__ dummy (Some (fst tv)) (snd tv))
                                _ _ E)).
      reflexivity.
    - apply nth_error_None in E. fold n in E. lia. }
  change (length h1) with 1%nat in T2. fold n in T2.
  change ([0%nat] ++ seq 1 n) with (seq 0 (S n)) in T2.
  destruct (end_step ForIn s2 (seq 0 (S n)) h2 L2 T2)
    as (s3 & h3 & E3 & L3 & T3 & Lh3 & DE & C3 & G3 & K3 & O3).
  { intros t It. apply in_seq in It. rewrite Lh2. split; [lia|].
    apply Hleaf. lia. }
  rewrite Lh2 in *.
  assert (Es : StatementSplitter.process_stream ForIn StatementSplitter._reset
                 ([(T.Keyword, "BEGIN")] ++ body ++ [(T.Keyword, "END")]) []
               = Ok (s3, h3)).
  { rewrite process_stream_app.
    cbn [StatementSplitter.process_stream]. unfold bind at 1. rewrite E1.
    unfold ret at 1. rewrite process_stream_app, E2.
    cbn [StatementSplitter.process_stream]. unfold bind at 1. rewrite E3.
    reflexivity. }
  unfold bind at 1. rewrite Es. rewrite L3. cbn [Z.to_nat].
  cbn [StatementSplitter.drain]. rewrite L3. cbn [Z.ltb Z.compare].
  unfold bind at 1. unfold ret at 1. rewrite T3.
  change (TokenList__init__ Statement (Some [Obj (S (S n))]))
    with (new_group Statement [S (S n)]).
  assert (Gr : graded h3 (S (S n))).
  { intros g Lg t It. assert (g = S (S n)) by lia. subst g.
    rewrite K3 in It.
    assert (It' : In t (seq 0 (S (S n)))).
    { rewrite seq_S. exact It. }
    apply in_seq in It'. split; [lia|]. left.
    apply in_app_or in It. destruct It as [It|[<-|[]]].
    - rewrite (O3 t It). apply in_seq in It.
      rewrite <- (Hleaf t) by lia. now destruct (deref h2 t).
    - rewrite DE. reflexivity. }
  assert (Cl : forall t, In t [S (S n)] ->
            (t < length h3)%nat
            /\ (is_group (deref h3 t) = false \/ (S (S n) <= t)%nat)).
  { intros t [<-|[]]. split; [lia|]. right; lia. }
  destruct (new_group_spec h3 Statement [S (S n)] (S (S n))
              ltac:(lia) Gr Cl)
    as (h4 & E4 & Lh4 & S4 & C4 & G4 & K4 & _ & _ & F4).
  { rewrite Lh3.
    assert (1 < recursion_limit)%nat
      by (apply Nat.ltb_lt; vm_compute; reflexivity).
    lia. }
  pose proof (new_group_parents _ _ _ _ _ E4) as P4.
  rewrite Lh3 in *.
  unfold bind at 1. rewrite E4. unfold ret.
  replace (n + 3)%nat with (S (S (S n))) by lia.
  replace (n + 2)%nat with (S (S n)) by lia.
  replace (n + 1)%nat with (S n) by lia.
  replace (n + 4)%nat with (S (S (S (S n)))) by lia.
  exists s3, h4. split; [reflexivity|]. split; [exact Lh4|].
  split; [exact C4|]. split; [exact K4|].
  pose proof (S4 (S (S n)) ltac:(lia)) as Sb.
  split; [rewrite (attrs_class _ _ (sbp_attrs _ _ Sb)); exact C3|].
  split; [rewrite (sbp_tokens _ _ Sb), K3; symmetry; apply (seq_S (S n) 0)|].
  split; [apply P4; [now left|lia]|].
  split.
  { rewrite F4 by (try lia; intros [X|[]]; lia).
    rewrite (O3 0%nat) by (apply in_seq; lia). reflexivity. }
  split.
  { rewrite F4 by (try lia; intros [X|[]]; lia). exact DE. }
  intros k ty v Ek.
  assert (Lk : (k < n)%nat) by (apply nth_error_Some; unfold n; congruence).
  rewrite F4 by (try lia; intros [X|[]]; lia).
  rewrite (O3 (S k)) by (apply in_seq; lia).
  f_equal. unfold h2, deref. cbn [h1 app nth].
  rewrite (nth_error_nth _ _ dummy
             (map_nth_error (fun tv => Token__init__ dummy (Some (fst tv)) (snd tv))
                            _ _ Ek)).
  reflexivity.
Qed.

Lemma process_nests_block_witness :
  let body := [(T.Name, "x"); (T.Punctuation, ";")] in
  let n := length body in
  exists self' h',
    StatementSplitter.process T.ForIn StatementSplitter._reset
      ((T.Keyword, "BEGIN") :: body ++ [(T.Keyword, "END")]) []
    = Ok (([n + 3], self'), h')%nat
    /\ length h' = (n + 4)%nat
    /\ class_ (deref h' (n + 3)) = Statement
    /\ sql.tokens (deref h' (n + 3)) = [(n + 2)%nat]
    /\ class_ (deref h' (n + 2)) = Statement
    /\ sql.tokens (deref h' (n + 2)) = seq 0 (n + 2)
    /\ parent (deref h' (n + 2)) = Some (n + 3)%nat
    /\ deref h' 0
       = set_parent (Token__init__ dummy (Some T.Keyword) "BEGIN")
                    (Some (n + 2)%nat)
    /\ deref h' (n + 1)
       = set_parent (Token__init__ dummy (Some T.Keyword) "END")
                    (Some (n + 2)%nat)
    /\ forall k ty v, nth_error body k = Some (ty, v) ->
         deref h' (S k)
         = set_parent (Token__init__ dummy (Some ty) v) (Some (n + 2)%nat).
Proof.
  apply (process_nests_block T.ForIn [(T.Name, "x"); (T.Punctuation, ";")]).
  intros ty v [E|[E|[]]]; inversion E; reflexivity.
Defined.

